(** * A shallow embedding of the dense Merkle Patricia trie of [core/trie/trie.go]

    The trie engine ([Trie], [Put], [PutWithProof], [Get], [Root] and their
    helpers) is translated function by function into a state-and-error monad
    over the [Trie] record.  The collaborators that live outside [trie.go]
    (bit keys, nodes, node storage, field elements, the hash primitives) are
    modelled from their contracts. *)

From Stdlib Require Import ZArith List Bool Lia String.
From stdpp Require Import base option list gmap.

Local Open Scope Z_scope.

(** ** Field elements *)

(** Modelled from the spec: [felt.Felt] (package [core/felt]) is an element of
    the Starknet prime field; the trie only compares, copies and hashes
    field elements, and computes [2^height - 1] once. *)
Definition Felt := Z.

Definition felt_P : Z := 2 ^ 251 + 17 * 2 ^ 192 + 1.
Definition felt_Bits : nat := 252.
Definition felt_Zero : Felt := 0.
Definition felt_IsZero (f : Felt) : bool := f =? 0.
Definition felt_Exp (b : Felt) (e : Z) : Felt := (b ^ e) mod felt_P.
Definition felt_Sub (a b : Felt) : Felt := (a - b) mod felt_P.
(** [a.Cmp(b) > 0] *)
Definition felt_Gt (a b : Felt) : bool := b <? a.

(** ** Bit keys *)

(** Modelled from the spec: [Key] (file [key.go]) is a bit string with a
    length; here the bits are listed most significant first.  [NilKey] is
    the key of length zero. *)
Abbreviation Key := (list bool).
Definition NilKey : Key := [].

Definition Key_Len (k : Key) : nat := length k.
Definition Key_Equal (a b : Key) : bool := bool_decide (a = b).

(** Lengths are [uint8] in the source: subtraction wraps around. *)
Definition u8_sub (a b : nat) : nat :=
  Z.to_nat ((Z.of_nat a - Z.of_nat b) mod 256).

(** Modelled from the spec: [IsBitSet(i)] reads the bit at position [i]
    counted from the least significant end; positions outside the key read
    as unset. *)
Definition Key_IsBitSet (k : Key) (bit : nat) : bool :=
  nth bit (rev k) false.

(** Modelled from the spec: [Truncate(n)] keeps the [n] least significant
    bits (chopping from the most significant end the bits above them); a
    length above the current one extends the key with unset bits. *)
Definition Key_Truncate (n : nat) (k : Key) : Key :=
  if (n <=? length k)%nat then drop (length k - n) k
  else replicate (n - length k) false ++ k.

(** Modelled from the spec: [FeltToKey(height, f)] is the key of length
    [height] whose bits are the low [height] bits of [f]. *)
Definition FeltToKey (height : nat) (f : Felt) : Key :=
  map (fun i => Z.testbit f (Z.of_nat (height - 1 - i))) (seq 0 height).

(** Modelled from the spec: [isSubset(descendant, ancestor)] holds iff
    [ancestor] is a prefix of [descendant]. *)
Fixpoint isSubset (longer shorter : Key) : bool :=
  match shorter, longer with
  | [], _ => true
  | b :: s, c :: l => Bool.eqb b c && isSubset l s
  | _ :: _, [] => false
  end.

(** Modelled from the spec: [findCommonKey(a, b)] is the longest shared
    prefix of the two keys; the flag tells whether the second key is wholly
    shared. *)
Fixpoint commonPrefix (a b : Key) : Key :=
  match a, b with
  | x :: a', y :: b' => if Bool.eqb x y then x :: commonPrefix a' b' else []
  | _, _ => []
  end.

Definition findCommonKey (a b : Key) : Key * bool :=
  let c := commonPrefix a b in (c, bool_decide (c = b)).

(** [path] of [trie.go]: the suffix of [key] that diverges from [parentKey],
    without the bit that selects the child. *)
Definition path (key : Key) (parentKey : option Key) : Key :=
  match parentKey with
  | Some p => Key_Truncate (u8_sub (u8_sub (Key_Len key) (Key_Len p)) 1) key
  | None => key
  end.

(** ** Nodes *)

(** Modelled from the spec: [Node] (file [node.go]).  A child that is absent
    is [NilKey]; the child hashes are optional. *)
Record Node := mkNode {
  Value : Felt;
  Left : Key;
  Right : Key;
  LeftHash : option Felt;
  RightHash : option Felt
}.

(** [&Node{Value: value}] as the storage holds it: no children, no hashes. *)
Definition leafNode (value : Felt) : Node := mkNode value NilKey NilKey None None.

Definition Node_setValue (n : Node) (v : Felt) : Node :=
  mkNode v (Left n) (Right n) (LeftHash n) (RightHash n).
Definition Node_setLeft (n : Node) (k : Key) : Node :=
  mkNode (Value n) k (Right n) (LeftHash n) (RightHash n).
Definition Node_setRight (n : Node) (k : Key) : Node :=
  mkNode (Value n) (Left n) k (LeftHash n) (RightHash n).
Definition Node_setLeftHash (n : Node) (h : option Felt) : Node :=
  mkNode (Value n) (Left n) (Right n) h (RightHash n).
Definition Node_setRightHash (n : Node) (h : option Felt) : Node :=
  mkNode (Value n) (Left n) (Right n) (LeftHash n) h.

Record StorageNode := mkStorageNode { sn_key : Key; sn_node : Node }.

(** ** Errors and results *)

Inductive error :=
| ErrKeyNotFound
| ErrStorage (msg : string)
| ErrKeyOutOfRange (key : Felt) (height : nat)
| ErrInvalidHeight (height : nat).

Inductive res (A : Type) :=
| Ok (a : A)
| Err (e : error).
Arguments Ok {A} a.
Arguments Err {A} e.

(** ** Storage *)

(** Modelled from the spec: [Storage] (file [storage.go]) maps keys to nodes
    and has one root-key slot.  Every operation is recorded in [oplog]
    (newest first); [faults] says, for the number of operations performed so
    far, whether the next one fails with a storage error. *)
Inductive StorageOp :=
| OpGet (k : Key)
| OpPut (k : Key) (n : Node)
| OpDelete (k : Key)
| OpRootKey
| OpPutRootKey (k : Key)
| OpDeleteRootKey.

Record Storage := mkStorage {
  nodes : gmap Key Node;
  rootSlot : option Key;
  oplog : list StorageOp;
  faults : nat -> option string
}.

Definition isWrite (op : StorageOp) : bool :=
  match op with
  | OpGet _ | OpRootKey => false
  | _ => true
  end.

Definition Storage_log (op : StorageOp) (s : Storage) : Storage :=
  mkStorage (nodes s) (rootSlot s) (op :: oplog s) (faults s).

Definition Storage_fault (s : Storage) : option string :=
  faults s (length (oplog s)).

Definition Storage_Get (s : Storage) (k : Key) : res Node * Storage :=
  let s' := Storage_log (OpGet k) s in
  match Storage_fault s with
  | Some msg => (Err (ErrStorage msg), s')
  | None =>
      match nodes s !! k with
      | Some n => (Ok n, s')
      | None => (Err ErrKeyNotFound, s')
      end
  end.

Definition Storage_Put (s : Storage) (k : Key) (n : Node) : res unit * Storage :=
  match Storage_fault s with
  | Some msg => (Err (ErrStorage msg), Storage_log (OpPut k n) s)
  | None => (Ok tt, mkStorage (<[k := n]> (nodes s)) (rootSlot s)
                      (OpPut k n :: oplog s) (faults s))
  end.

Definition Storage_Delete (s : Storage) (k : Key) : res unit * Storage :=
  match Storage_fault s with
  | Some msg => (Err (ErrStorage msg), Storage_log (OpDelete k) s)
  | None => (Ok tt, mkStorage (delete k (nodes s)) (rootSlot s)
                      (OpDelete k :: oplog s) (faults s))
  end.

Definition Storage_RootKey (s : Storage) : res Key * Storage :=
  let s' := Storage_log OpRootKey s in
  match Storage_fault s with
  | Some msg => (Err (ErrStorage msg), s')
  | None =>
      match rootSlot s with
      | Some k => (Ok k, s')
      | None => (Err ErrKeyNotFound, s')
      end
  end.

Definition Storage_PutRootKey (s : Storage) (k : Key) : res unit * Storage :=
  match Storage_fault s with
  | Some msg => (Err (ErrStorage msg), Storage_log (OpPutRootKey k) s)
  | None => (Ok tt, mkStorage (nodes s) (Some k) (OpPutRootKey k :: oplog s) (faults s))
  end.

Definition Storage_DeleteRootKey (s : Storage) : res unit * Storage :=
  match Storage_fault s with
  | Some msg => (Err (ErrStorage msg), Storage_log OpDeleteRootKey s)
  | None => (Ok tt, mkStorage (nodes s) None (OpDeleteRootKey :: oplog s) (faults s))
  end.

(** Modelled from the spec: [SyncedStorage] is a view of the same storage
    that admits concurrent writes. *)
Definition Storage_SyncedStorage (s : Storage) : Storage := s.

(** [newMemStorage]: an empty storage that never fails. *)
Definition newMemStorage : Storage := mkStorage ∅ None [] (fun _ => None).

(** ** The trie *)

Record Trie := mkTrie {
  height : nat;
  rootKey : option Key;
  maxKey : Felt;
  storage : Storage;
  dirtyNodes : list Key;
  rootKeyIsDirty : bool
}.

Definition Trie_withStorage (t : Trie) (s : Storage) : Trie :=
  mkTrie (height t) (rootKey t) (maxKey t) s (dirtyNodes t) (rootKeyIsDirty t).
Definition Trie_withDirty (t : Trie) (d : list Key) : Trie :=
  mkTrie (height t) (rootKey t) (maxKey t) (storage t) d (rootKeyIsDirty t).

(** Methods run in a state-and-error monad over the trie.  [None] stands
    for a call that does not return (the loop bound [fuel] ran out, or the
    Go code would panic); [Some (Err e, t)] is a returned error, with the
    state as the method left it. *)
Definition M (A : Type) : Type := Trie -> option (res A * Trie).

Definition ret {A} (a : A) : M A := fun t => Some (Ok a, t).
Definition raise {A} (e : error) : M A := fun t => Some (Err e, t).
Definition abort {A} : M A := fun _ => None.
Definition bind {A B} (m : M A) (f : A -> M B) : M B := fun t =>
  match m t with
  | Some (Ok a, t') => f a t'
  | Some (Err e, t') => Some (Err e, t')
  | None => None
  end.
(** Runs [m] and hands its result, error or not, to [f]. *)
Definition try {A B} (m : M A) (f : res A -> M B) : M B := fun t =>
  match m t with
  | Some (r, t') => f r t'
  | None => None
  end.

Notation "'let*' x ':=' m 'in' k" := (bind m (fun x => k))
  (at level 10, x name, m at level 100, k at level 200).
Notation "m >>> k" := (bind m (fun _ => k))
  (at level 90, right associativity).

Definition liftStorage {A} (f : Storage -> res A * Storage) : M A := fun t =>
  let (r, s') := f (storage t) in Some (r, Trie_withStorage t s').

Definition storageGet (k : Key) : M Node := liftStorage (fun s => Storage_Get s k).
Definition storagePut (k : Key) (n : Node) : M unit :=
  liftStorage (fun s => Storage_Put s k n).
Definition storageDelete (k : Key) : M unit :=
  liftStorage (fun s => Storage_Delete s k).
Definition storagePutRootKey (k : Key) : M unit :=
  liftStorage (fun s => Storage_PutRootKey s k).
Definition storageDeleteRootKey : M unit := liftStorage Storage_DeleteRootKey.

Definition appendDirty (k : Key) : M unit := fun t =>
  Some (Ok tt, Trie_withDirty t (dirtyNodes t ++ [k])).

(** [setRootKey] *)
Definition setRootKey (newRootKey : option Key) : M unit := fun t =>
  Some (Ok tt, mkTrie (height t) newRootKey (maxKey t) (storage t) (dirtyNodes t) true).

(** [newTrie]: [maxKey] is [2^height - 1], computed in the field. *)
Definition newTrie (st : Storage) (h : nat) : res Trie * Storage :=
  if (felt_Bits <? h)%nat then (Err (ErrInvalidHeight h), st) else
  let maxKey := felt_Sub (felt_Exp 2 (Z.of_nat h)) 1 in
  match Storage_RootKey st with
  | (Ok k, st') => (Ok (mkTrie h (Some k) maxKey st' [] false), st')
  | (Err ErrKeyNotFound, st') => (Ok (mkTrie h None maxKey st' [] false), st')
  | (Err e, st') => (Err e, st')
  end.

Section TrieOps.

(** The hash function bound at construction ([crypto.Pedersen] or
    [crypto.Poseidon]). *)
Variable hash : Felt -> Felt -> Felt.
(** Modelled from the spec: the path-mixing policy of [Node.Hash] for a
    relative path of positive length. *)
Variable hashPath : Felt -> Key -> Felt.

(** Modelled from the spec: [Node.Hash(path, hash)] is the node's own
    commitment when the relative path is empty, and that commitment mixed
    with the path otherwise. *)
Definition Node_Hash (n : Node) (p : Key) : Felt :=
  if (Key_Len p =? 0)%nat then Value n else hashPath (Value n) p.

(** [nodesFromRoot]: the loop, with [nodes] the list built so far and [cur]
    the key to visit next. *)
Fixpoint nodesFromRoot_loop (fuel : nat) (key : Key) (cur : option Key)
    (nodes : list StorageNode) : M (list StorageNode) :=
  match cur with
  | None => ret nodes
  | Some cur =>
      match fuel with
      | O => abort
      | S fuel =>
          if (0 <? length nodes)%nat && (Key_Len cur =? 0)%nat then ret nodes else
          let* node := storageGet cur in
          let nodes := nodes ++ [mkStorageNode cur node] in
          let subset := isSubset key cur in
          if (Key_Len key <=? Key_Len cur)%nat || negb subset then ret nodes else
          if Key_IsBitSet key (u8_sub (u8_sub (Key_Len key) (Key_Len cur)) 1)
          then nodesFromRoot_loop fuel key (Some (Right node)) nodes
          else nodesFromRoot_loop fuel key (Some (Left node)) nodes
      end
  end.

Definition nodesFromRoot (fuel : nat) (key : Key) : M (list StorageNode) := fun t =>
  nodesFromRoot_loop fuel key (rootKey t) [] t.

(** [Get] *)
Definition Get (key : Felt) : M Felt := fun t =>
  let storageKey := FeltToKey (height t) key in
  try (storageGet storageKey) (fun r =>
    match r with
    | Err ErrKeyNotFound => ret felt_Zero
    | Err e => raise e
    | Ok value => ret (Value value)
    end) t.

(** [GetNodeFromKey] *)
Definition GetNodeFromKey (key : Key) : M Node := storageGet key.

(** [updateLeaf] *)
Definition updateLeaf (nodeKey : Key) (node : Node) (value : Felt) : M (option Felt) :=
  if negb (felt_IsZero value) then
    try (storageGet nodeKey) (fun r =>
      match r with
      | Ok existingLeaf =>
          let old := Value existingLeaf in
          storagePut nodeKey node >>>
          appendDirty nodeKey >>>
          ret (Some old)
      | Err ErrKeyNotFound => ret None
      | Err e => raise e
      end)
  else ret None.

(** [handleEmptyTrie] *)
Definition handleEmptyTrie (old : Felt) (nodeKey : Key) (node : Node) (value : Felt)
    : M (option Felt) :=
  if felt_IsZero value then ret None else
  storagePut nodeKey node >>>
  setRootKey (Some nodeKey) >>>
  ret (Some old).

(** [nodes[len(nodes)-i]]; an index outside the slice panics. *)
Definition fromEnd {A} (l : list A) (i : nat) : M A :=
  if (i <=? length l)%nat then
    match l !! (length l - i)%nat with
    | Some x => ret x
    | None => abort
    end
  else abort.

(** [deleteLast] *)
Definition deleteLast (nodes : list StorageNode) : M unit :=
  let* last := fromEnd nodes 1 in
  storageDelete (sn_key last) >>>
  if (length nodes =? 1)%nat then setRootKey None else
  let* parent := fromEnd nodes 2 in
  storageDelete (sn_key parent) >>>
  let siblingKey :=
    if Key_Equal (Left (sn_node parent)) (sn_key last)
    then Right (sn_node parent) else Left (sn_node parent) in
  if (length nodes =? 2)%nat then setRootKey (Some siblingKey) else
  let* grandParent := fromEnd nodes 3 in
  let gpNode :=
    if Key_Equal (Left (sn_node grandParent)) (sn_key parent)
    then Node_setLeft (sn_node grandParent) siblingKey
    else Node_setRight (sn_node grandParent) siblingKey in
  storagePut (sn_key grandParent) gpNode >>>
  appendDirty siblingKey.

(** [deleteExistingKey] *)
Definition deleteExistingKey (sibling : StorageNode) (nodeKey : Key)
    (nodes : list StorageNode) : M (option Felt) :=
  if Key_Equal nodeKey (sn_key sibling) then
    let old := Value (sn_node sibling) in
    deleteLast nodes >>>
    ret (Some old)
  else ret None.

(** [replaceLinkWithNewParent]: the node of [siblingParent] after the link
    to [key] has been replaced. *)
Definition replaceLinkWithNewParent (key commonKey : Key) (siblingParent : StorageNode)
    : Node :=
  if Key_Equal (Left (sn_node siblingParent)) key
  then Node_setLeft (sn_node siblingParent) commonKey
  else Node_setRight (sn_node siblingParent) commonKey.

(** [insertOrUpdateValue] *)
Definition insertOrUpdateValue (nodeKey : Key) (node : Node) (nodes : list StorageNode)
    (sibling : StorageNode) (siblingIsParentProof : bool) : M unit :=
  let commonKey := fst (findCommonKey nodeKey (sn_key sibling)) in
  let bit := Key_IsBitSet nodeKey (u8_sub (u8_sub (Key_Len nodeKey) (Key_Len commonKey)) 1) in
  (if siblingIsParentProof then
     let* newParent := GetNodeFromKey commonKey in
     let newParent :=
       if bit
       then Node_setRightHash (Node_setRight newParent nodeKey) (Some (Node_Hash node nodeKey))
       else Node_setLeftHash (Node_setLeft newParent nodeKey) (Some (Node_Hash node nodeKey)) in
     storagePut commonKey newParent >>>
     appendDirty commonKey
   else
     let '(l, r, leftChild, rightChild) :=
       if bit then (sn_key sibling, nodeKey, sn_node sibling, node)
       else (nodeKey, sn_key sibling, node, sn_node sibling) in
     let leftPath := path l (Some commonKey) in
     let rightPath := path r (Some commonKey) in
     let newParent :=
       mkNode (hash (Node_Hash leftChild leftPath) (Node_Hash rightChild rightPath))
              l r None None in
     storagePut commonKey newParent >>>
     if (1 <? length nodes)%nat then
       let* siblingParent := fromEnd nodes 2 in
       storagePut (sn_key siblingParent)
         (replaceLinkWithNewParent (sn_key sibling) commonKey siblingParent) >>>
       appendDirty commonKey
     else setRootKey (Some commonKey)) >>>
  storagePut nodeKey node.

(** The part that [Put] and [PutWithProof] share; [proof] is [None] for
    [Put]. *)
Definition putCommon (fuel : nat) (key value : Felt) (proof : option (list StorageNode))
    : M (option Felt) := fun t =>
  if felt_Gt key (maxKey t) then raise (ErrKeyOutOfRange key (height t)) t else
  let old := felt_Zero in
  let nodeKey := FeltToKey (height t) key in
  let node := leafNode value in
  try (updateLeaf nodeKey node value) (fun r =>
    match r with
    | Err e => raise e
    | Ok (Some oldValue) => ret (Some oldValue)
    | Ok None =>
        let* nodes := nodesFromRoot fuel nodeKey in
        if (length nodes =? 0)%nat then handleEmptyTrie old nodeKey node value else
        let* sibling := fromEnd nodes 1 in
        try (deleteExistingKey sibling nodeKey nodes) (fun r =>
          match r with
          | Err e => raise e
          | Ok (Some oldValue) => ret (Some oldValue)
          | Ok None =>
              if felt_IsZero value then ret None else
              let '(sibling, parentIsProof) :=
                match proof with
                | None => (sibling, false)
                | Some proof =>
                    match List.find (fun p => Key_Equal (sn_key p) (sn_key sibling)) proof with
                    | Some proofNode => (proofNode, true)
                    | None => (sibling, false)
                    end
                end in
              insertOrUpdateValue nodeKey node nodes sibling parentIsProof >>>
              ret (Some old)
          end)
    end) t.

(** [Put] *)
Definition Put (fuel : nat) (key value : Felt) : M (option Felt) :=
  putCommon fuel key value None.

(** [PutWithProof] *)
Definition PutWithProof (fuel : nat) (key value : Felt) (proof : list StorageNode)
    : M (option Felt) :=
  putCommon fuel key value (Some proof).

(** [PutInner] *)
Definition PutInner (key : Key) (node : Node) : M unit := storagePut key node.

(** *** The commitment pass *)

(** The loop of [updateValueIfDirty] over the dirty list: some dirty key lies
    strictly below [key]. *)
Definition dirtyBelow (dirty : list Key) (key : Key) : bool :=
  existsb (fun dirtyNode =>
    (Key_Len key <? Key_Len dirtyNode)%nat && isSubset dirtyNode key) dirty.

(** [updateChildTriesSerially], over the recursive call [rec]. *)
Definition updateChildTriesSerially (rec : Key -> M Node) (root : Node)
    (leftIsProof rightIsProof : bool) : M (option Node * option Node) :=
  let* leftChild :=
    (if negb leftIsProof then let* n := rec (Left root) in ret (Some n) else ret None) in
  let* rightChild :=
    (if negb rightIsProof then let* n := rec (Right root) in ret (Some n) else ret None) in
  ret (leftChild, rightChild).

(** [updateChildTriesConcurrently], over the recursive call [rec].  The two
    tasks are run one after the other, the left one first when [leftFirst];
    both always run, and the left error is reported before the right one. *)
Definition updateChildTriesConcurrently (leftFirst : bool) (rec : Key -> M Node)
    (root : Node) (leftIsProof rightIsProof : bool) : M (option Node * option Node) :=
  let leftTask : M (option Node) :=
    if negb leftIsProof then let* n := rec (Left root) in ret (Some n) else ret None in
  let rightTask : M (option Node) :=
    if negb rightIsProof then let* n := rec (Right root) in ret (Some n) else ret None in
  let finish (l r : res (option Node)) : M (option Node * option Node) :=
    match l, r with
    | Err lErr, _ => raise lErr
    | _, Err rErr => raise rErr
    | Ok leftChild, Ok rightChild => ret (leftChild, rightChild)
    end in
  if leftFirst
  then try leftTask (fun l => try rightTask (fun r => finish l r))
  else try rightTask (fun r => try leftTask (fun l => finish l r)).

Definition concurrencyMaxDepth : nat := 8.

(** Which of the two tasks of a concurrent update reaches the storage
    first, for the node being updated. *)
Variable schedule : Key -> bool.

(** [updateValueIfDirty] *)
Fixpoint updateValueIfDirty (fuel : nat) (key : Key) : M Node :=
  match fuel with
  | O => abort
  | S fuel =>
      let* node := storageGet key in
      fun t =>
      if (Key_Len key =? height t)%nat then ret node t else
      let shouldUpdate := dirtyBelow (dirtyNodes t) key in
      let leftNil := Key_Equal (Left node) NilKey in
      let rightNil := Key_Equal (Right node) NilKey in
      let shouldUpdate :=
        if leftNil && rightNil then false
        else if leftNil || rightNil then true
        else shouldUpdate in
      if negb shouldUpdate then ret node t else
      let leftIsProof := leftNil in
      let rightIsProof := rightNil in
      (let* children :=
         (if (Key_Len key <=? concurrencyMaxDepth)%nat
          then updateChildTriesConcurrently (schedule key) (updateValueIfDirty fuel)
                 node leftIsProof rightIsProof
          else updateChildTriesSerially (updateValueIfDirty fuel)
                 node leftIsProof rightIsProof) in
       let leftHash :=
         match fst children with
         | Some leftChild => Some (Node_Hash leftChild (path (Left node) (Some key)))
         | None => LeftHash node
         end in
       let rightHash :=
         match snd children with
         | Some rightChild => Some (Node_Hash rightChild (path (Right node) (Some key)))
         | None => RightHash node
         end in
       match leftHash, rightHash with
       | Some leftHash, Some rightHash =>
           let node := Node_setValue node (hash leftHash rightHash) in
           storagePut key node >>>
           ret node
       | _, _ => abort
       end) t
  end.

Definition withSyncedStorage {A} (m : M A) : M A := fun t =>
  m (Trie_withStorage t (Storage_SyncedStorage (storage t))).

(** [Root] *)
Definition Root (fuel : nat) : M Felt :=
  (fun t =>
     if rootKeyIsDirty t then
       ((match rootKey t with
         | None => storageDeleteRootKey
         | Some k => storagePutRootKey k
         end) >>>
        (fun t => Some (Ok tt, mkTrie (height t) (rootKey t) (maxKey t) (storage t)
                                 (dirtyNodes t) false))) t
     else ret tt t) >>>
  fun t =>
  match rootKey t with
  | None => ret felt_Zero t
  | Some rk =>
      withSyncedStorage
        (let* root := updateValueIfDirty fuel rk in
         (fun t => Some (Ok tt, Trie_withDirty t [])) >>>
         ret (Node_Hash root (path rk None))) t
  end.

(** [Commit] *)
Definition Commit (fuel : nat) : M unit := Root fuel >>> ret tt.

(** *** The serial reference *)

(** The recursion of [updateValueIfDirty] with the serial routine at every
    depth: what the commitment pass computes when no subtree takes the
    parallel path. *)
Fixpoint updateValueIfDirtySerially (fuel : nat) (key : Key) : M Node :=
  match fuel with
  | O => abort
  | S fuel =>
      let* node := storageGet key in
      fun t =>
      if (Key_Len key =? height t)%nat then ret node t else
      let shouldUpdate := dirtyBelow (dirtyNodes t) key in
      let leftNil := Key_Equal (Left node) NilKey in
      let rightNil := Key_Equal (Right node) NilKey in
      let shouldUpdate :=
        if leftNil && rightNil then false
        else if leftNil || rightNil then true
        else shouldUpdate in
      if negb shouldUpdate then ret node t else
      (let* children :=
         updateChildTriesSerially (updateValueIfDirtySerially fuel) node leftNil rightNil in
       let leftHash :=
         match fst children with
         | Some leftChild => Some (Node_Hash leftChild (path (Left node) (Some key)))
         | None => LeftHash node
         end in
       let rightHash :=
         match snd children with
         | Some rightChild => Some (Node_Hash rightChild (path (Right node) (Some key)))
         | None => RightHash node
         end in
       match leftHash, rightHash with
       | Some leftHash, Some rightHash =>
           let node := Node_setValue node (hash leftHash rightHash) in
           storagePut key node >>>
           ret node
       | _, _ => abort
       end) t
  end.

(** [Root] over the serial reference. *)
Definition RootSerially (fuel : nat) : M Felt :=
  (fun t =>
     if rootKeyIsDirty t then
       ((match rootKey t with
         | None => storageDeleteRootKey
         | Some k => storagePutRootKey k
         end) >>>
        (fun t => Some (Ok tt, mkTrie (height t) (rootKey t) (maxKey t) (storage t)
                                 (dirtyNodes t) false))) t
     else ret tt t) >>>
  fun t =>
  match rootKey t with
  | None => ret felt_Zero t
  | Some rk =>
      withSyncedStorage
        (let* root := updateValueIfDirtySerially fuel rk in
         (fun t => Some (Ok tt, Trie_withDirty t [])) >>>
         ret (Node_Hash root (path rk None))) t
  end.

End TrieOps.


(** ** The slice helpers of package [utils] *)

Module utils.

(** A Go slice; [None] is the nil slice, which has no elements and is not
    the same value as an empty slice that was allocated. *)
Definition slice (T : Type) : Type := option (list T).

Definition elements {T} (s : slice T) : list T :=
  match s with Some l => l | None => [] end.

(** [append(s, e)]: the result is never nil. *)
Definition append {T} (s : slice T) (e : T) : slice T := Some (elements s ++ [e]).

(** [Map]: nil for nil, and otherwise a new slice of the same length filled
    index by index. *)
Definition Map {T1 T2} (s : slice T1) (f : T1 -> T2) : slice T2 :=
  match s with
  | None => None
  | Some l => Some (map f l)
  end.

(** [Filter]: the loop over the elements, appending to [result], which
    starts as the nil slice. *)
Fixpoint Filter_loop {T} (l : list T) (f : T -> bool) (result : slice T) : slice T :=
  match l with
  | [] => result
  | e :: l' => Filter_loop l' f (if f e then append result e else result)
  end.

Definition Filter {T} (s : slice T) (f : T -> bool) : slice T :=
  Filter_loop (elements s) f None.

(** [slices.IndexFunc] of the Go library: the index of the first element
    that satisfies [p], or -1. *)
Fixpoint IndexFunc_from {T} (l : list T) (p : T -> bool) (i : Z) : Z :=
  match l with
  | [] => -1
  | e :: l' => if p e then i else IndexFunc_from l' p (i + 1)
  end.

Definition IndexFunc {T} (s : slice T) (p : T -> bool) : Z :=
  IndexFunc_from (elements s) p 0.

(** [All] *)
Definition All {T} (s : slice T) (f : T -> bool) : bool :=
  IndexFunc s (fun e => negb (f e)) =? -1.

(** [AnyOf]: [slices.Contains] of the Go library over the variadic
    arguments, for a comparable type. *)
Definition AnyOf {T} `{EqDecision T} (e : T) (values : list T) : bool :=
  existsb (fun v => bool_decide (v = e)) values.

End utils.
(** ** A concrete setting for examples *)

Module Example.
Definition hash (a b : Felt) : Felt := 3 * a + 5 * b + 1.
Definition hashPath (v : Felt) (p : Key) : Felt := 7 * v + Z.of_nat (length p) + 11.
Definition schedule (k : Key) : bool := true.
Definition fuel : nat := 300.

(** An empty in-memory trie of the given height. *)
Definition emptyTrie (h : nat) : Trie :=
  mkTrie h None (felt_Sub (felt_Exp 2 (Z.of_nat h)) 1) newMemStorage [] false.

Definition state {A} (o : option (res A * Trie)) (t : Trie) : Trie :=
  match o with Some (_, t') => t' | None => t end.

Definition put (k v : Felt) (t : Trie) : Trie := state (Put hash hashPath fuel k v t) t.

(** Height 4 with keys 5, 7 and 1. *)
Definition trie3 : Trie := put 1 10 (put 7 70 (put 5 50 (emptyTrie 4))).

(** The trie [t] over a storage whose operation number [n] fails; the
    operations are counted from the first one of the storage. *)
Definition failingAt (n : nat) (t : Trie) : Trie :=
  Trie_withStorage t
    (mkStorage (nodes (storage t)) (rootSlot (storage t)) (oplog (storage t))
               (fun i => if Nat.eqb i n then Some "disk"%string else None)).

(** [trie3] once its root key is settled, then the key 5 overwritten (the
    dirty list holds its leaf), over a storage whose second operation from
    here on fails. *)
Definition settled3 : Trie := state (Root hash hashPath schedule fuel trie3) trie3.
Definition dirty3 : Trie := put 5 51 settled3.
Definition failing3 : Trie := failingAt (S (length (oplog (storage dirty3)))) dirty3.
End Example.


Module ProofExample.
(** A trie of height 4 reached with the exported operations only: the
    keys 1 and 0 are put, which makes the node at 000 the root, and
    [PutInner] then stores at 000 a proof node: no left key but the left
    hash 7, and the leaf 0001 on the right. *)
Definition rootKey : Key := [false; false; false].
Definition leafKey : Key := [false; false; false; true].
Definition proofNode : Node := mkNode 0 NilKey leafKey (Some 7) None.

Definition trie : Trie :=
  let t := Example.put 0 20 (Example.put 1 10 (Example.emptyTrie 4)) in
  Example.state (PutInner rootKey proofNode t) t.

(** The trie after one [Root], and after a second one. *)
Definition afterRoot (t : Trie) : Trie :=
  Example.state (Root Example.hash Example.hashPath Example.schedule Example.fuel t) t.
Definition trie1 : Trie := afterRoot trie.
Definition trie2 : Trie := afterRoot trie1.
End ProofExample.


Module InnerExample.
(** A trie of height 4 without a root key, in whose storage [PutInner] has
    put a leaf with the value 10 at the full-depth key 0001 of the key 1. *)
Definition leafKey : Key := [false; false; false; true].

Definition trie : Trie :=
  Example.state (PutInner leafKey (leafNode 10) (Example.emptyTrie 4)) (Example.emptyTrie 4).

(** The trie after [Put] of zero at the key 1. *)
Definition trie1 : Trie :=
  Example.state (Put Example.hash Example.hashPath Example.fuel 1 0 trie) trie.
End InnerExample.
(** ** Vocabulary for the statements *)

(** [t'] differs from [t] by storage reads only: the operation log grew by
    reads, everything else is as it was. *)
Definition readsOnly (t t' : Trie) : Prop :=
  exists ops,
    Forall (fun op => isWrite op = false) ops /\
    t' = Trie_withStorage t
           (mkStorage (nodes (storage t)) (rootSlot (storage t))
                      (ops ++ oplog (storage t)) (faults (storage t))).

(** The operations that [t'] performed on the storage after [t]. *)
Definition opsSince (t t' : Trie) (ops : list StorageOp) : Prop :=
  oplog (storage t') = ops ++ oplog (storage t).

(** The storage of [t] never fails. *)
Definition noFaults (t : Trie) : Prop := forall n, faults (storage t) n = None.

(** Only the storage component of the trie changes. *)
Definition storageOnly {A} (m : M A) : Prop :=
  forall t r t', m t = Some (r, t') -> t' = Trie_withStorage t (storage t').

(** The storage of [t] holds the node of [sn] at the key of [sn]. *)
Definition stored (t : Trie) (sn : StorageNode) : Prop :=
  nodes (storage t) !! sn_key sn = Some (sn_node sn).

(** Every run of [m] relates the state before to the state after by [R]. *)
Definition respects {A} (R : Trie -> Trie -> Prop) (m : M A) : Prop :=
  forall t r t', m t = Some (r, t') -> R t t'.

(** The parameters fixed at construction stay as they are. *)
Definition sameConfig (t t' : Trie) : Prop :=
  height t' = height t /\ maxKey t' = maxKey t /\
  faults (storage t') = faults (storage t).

(** The trie state after one successful storage operation. *)
Definition Trie_read (k : Key) (t : Trie) : Trie :=
  Trie_withStorage t (Storage_log (OpGet k) (storage t)).
Definition Trie_put (k : Key) (n : Node) (t : Trie) : Trie :=
  Trie_withStorage t
    (mkStorage (<[k := n]> (nodes (storage t))) (rootSlot (storage t))
               (OpPut k n :: oplog (storage t)) (faults (storage t))).
Definition Trie_delete (k : Key) (t : Trie) : Trie :=
  Trie_withStorage t
    (mkStorage (delete k (nodes (storage t))) (rootSlot (storage t))
               (OpDelete k :: oplog (storage t)) (faults (storage t))).

(** ** The trie as a tree *)

(** The tree that the stored nodes form: a leaf carries its storage key and
    value; a branching node carries its storage key, its stored value and
    its two children. *)
Inductive tree :=
| TLeaf (k : Key) (v : Felt)
| TNode (k : Key) (val : Felt) (l r : tree).

Definition tkey (s : tree) : Key :=
  match s with TLeaf k _ => k | TNode k _ _ _ => k end.

Definition tval (s : tree) : Felt :=
  match s with TLeaf _ v => v | TNode _ val _ _ => val end.

(** The node stored at the root of [s]. *)
Definition tnode (s : tree) : Node :=
  match s with
  | TLeaf _ v => leafNode v
  | TNode _ val l r => mkNode val (tkey l) (tkey r) None None
  end.

Definition tsn (s : tree) : StorageNode := mkStorageNode (tkey s) (tnode s).

(** The storage contents that hold [s]. *)
Fixpoint flatten (s : tree) : gmap Key Node :=
  match s with
  | TLeaf k v => {[ k := leafNode v ]}
  | TNode k val l r => <[ k := mkNode val (tkey l) (tkey r) None None ]> (flatten l ∪ flatten r)
  end.

(** The key-value pairs at the leaves. *)
Fixpoint leaves (s : tree) : gmap Key Felt :=
  match s with
  | TLeaf k v => {[ k := v ]}
  | TNode _ _ l r => leaves l ∪ leaves r
  end.

(** Leaves sit at depth [h]; the left child of a node at [k] lies below
    [k ++ [false]], the right child below [k ++ [true]]. *)
Fixpoint wf (h : nat) (s : tree) : Prop :=
  match s with
  | TLeaf k _ => length k = h
  | TNode k _ l r =>
      (k ++ [false]) `prefix_of` tkey l /\ (k ++ [true]) `prefix_of` tkey r /\
      wf h l /\ wf h r
  end.

Fixpoint tdepth (s : tree) : nat :=
  match s with
  | TLeaf _ _ => 1
  | TNode _ _ l r => S (Nat.max (tdepth l) (tdepth r))
  end.

(** The descent goes on below a node at [k]: [k] is a proper prefix of
    [key]. *)
Definition descends (key k : Key) : bool :=
  negb ((Key_Len key <=? Key_Len k)%nat || negb (isSubset key k)).

(** The bit of [key] that selects the child of a node at [k]. *)
Definition branchBit (key k : Key) : bool :=
  Key_IsBitSet key (u8_sub (u8_sub (Key_Len key) (Key_Len k)) 1).

(** The subtrees that the descent towards [key] visits, the root first. *)
Fixpoint tpath (key : Key) (s : tree) : list tree :=
  match s with
  | TLeaf _ _ => [s]
  | TNode k _ l r =>
      if descends key k
      then s :: (if branchBit key k then tpath key r else tpath key l)
      else [s]
  end.

Section TreeOps.
Variable hash : Felt -> Felt -> Felt.
Variable hashPath : Felt -> Key -> Felt.

(** A new branching node above [s] and a new leaf at [key]. *)
Definition tbranch (key : Key) (v : Felt) (s : tree) : tree :=
  let c := commonPrefix key (tkey s) in
  if branchBit key c
  then TNode c (hash (Node_Hash hashPath (tnode s) (path (tkey s) (Some c)))
                     (Node_Hash hashPath (leafNode v) (path key (Some c))))
             s (TLeaf key v)
  else TNode c (hash (Node_Hash hashPath (leafNode v) (path key (Some c)))
                     (Node_Hash hashPath (tnode s) (path (tkey s) (Some c))))
             (TLeaf key v) s.

(** The tree after [key] has been given the value [v]. *)
Fixpoint tinsert (key : Key) (v : Felt) (s : tree) : tree :=
  match s with
  | TLeaf k _ => if Key_Equal key k then TLeaf k v else tbranch key v s
  | TNode k val l r =>
      if descends key k
      then if branchBit key k
           then TNode k val l (tinsert key v r)
           else TNode k val (tinsert key v l) r
      else tbranch key v s
  end.

(** The tree after the leaf at [key] has been removed; [None] when nothing
    is left, the tree as it is when there is no such leaf. *)
Fixpoint tdelete (key : Key) (s : tree) : option tree :=
  match s with
  | TLeaf k _ => if Key_Equal key k then None else Some s
  | TNode k val l r =>
      if descends key k
      then if branchBit key k
           then match tdelete key r with
                | Some r' => Some (TNode k val l r')
                | None => Some l
                end
           else match tdelete key l with
                | Some l' => Some (TNode k val l' r)
                | None => Some r
                end
      else Some s
  end.

(** The commitment of a subtree: what its value is once recomputed. *)
Fixpoint cval (s : tree) : Felt :=
  match s with
  | TLeaf _ v => v
  | TNode k _ l r =>
      hash (Node_Hash hashPath (leafNode (cval l)) (path (tkey l) (Some k)))
           (Node_Hash hashPath (leafNode (cval r)) (path (tkey r) (Some k)))
  end.

(** The tree with every value recomputed. *)
Fixpoint clean (s : tree) : tree :=
  match s with
  | TLeaf k v => TLeaf k v
  | TNode k _ l r => TNode k (cval s) (clean l) (clean r)
  end.

(** The commitment of the whole trie. *)
Definition commitment (tr : option tree) : Felt :=
  match tr with
  | None => felt_Zero
  | Some s => Node_Hash hashPath (leafNode (cval s)) (path (tkey s) None)
  end.

(** A stored value is stale only above a dirty key. *)
Fixpoint upToDate (dirty : list Key) (s : tree) : Prop :=
  match s with
  | TLeaf _ _ => True
  | TNode k val l r =>
      (dirtyBelow dirty k = false -> val = cval s) /\
      upToDate dirty l /\ upToDate dirty r
  end.

End TreeOps.

(** The trie state [t] holds the tree [tr] and nothing else. *)
Definition holds (tr : option tree) (t : Trie) : Prop :=
  match tr with
  | None => rootKey t = None /\ nodes (storage t) = ∅
  | Some s => rootKey t = Some (tkey s) /\ nodes (storage t) = flatten s /\ wf (height t) s
  end.

(** The invariant of a trie built by [Put] and [Root]. *)
Definition represents (hash : Felt -> Felt -> Felt) (hashPath : Felt -> Key -> Felt)
    (tr : option tree) (t : Trie) : Prop :=
  holds tr t /\
  (height t <= 255)%nat /\
  match tr with
  | None => True
  | Some s => upToDate hash hashPath (dirtyNodes t) s
  end.

(** The last but one element: the parent of the node that ends a descent. *)
Fixpoint parentOf {A} (l : list A) : option A :=
  match l with
  | [] => None
  | x :: tl => match tl with [_] => Some x | _ => parentOf tl end
  end.

(** The last but two. *)
Fixpoint grandParentOf {A} (l : list A) : option A :=
  match l with
  | [] => None
  | x :: tl => match tl with [_; _] => Some x | _ => grandParentOf tl end
  end.

Section TreeStorage.
Variable hash : Felt -> Felt -> Felt.
Variable hashPath : Felt -> Key -> Felt.

(** The storage contents after the insertion of a new leaf at [key], given
    the descent [p] towards [key]: the new branching node, the relinked
    parent of the sibling, the new leaf. *)
Definition putNodes (key : Key) (v : Felt) (p : list tree) (m : gmap Key Node)
    : gmap Key Node :=
  match last p with
  | None => m
  | Some sib =>
      let c := commonPrefix key (tkey sib) in
      let m1 := <[ c := tnode (tbranch hash hashPath key v sib) ]> m in
      let m2 :=
        match parentOf p with
        | Some par => <[ tkey par := replaceLinkWithNewParent (tkey sib) c (tsn par) ]> m1
        | None => m1
        end in
      <[ key := leafNode v ]> m2
  end.

(** The storage contents after the deletion of the leaf that ends the
    descent [p]. *)
Definition deleteNodes (p : list tree) (m : gmap Key Node) : gmap Key Node :=
  match last p with
  | None => m
  | Some lst =>
      let m1 := delete (tkey lst) m in
      match parentOf p with
      | None => m1
      | Some par =>
          let m2 := delete (tkey par) m1 in
          let siblingKey :=
            if Key_Equal (Left (tnode par)) (tkey lst)
            then Right (tnode par) else Left (tnode par) in
          match grandParentOf p with
          | None => m2
          | Some gp =>
              <[ tkey gp :=
                   if Key_Equal (Left (tnode gp)) (tkey par)
                   then Node_setLeft (tnode gp) siblingKey
                   else Node_setRight (tnode gp) siblingKey ]> m2
          end
      end
  end.

End TreeStorage.

Section TrieModel.
Variable hash : Felt -> Felt -> Felt.
Variable hashPath : Felt -> Key -> Felt.

(** The trie, empty or not, after [Put] of [v] at the storage key [key]. *)
Definition trieInsert (key : Key) (v : Felt) (tr : option tree) : option tree :=
  Some (match tr with
        | None => TLeaf key v
        | Some s => tinsert hash hashPath key v s
        end).

Definition trieDelete (key : Key) (tr : option tree) : option tree :=
  match tr with
  | None => None
  | Some s => tdelete key s
  end.

Definition triePut (key : Key) (v : Felt) (tr : option tree) : option tree :=
  if felt_IsZero v then trieDelete key tr else trieInsert key v tr.

End TrieModel.

Definition trieLeaves (tr : option tree) : gmap Key Felt :=
  match tr with
  | None => ∅
  | Some s => leaves s
  end.

Definition trieNodes (tr : option tree) : gmap Key Node :=
  match tr with
  | None => ∅
  | Some s => flatten s
  end.

Definition trieRoot (tr : option tree) : option Key := option_map tkey tr.

(** The child of [par] that is not at [key]: what [deleteLast] links in
    place of [par]. *)
Definition siblingKeyOf (par : tree) (key : Key) : Key :=
  if Key_Equal (Left (tnode par)) key then Right (tnode par) else Left (tnode par).

Section Updates.
Variable hash : Felt -> Felt -> Felt.
Variable hashPath : Felt -> Key -> Felt.

(** The tree after the commitment pass with the dirty list [dirty]: the
    values above dirty keys are recomputed from the children, the others are
    kept. *)
Fixpoint refresh (dirty : list Key) (s : tree) : tree :=
  match s with
  | TLeaf k v => TLeaf k v
  | TNode k val l r =>
      if dirtyBelow dirty k then
        let l' := refresh dirty l in
        let r' := refresh dirty r in
        TNode k (hash (Node_Hash hashPath (tnode l') (path (tkey l) (Some k)))
                      (Node_Hash hashPath (tnode r') (path (tkey r) (Some k))))
              l' r'
      else s
  end.

(** From [t] to [t'] the subtree [s'] was written over the storage, and
    nothing else changed but the operation log. *)
Definition recomputed (s' : tree) (t t' : Trie) : Prop :=
  nodes (storage t') = flatten s' ∪ nodes (storage t) /\
  t' = Trie_withStorage t (storage t') /\
  faults (storage t') = faults (storage t) /\
  rootSlot (storage t') = rootSlot (storage t).

(** What the recursive call [rec] achieves on the subtree [s]. *)
Definition runsOn (rec : Key -> M Node) (s : tree) : Prop :=
  forall t,
    noFaults t -> flatten s ⊆ nodes (storage t) -> wf (height t) s ->
    exists t',
      rec (tkey s) t = Some (Ok (tnode (refresh (dirtyNodes t) s)), t') /\
      recomputed (refresh (dirtyNodes t) s) t t'.

End Updates.

Section TrieClean.
Variable hash : Felt -> Felt -> Felt.
Variable hashPath : Felt -> Key -> Felt.

(** The trie after the commitment pass. *)
Definition trieClean (tr : option tree) : option tree :=
  option_map (clean hash hashPath) tr.

End TrieClean.

(** The trie was configured as [newTrie] does. *)
Definition configured (t : Trie) : Prop :=
  (height t <= felt_Bits)%nat /\
  maxKey t = felt_Sub (felt_Exp 2 (Z.of_nat (height t))) 1.

Section PutAll.
Variable hash : Felt -> Felt -> Felt.
Variable hashPath : Felt -> Key -> Felt.

(** [Put] of every pair of the list, in the order of the list; [None] when
    a [Put] fails or does not return. *)
Fixpoint putAll (fuel : nat) (l : list (Felt * Felt)) (t : Trie) : option Trie :=
  match l with
  | [] => Some t
  | (k, v) :: l' =>
      match Put hash hashPath fuel k v t with
      | Some (Ok _, t') => putAll fuel l' t'
      | _ => None
      end
  end.

End PutAll.

(** The pairs of the list at their storage keys. *)
Definition keyedLeaves (h : nat) (l : list (Felt * Felt)) : list (Key * Felt) :=
  map (fun kv => (FeltToKey h (fst kv), snd kv)) l.

Section Built.
Variable hash : Felt -> Felt -> Felt.
Variable hashPath : Felt -> Key -> Felt.

(** The trie states that arise from an empty trie over a storage that does
    not fail, by [Put], [Get] and [Root] calls that return ([fuel] above the
    height lets every descent run to its end). *)
Inductive built : Trie -> Prop :=
| built_new t :
    rootKey t = None -> nodes (storage t) = ∅ -> configured t -> noFaults t ->
    built t
| built_Put t fuel key value r t' :
    built t -> (height t < fuel)%nat ->
    Put hash hashPath fuel key value t = Some (r, t') -> built t'
| built_Get t key r t' :
    built t -> Get key t = Some (r, t') -> built t'
| built_Root t schedule fuel r t' :
    built t -> (height t < fuel)%nat ->
    Root hash hashPath schedule fuel t = Some (r, t') -> built t'.

End Built.

(** The tree that [Example.dirty3] holds: the keys 1, 5 and 7 at height 4,
    the inner values as the storage has them (the ones above the leaf of
    the key 5 are stale). *)
Module TreeExample.
Definition tree3 : tree :=
  TNode [false] 18235
    (TLeaf [false; false; false; true] 10)
    (TNode [false; true] 3597
       (TLeaf [false; true; false; true] 51)
       (TLeaf [false; true; true; true] 70)).
End TreeExample.

(** ** The contents of a trie *)

(** The key-value pairs after [Put] of [v] at the full-depth key [key]: a
    zero value removes the pair. *)
Definition leafUpdate (key : Key) (v : Felt) (m : gmap Key Felt) : gmap Key Felt :=
  if felt_IsZero v then delete key m else <[key := v]> m.

(** The value that the storage of [t] holds for the full-depth key [key]. *)
Definition leafValue (t : Trie) (key : Key) : option Felt :=
  Value <$> nodes (storage t) !! key.

(** Two tries hold the same leaves. *)
Definition sameLeaves (t1 t2 : Trie) : Prop :=
  height t1 = height t2 /\
  forall key : Key, length key = height t1 -> leafValue t1 key = leafValue t2 key.

(** ** The root-key slot *)

(** The root-key slot of the storage is in step with the trie: unless the
    root key is marked dirty, the slot holds it. *)
Definition slotSynced (t : Trie) : Prop :=
  rootKeyIsDirty t = false -> rootSlot (storage t) = rootKey t.

(** The operation log only grew from [t] to [t']. *)
Definition logGrows (t t' : Trie) : Prop := exists ops, opsSince t t' ops.

(** From [t] to [t'] the root-key slot of the storage was not written, and
    the root key changed only if it is now marked dirty. *)
Definition rootStep (t t' : Trie) : Prop :=
  rootSlot (storage t') = rootSlot (storage t) /\
  (rootKeyIsDirty t' = true \/
   (rootKey t' = rootKey t /\ rootKeyIsDirty t' = rootKeyIsDirty t)).

(** ** Descents *)

(** [l] is a descent towards [key] that starts at the key [cur]: the first
    node sits at [cur]; every node that has a successor is a proper prefix
    of [key], and its successor sits at the child that the next bit of
    [key] selects, which is not NIL. *)
Fixpoint descentFrom (key cur : Key) (l : list StorageNode) : Prop :=
  match l with
  | [] => True
  | a :: rest =>
      sn_key a = cur /\
      match rest with
      | [] => True
      | b :: _ =>
          isSubset key cur = true /\ (Key_Len cur < Key_Len key)%nat /\
          sn_key b =
            (if Key_IsBitSet key (u8_sub (u8_sub (Key_Len key) (Key_Len cur)) 1)
             then Right (sn_node a) else Left (sn_node a)) /\
          sn_key b <> NilKey /\
          descentFrom key (sn_key b) rest
      end
  end.

(** ** Temporary tries *)

(** [RunOnTempTriePedersen] and [RunOnTempTriePoseidon]: [do] runs on a new
    trie over a new in-memory storage, unless [newTrie] fails; the two
    differ in the hash function only, which the operations take as a
    parameter here. *)
Definition RunOnTempTrie (height : nat) (do : M unit) : option (res unit) :=
  match newTrie newMemStorage height with
  | (Err e, _) => Some (Err e)
  | (Ok trie, _) =>
      match do trie with
      | Some (r, _) => Some r
      | None => None
      end
  end.

(** ** Deleting the leaf at the end of a descent *)

(** The key of the other child of [parent], next to the child at [key]. *)
Definition siblingOf (parent : StorageNode) (key : Key) : Key :=
  if Key_Equal (Left (sn_node parent)) key
  then Right (sn_node parent) else Left (sn_node parent).

(** The node of [grandParent] with its link to [parentKey] replaced by
    [siblingKey]. *)
Definition relinked (grandParent : StorageNode) (parentKey siblingKey : Key) : Node :=
  if Key_Equal (Left (sn_node grandParent)) parentKey
  then Node_setLeft (sn_node grandParent) siblingKey
  else Node_setRight (sn_node grandParent) siblingKey.

(** The storage contents after [deleteLast] of the descent [ns]: the last
    node and its parent are removed, and the grandparent is put again with
    the sibling in the place of the parent. *)
Definition deletedStorage (ns : list StorageNode) (m : gmap Key Node) : gmap Key Node :=
  match last ns with
  | None => m
  | Some lst =>
      let m1 := delete (sn_key lst) m in
      match parentOf ns with
      | None => m1
      | Some parent =>
          let m2 := delete (sn_key parent) m1 in
          match grandParentOf ns with
          | None => m2
          | Some grandParent =>
              <[sn_key grandParent :=
                  relinked grandParent (sn_key parent) (siblingOf parent (sn_key lst))]> m2
          end
      end
  end.
(** * Properties *)

(** ** Generic facts on the monad *)

Lemma bind_Some {A B} (m : M A) (f : A -> M B) t r t' :
  bind m f t = Some (r, t') ->
  (exists a t1, m t = Some (Ok a, t1) /\ f a t1 = Some (r, t')) \/
  (exists e, m t = Some (Err e, t') /\ r = Err e).
Proof.
  unfold bind. destruct (m t) as [[[a|e] t1]|] eqn:E; intros H.
  - left. eauto.
  - right. inversion H; subst. eauto.
  - discriminate.
Qed.

Lemma newTrie_empty h :
  (h <= felt_Bits)%nat ->
  newTrie newMemStorage h =
  (Ok (Trie_withStorage (Example.emptyTrie h) (Storage_log OpRootKey newMemStorage)),
   Storage_log OpRootKey newMemStorage).
Proof.
  intros Hh. unfold newTrie.
  destruct (felt_Bits <? h)%nat eqn:E; [apply Nat.ltb_lt in E; lia|]. reflexivity.
Qed.

(** [maxKey] is [2^height - 1] up to height 251; at height 252 the field
    wraps around. *)
Lemma maxKey_pow2 h :
  (h <= 251)%nat ->
  felt_Sub (felt_Exp 2 (Z.of_nat h)) 1 = 2 ^ Z.of_nat h - 1.
Proof.
  intros Hh. unfold felt_Sub, felt_Exp.
  assert (Hp : 0 < 2 ^ Z.of_nat h <= 2 ^ 251).
  { split; [apply Z.pow_pos_nonneg; lia|apply Z.pow_le_mono_r; lia]. }
  assert (HP : 2 ^ 251 < felt_P) by (unfold felt_P; lia).
  rewrite (Z.mod_small (2 ^ Z.of_nat h)) by lia.
  apply Z.mod_small. lia.
Qed.

(** ** Keys out of range *)

Section Bounds.
Variable hash : Felt -> Felt -> Felt.
Variable hashPath : Felt -> Key -> Felt.

(** C3: for a key above [maxKey], [Put] and [PutWithProof] return the
    out-of-range error and leave the whole trie state as it was: the storage
    (contents, root slot and operation log alike), the dirty list, the root
    key and its dirty flag. *)
Theorem Put_out_of_range (fuel : nat) (t : Trie) (key value : Felt)
    (proof : list StorageNode) :
  maxKey t < key ->
  Put hash hashPath fuel key value t = Some (Err (ErrKeyOutOfRange key (height t)), t) /\
  PutWithProof hash hashPath fuel key value proof t
    = Some (Err (ErrKeyOutOfRange key (height t)), t).
Proof.
  intros Hgt. unfold Put, PutWithProof, putCommon, felt_Gt.
  destruct (Z.ltb_spec (maxKey t) key) as [_|Hle]; [|lia].
  split; reflexivity.
Qed.

End Bounds.

(** S5: height 4, [maxKey = 15], key 16. *)
Lemma Put_out_of_range_witness :
  maxKey (Example.emptyTrie 4) = 15 /\
  Put Example.hash Example.hashPath 10 16 1 (Example.emptyTrie 4)
    = Some (Err (ErrKeyOutOfRange 16 4), Example.emptyTrie 4) /\
  PutWithProof Example.hash Example.hashPath 10 16 1 [] (Example.emptyTrie 4)
    = Some (Err (ErrKeyOutOfRange 16 4), Example.emptyTrie 4).
Proof.
  split; [reflexivity|].
  apply (Put_out_of_range Example.hash Example.hashPath 10 (Example.emptyTrie 4) 16 1 []).
  vm_compute. reflexivity.
Defined.

(** ** Storage operations, seen from the trie *)

Lemma Trie_withStorage_id t : Trie_withStorage t (storage t) = t.
Proof. destruct t; reflexivity. Qed.

Lemma storageGet_eq k t :
  storageGet k t =
  Some (match Storage_fault (storage t) with
        | Some msg => Err (ErrStorage msg)
        | None => match nodes (storage t) !! k with
                  | Some n => Ok n
                  | None => Err ErrKeyNotFound
                  end
        end,
        Trie_withStorage t (Storage_log (OpGet k) (storage t))).
Proof.
  unfold storageGet, liftStorage, Storage_Get.
  destruct (Storage_fault (storage t)); [reflexivity|].
  destruct (nodes (storage t) !! k); reflexivity.
Qed.

Lemma storagePut_eq k n t :
  storagePut k n t =
  Some (match Storage_fault (storage t) with
        | Some msg => (Err (ErrStorage msg),
                       Trie_withStorage t (Storage_log (OpPut k n) (storage t)))
        | None => (Ok tt,
                   Trie_withStorage t
                     (mkStorage (<[k := n]> (nodes (storage t))) (rootSlot (storage t))
                                (OpPut k n :: oplog (storage t)) (faults (storage t))))
        end).
Proof.
  unfold storagePut, liftStorage, Storage_Put.
  destruct (Storage_fault (storage t)); reflexivity.
Qed.

Lemma storageDelete_eq k t :
  storageDelete k t =
  Some (match Storage_fault (storage t) with
        | Some msg => (Err (ErrStorage msg),
                       Trie_withStorage t (Storage_log (OpDelete k) (storage t)))
        | None => (Ok tt,
                   Trie_withStorage t
                     (mkStorage (delete k (nodes (storage t))) (rootSlot (storage t))
                                (OpDelete k :: oplog (storage t)) (faults (storage t))))
        end).
Proof.
  unfold storageDelete, liftStorage, Storage_Delete.
  destruct (Storage_fault (storage t)); reflexivity.
Qed.

Lemma readsOnly_refl t : readsOnly t t.
Proof.
  exists []. split; [constructor|]. destruct t as [? ? ? [] ? ?]; reflexivity.
Qed.

Lemma readsOnly_trans t1 t2 t3 : readsOnly t1 t2 -> readsOnly t2 t3 -> readsOnly t1 t3.
Proof.
  intros (o1 & F1 & ->) (o2 & F2 & ->).
  exists (o2 ++ o1). split; [apply Forall_app; auto|].
  destruct t1 as [? ? ? [] ? ?]; simpl. rewrite app_assoc. reflexivity.
Qed.

Lemma readsOnly_get k t : readsOnly t (Trie_withStorage t (Storage_log (OpGet k) (storage t))).
Proof.
  exists [OpGet k]. split; [repeat constructor|].
  destruct t as [? ? ? [] ? ?]; reflexivity.
Qed.

Lemma readsOnly_opsSince t t' :
  readsOnly t t' ->
  exists ops, Forall (fun op => isWrite op = false) ops /\ opsSince t t' ops.
Proof.
  intros (ops & Hall & ->). exists ops. split; [exact Hall|]. reflexivity.
Qed.

Lemma opsSince_unique t t' ops1 ops2 :
  opsSince t t' ops1 -> opsSince t t' ops2 -> ops1 = ops2.
Proof.
  unfold opsSince. intros H1 H2. rewrite H1 in H2. apply app_inv_tail in H2. exact H2.
Qed.

Lemma readsOnly_nodes t t' : readsOnly t t' -> nodes (storage t') = nodes (storage t).
Proof. intros (o & _ & ->). reflexivity. Qed.

Lemma readsOnly_fields t t' :
  readsOnly t t' ->
  height t' = height t /\ rootKey t' = rootKey t /\ maxKey t' = maxKey t /\
  dirtyNodes t' = dirtyNodes t /\ rootKeyIsDirty t' = rootKeyIsDirty t /\
  nodes (storage t') = nodes (storage t) /\ rootSlot (storage t') = rootSlot (storage t) /\
  faults (storage t') = faults (storage t).
Proof. intros (o & _ & ->). repeat split. Qed.

(** ** The read path *)

(** C7: [Get] performs exactly one storage operation, a read of the
    full-depth storage key, and changes nothing else.  A node found there
    gives its value, a key that is not found gives zero without an error,
    and a failing storage gives its error as it is. *)
Theorem Get_reads_leaf_only (t : Trie) (key : Felt) :
  Get key t =
  Some (match Storage_fault (storage t), nodes (storage t) !! FeltToKey (height t) key with
        | Some msg, _ => Err (ErrStorage msg)
        | None, Some n => Ok (Value n)
        | None, None => Ok felt_Zero
        end,
        Trie_withStorage t (Storage_log (OpGet (FeltToKey (height t) key)) (storage t))).
Proof.
  unfold Get, try. rewrite storageGet_eq.
  destruct (Storage_fault (storage t)); [reflexivity|].
  destruct (nodes (storage t) !! FeltToKey (height t) key); reflexivity.
Qed.

(** ** The commitment of an empty trie *)

Section EmptyRoot.
Variable hash : Felt -> Felt -> Felt.
Variable hashPath : Felt -> Key -> Felt.
Variable schedule : Key -> bool.

Lemma Root_no_rootKey (fuel : nat) (t : Trie) :
  rootKey t = None ->
  Root hash hashPath schedule fuel t =
  if rootKeyIsDirty t then
    match Storage_fault (storage t) with
    | Some msg =>
        Some (Err (ErrStorage msg),
              Trie_withStorage t (Storage_log OpDeleteRootKey (storage t)))
    | None =>
        Some (Ok felt_Zero,
              mkTrie (height t) None (maxKey t)
                (mkStorage (nodes (storage t)) None
                   (OpDeleteRootKey :: oplog (storage t)) (faults (storage t)))
                (dirtyNodes t) false)
    end
  else Some (Ok felt_Zero, t).
Proof.
  intros Hr. unfold Root, bind at 1.
  destruct (rootKeyIsDirty t) eqn:Hd.
  - rewrite Hr. unfold bind, storageDeleteRootKey, liftStorage, Storage_DeleteRootKey.
    destruct (Storage_fault (storage t)); simpl; [reflexivity|].
    rewrite Hr. reflexivity.
  - unfold ret. rewrite Hr. reflexivity.
Qed.

(** C6: a trie constructed over a storage without a root key answers
    [Root] with zero and does nothing else; and whenever [rootKey] is absent,
    [Root] first settles the root-key slot (deleting it when the root key is
    dirty) and then returns zero: only a failure of that deletion is
    returned instead. *)
Theorem Root_empty_is_zero (fuel : nat) :
  (forall st h t st',
      rootSlot st = None -> newTrie st h = (Ok t, st') ->
      Root hash hashPath schedule fuel t = Some (Ok felt_Zero, t)) /\
  (forall t,
      rootKey t = None -> rootKeyIsDirty t = false ->
      Root hash hashPath schedule fuel t = Some (Ok felt_Zero, t)) /\
  (forall t,
      rootKey t = None -> rootKeyIsDirty t = true -> Storage_fault (storage t) = None ->
      exists t',
        Root hash hashPath schedule fuel t = Some (Ok felt_Zero, t') /\
        rootKey t' = None /\ rootKeyIsDirty t' = false /\
        rootSlot (storage t') = None /\
        nodes (storage t') = nodes (storage t) /\
        dirtyNodes t' = dirtyNodes t /\
        opsSince t t' [OpDeleteRootKey]) /\
  (forall t msg,
      rootKey t = None -> rootKeyIsDirty t = true ->
      Storage_fault (storage t) = Some msg ->
      exists t', Root hash hashPath schedule fuel t = Some (Err (ErrStorage msg), t')).
Proof.
  repeat split.
  - intros st h t st' Hslot Hnew.
    assert (rootKey t = None /\ rootKeyIsDirty t = false) as [Hr Hd].
    { unfold newTrie, Storage_RootKey in Hnew. rewrite Hslot in Hnew.
      destruct (felt_Bits <? h)%nat; [discriminate|].
      destruct (Storage_fault st); inversion Hnew; subst; split; reflexivity. }
    rewrite Root_no_rootKey, Hd; auto.
  - intros t Hr Hd. rewrite Root_no_rootKey, Hd; auto.
  - intros t Hr Hd Hf. rewrite Root_no_rootKey, Hd, Hf by auto.
    eexists; split; [reflexivity|]. repeat split.
  - intros t msg Hr Hd Hf. rewrite Root_no_rootKey, Hd, Hf by auto. eauto.
Qed.

End EmptyRoot.

(** The empty in-memory trie, and the trie left by inserting and deleting
    one key (its root key is absent again, and dirty). *)
Lemma Root_empty_is_zero_witness :
  let t := Trie_withStorage (Example.emptyTrie 4) (Storage_log OpRootKey newMemStorage) in
  (newTrie newMemStorage 4 = (Ok t, storage t) /\
   Root Example.hash Example.hashPath Example.schedule 5 t = Some (Ok 0, t)) /\
  exists t',
    Root Example.hash Example.hashPath Example.schedule 5
      (Example.put 3 0 (Example.put 3 9 (Example.emptyTrie 4))) = Some (Ok 0, t') /\
    rootSlot (storage t') = None.
Proof.
  split.
  - split; [reflexivity|].
    eapply (proj1 (Root_empty_is_zero Example.hash Example.hashPath Example.schedule 5)
              newMemStorage 4%nat); reflexivity.
  - destruct (proj1 (proj2 (proj2 (Root_empty_is_zero Example.hash Example.hashPath
                      Example.schedule 5)))
                (Example.put 3 0 (Example.put 3 9 (Example.emptyTrie 4))))
      as (t' & H & _ & _ & Hs & _); [reflexivity..|].
    exists t'. split; [exact H|exact Hs].
Defined.

(** ** What the commitment pass leaves alone *)

Lemma storageOnly_ret {A} (a : A) : storageOnly (ret a).
Proof. intros t r t' H. inversion H; subst. symmetry; apply Trie_withStorage_id. Qed.

Lemma storageOnly_raise {A} e : storageOnly (@raise A e).
Proof. intros t r t' H. inversion H; subst. symmetry; apply Trie_withStorage_id. Qed.

Lemma storageOnly_abort {A} : storageOnly (@abort A).
Proof. intros t r t' H. discriminate. Qed.

Lemma storageOnly_trans t t1 t2 :
  t1 = Trie_withStorage t (storage t1) -> t2 = Trie_withStorage t1 (storage t2) ->
  t2 = Trie_withStorage t (storage t2).
Proof. intros H1 H2. rewrite H2, H1. reflexivity. Qed.

Lemma storageOnly_try {A B} (m : M A) (f : res A -> M B) :
  storageOnly m -> (forall r, storageOnly (f r)) -> storageOnly (try m f).
Proof.
  intros Hm Hf t r t' H. unfold try in H.
  destruct (m t) as [[r1 t1]|] eqn:E; [|discriminate].
  eapply storageOnly_trans; [eapply Hm; eauto|eapply Hf; eauto].
Qed.

Lemma storageOnly_bind {A B} (m : M A) (f : A -> M B) :
  storageOnly m -> (forall a, storageOnly (f a)) -> storageOnly (bind m f).
Proof.
  intros Hm Hf t r t' H. apply bind_Some in H as [(a & t1 & H1 & H2)|(e & H1 & _)].
  - eapply storageOnly_trans; [eapply Hm; eauto|eapply Hf; eauto].
  - eapply Hm; eauto.
Qed.

Lemma storageOnly_lift {A} (f : Storage -> res A * Storage) : storageOnly (liftStorage f).
Proof.
  intros t r t' H. unfold liftStorage in H. destruct (f (storage t)).
  inversion H; subst. reflexivity.
Qed.

Lemma storageOnly_state {A} (f : Trie -> M A) :
  (forall t0, storageOnly (f t0)) -> storageOnly (fun t => f t t).
Proof. intros Hf t r t' H. eapply Hf; eauto. Qed.

Section RootFrame.
Variable hash : Felt -> Felt -> Felt.
Variable hashPath : Felt -> Key -> Felt.
Variable schedule : Key -> bool.

Lemma storageOnly_childTask (rec : Key -> M Node) (b : bool) (k : Key) :
  (forall k, storageOnly (rec k)) ->
  storageOnly (if b then let* n := rec k in ret (Some n) else ret None).
Proof.
  intros Hrec. destruct b; [|apply storageOnly_ret].
  apply storageOnly_bind; [apply Hrec|intros; apply storageOnly_ret].
Qed.

Lemma storageOnly_serial rec root lp rp :
  (forall k, storageOnly (rec k)) ->
  storageOnly (updateChildTriesSerially rec root lp rp).
Proof.
  intros Hrec. unfold updateChildTriesSerially.
  apply storageOnly_bind; [apply storageOnly_childTask; auto|intros l].
  apply storageOnly_bind; [apply storageOnly_childTask; auto|intros r].
  apply storageOnly_ret.
Qed.

Lemma storageOnly_concurrent lf rec root lp rp :
  (forall k, storageOnly (rec k)) ->
  storageOnly (updateChildTriesConcurrently lf rec root lp rp).
Proof.
  intros Hrec. unfold updateChildTriesConcurrently.
  destruct lf; apply storageOnly_try; try (apply storageOnly_childTask; auto);
    intros r1; apply storageOnly_try; try (apply storageOnly_childTask; auto);
    intros r2.
  - destruct r1, r2; first [apply storageOnly_ret|apply storageOnly_raise].
  - destruct r2, r1; first [apply storageOnly_ret|apply storageOnly_raise].
Qed.

Lemma storageOnly_updateValueIfDirty fuel :
  forall key, storageOnly (updateValueIfDirty hash hashPath schedule fuel key).
Proof.
  induction fuel as [|fuel IH]; intros key; simpl; [apply storageOnly_abort|].
  apply storageOnly_bind; [apply storageOnly_lift|intros node].
  intros t r t' H. cbv beta in H.
  destruct (Key_Len key =? height t)%nat; [revert H; apply storageOnly_ret|].
  match type of H with (if negb ?b then _ else _) = _ => destruct b end;
    simpl in H; [|revert H; apply storageOnly_ret].
  revert H. apply storageOnly_bind.
  - destruct (Key_Len key <=? concurrencyMaxDepth)%nat;
      [apply storageOnly_concurrent|apply storageOnly_serial]; auto.
  - intros [l r0]. simpl.
    repeat match goal with
           | |- storageOnly (match ?x with _ => _ end) => destruct x
           end; try apply storageOnly_abort;
      (apply storageOnly_bind; [apply storageOnly_lift|intros; apply storageOnly_ret]).
Qed.


End RootFrame.

(** ** The descent from the root *)

Section Descent.
Variable hash : Felt -> Felt -> Felt.
Variable hashPath : Felt -> Key -> Felt.

Lemma storageGet_Ok k t n t' :
  storageGet k t = Some (Ok n, t') ->
  nodes (storage t) !! k = Some n /\ Storage_fault (storage t) = None /\
  t' = Trie_withStorage t (Storage_log (OpGet k) (storage t)).
Proof.
  rewrite storageGet_eq. intros H.
  destruct (Storage_fault (storage t)); [discriminate|].
  destruct (nodes (storage t) !! k); inversion H; subst; auto.
Qed.

Lemma storageGet_state k t r t' :
  storageGet k t = Some (r, t') ->
  t' = Trie_withStorage t (Storage_log (OpGet k) (storage t)).
Proof. rewrite storageGet_eq. intros H; inversion H; reflexivity. Qed.

Lemma storageGet_readsOnly k t r t' : storageGet k t = Some (r, t') -> readsOnly t t'.
Proof. intros H. apply storageGet_state in H as ->. apply readsOnly_get. Qed.

(** The descent only reads, and every node it lists was read from the
    storage at its key. *)
Lemma nodesFromRoot_loop_reads fuel key :
  forall cur acc t r t',
    nodesFromRoot_loop fuel key cur acc t = Some (r, t') ->
    readsOnly t t' /\
    forall l, r = Ok l -> exists ext, l = acc ++ ext /\ Forall (stored t) ext.
Proof.
  induction fuel as [|fuel IH]; intros cur acc t r t' H; destruct cur as [cur|];
    simpl in H; try discriminate.
  - inversion H; subst. split; [apply readsOnly_refl|].
    intros l [= <-]. exists []. rewrite app_nil_r. auto.
  - destruct ((0 <? length acc)%nat && (Key_Len cur =? 0)%nat).
    { inversion H; subst. split; [apply readsOnly_refl|].
      intros l [= <-]. exists []. rewrite app_nil_r. auto. }
    apply bind_Some in H as [(node & t1 & H1 & H2)|(e & H1 & ->)].
    + pose proof (storageGet_readsOnly _ _ _ _ H1) as Hro.
      apply storageGet_Ok in H1 as (Hn & _ & _).
      assert (Hst : stored t (mkStorageNode cur node)) by exact Hn.
      destruct ((Key_Len key <=? Key_Len cur)%nat || negb (isSubset key cur)).
      { inversion H2; subst. split; [exact Hro|].
        intros l [= <-]. exists [mkStorageNode cur node]. auto. }
      assert (Hgo : forall c,
        nodesFromRoot_loop fuel key (Some c) (acc ++ [mkStorageNode cur node]) t1
          = Some (r, t') ->
        readsOnly t t' /\
        forall l, r = Ok l -> exists ext, l = acc ++ ext /\ Forall (stored t) ext).
      { intros c Hc. apply IH in Hc as [Hro' Hl].
        split; [eapply readsOnly_trans; eauto|].
        intros l ->. destruct (Hl l eq_refl) as (ext & -> & Hext).
        exists (mkStorageNode cur node :: ext). rewrite <- app_assoc. split; [reflexivity|].
        constructor; [exact Hst|].
        eapply Forall_impl; [exact Hext|]. intros sn. unfold stored.
        rewrite (readsOnly_nodes _ _ Hro). auto. }
      destruct (Key_IsBitSet key _); eapply Hgo; eauto.
    + split; [eapply storageGet_readsOnly; eauto|]. discriminate.
  - inversion H; subst. split; [apply readsOnly_refl|].
    intros l [= <-]. exists []. rewrite app_nil_r. auto.
Qed.

Lemma nodesFromRoot_reads fuel key t r t' :
  nodesFromRoot fuel key t = Some (r, t') ->
  readsOnly t t' /\ forall l, r = Ok l -> Forall (stored t) l.
Proof.
  intros H. apply nodesFromRoot_loop_reads in H as [Hro Hl]. split; [exact Hro|].
  intros l ->. destruct (Hl l eq_refl) as (ext & -> & Hext). exact Hext.
Qed.

Lemma fromEnd_Some {A} (l : list A) i r t t' :
  fromEnd l i t = Some (r, t') ->
  exists x, r = Ok x /\ t' = t /\ l !! (length l - i)%nat = Some x.
Proof.
  unfold fromEnd. destruct (i <=? length l)%nat; [|discriminate].
  destruct (l !! (length l - i)%nat) eqn:E; [|discriminate].
  intros H; inversion H; subst. eauto.
Qed.

End Descent.

(** ** Relations that every step respects *)

Section Respects.
Variable R : Trie -> Trie -> Prop.
Hypothesis R_refl : forall t, R t t.
Hypothesis R_trans : forall t1 t2 t3, R t1 t2 -> R t2 t3 -> R t1 t3.

Lemma respects_ret {A} (a : A) : respects R (ret a).
Proof. intros t r t' [= <- <-]. apply R_refl. Qed.

Lemma respects_raise {A} e : respects R (@raise A e).
Proof. intros t r t' [= <- <-]. apply R_refl. Qed.

Lemma respects_abort {A} : respects R (@abort A).
Proof. intros t r t' [=]. Qed.

Lemma respects_bind {A B} (m : M A) (f : A -> M B) :
  respects R m -> (forall a, respects R (f a)) -> respects R (bind m f).
Proof.
  intros Hm Hf t r t' H. apply bind_Some in H as [(a & t1 & H1 & H2)|(e & H1 & _)].
  - eapply R_trans; [eapply Hm|eapply Hf]; eauto.
  - eapply Hm; eauto.
Qed.

Lemma respects_try {A B} (m : M A) (f : res A -> M B) :
  respects R m -> (forall r, respects R (f r)) -> respects R (try m f).
Proof.
  intros Hm Hf t r t' H. unfold try in H.
  destruct (m t) as [[r1 t1]|] eqn:E; [|discriminate].
  eapply R_trans; [eapply Hm|eapply Hf]; eauto.
Qed.

Lemma respects_fromEnd {A} (l : list A) i : respects R (fromEnd l i).
Proof. intros t r t' H. apply fromEnd_Some in H as (x & _ & -> & _). apply R_refl. Qed.

End Respects.

Lemma sameConfig_refl t : sameConfig t t.
Proof. repeat split. Qed.

Lemma sameConfig_trans t1 t2 t3 : sameConfig t1 t2 -> sameConfig t2 t3 -> sameConfig t1 t3.
Proof. unfold sameConfig. intros (-> & -> & ->) (-> & -> & ->). repeat split. Qed.

Lemma sameConfig_lift {A} (f : Storage -> res A * Storage) :
  (forall s, faults (snd (f s)) = faults s) -> respects sameConfig (liftStorage f).
Proof.
  intros Hf t r t' H. unfold liftStorage in H. specialize (Hf (storage t)).
  destruct (f (storage t)). inversion H; subst. repeat split. exact Hf.
Qed.

Lemma sameConfig_storageGet k : respects sameConfig (storageGet k).
Proof.
  apply sameConfig_lift. intros s. unfold Storage_Get.
  destruct (Storage_fault s); [|destruct (nodes s !! k)]; reflexivity.
Qed.

Lemma sameConfig_storagePut k n : respects sameConfig (storagePut k n).
Proof.
  apply sameConfig_lift. intros s. unfold Storage_Put.
  destruct (Storage_fault s); reflexivity.
Qed.

Lemma sameConfig_storageDelete k : respects sameConfig (storageDelete k).
Proof.
  apply sameConfig_lift. intros s. unfold Storage_Delete.
  destruct (Storage_fault s); reflexivity.
Qed.

Lemma sameConfig_appendDirty k : respects sameConfig (appendDirty k).
Proof. intros t r t' [= <- <-]. repeat split. Qed.

Lemma sameConfig_setRootKey k : respects sameConfig (setRootKey k).
Proof. intros t r t' [= <- <-]. repeat split. Qed.

Lemma sameConfig_readsOnly t t' : readsOnly t t' -> sameConfig t t'.
Proof. intros H. apply readsOnly_fields in H. unfold sameConfig. tauto. Qed.

Ltac config_step :=
  first
    [ apply (respects_bind sameConfig sameConfig_trans); [|intros ?]
    | apply (respects_try sameConfig sameConfig_trans); [|intros ?]
    | apply (respects_ret sameConfig sameConfig_refl)
    | apply (respects_raise sameConfig sameConfig_refl)
    | apply (respects_abort sameConfig)
    | apply (respects_fromEnd sameConfig sameConfig_refl)
    | apply sameConfig_storageGet | apply sameConfig_storagePut
    | apply sameConfig_storageDelete | apply sameConfig_appendDirty
    | apply sameConfig_setRootKey
    | match goal with
      | |- respects _ (if ?b then _ else _) => destruct b
      | |- respects _ (match ?x with _ => _ end) => destruct x
      | |- respects _ (let '(_, _) := ?x in _) => destruct x
      end ].

Section PutConfig.
Variable hash : Felt -> Felt -> Felt.
Variable hashPath : Felt -> Key -> Felt.

Lemma sameConfig_deleteLast nodes : respects sameConfig (deleteLast nodes).
Proof. unfold deleteLast. repeat config_step. Qed.

Lemma sameConfig_insertOrUpdateValue nodeKey node nodes sibling b :
  respects sameConfig (insertOrUpdateValue hash hashPath nodeKey node nodes sibling b).
Proof. unfold insertOrUpdateValue, GetNodeFromKey. repeat config_step. Qed.

Lemma sameConfig_nodesFromRoot fuel key : respects sameConfig (nodesFromRoot fuel key).
Proof.
  intros t r t' H. apply nodesFromRoot_reads in H as [H _].
  apply sameConfig_readsOnly, H.
Qed.

Lemma sameConfig_putCommon fuel key value proof :
  respects sameConfig (putCommon hash hashPath fuel key value proof).
Proof.
  intros t r t' H. unfold putCommon in H.
  destruct (felt_Gt key (maxKey t)); [inversion H; subst; apply sameConfig_refl|].
  revert H. generalize (FeltToKey (height t) key) as nodeKey. intros nodeKey.
  apply (respects_try sameConfig sameConfig_trans); [|intros ?];
  unfold updateLeaf, handleEmptyTrie, deleteExistingKey;
  repeat first [apply sameConfig_nodesFromRoot | apply sameConfig_deleteLast
               | apply sameConfig_insertOrUpdateValue | config_step].
Qed.

End PutConfig.

(** ** Reading back what was put *)

Lemma storagePut_Ok k n t t' :
  storagePut k n t = Some (Ok tt, t') ->
  Storage_fault (storage t) = None /\
  t' = Trie_withStorage t
         (mkStorage (<[k := n]> (nodes (storage t))) (rootSlot (storage t))
                    (OpPut k n :: oplog (storage t)) (faults (storage t))).
Proof.
  rewrite storagePut_eq. destruct (Storage_fault (storage t)); intros [= <-]; auto.
Qed.

Lemma storagePut_stored k n t t' :
  storagePut k n t = Some (Ok tt, t') -> nodes (storage t') !! k = Some n.
Proof. intros H. apply storagePut_Ok in H as [_ ->]. simpl. apply lookup_insert_eq. Qed.

Lemma Key_Equal_true a b : Key_Equal a b = true <-> a = b.
Proof. unfold Key_Equal. apply bool_decide_eq_true. Qed.

Lemma Key_Equal_false a b : Key_Equal a b = false <-> a <> b.
Proof. unfold Key_Equal. apply bool_decide_eq_false. Qed.

Lemma felt_IsZero_false v : felt_IsZero v = false <-> v <> 0.
Proof. unfold felt_IsZero. apply Z.eqb_neq. Qed.

Lemma felt_IsZero_true v : felt_IsZero v = true <-> v = 0.
Proof. unfold felt_IsZero. apply Z.eqb_eq. Qed.

Section PutGet.
Variable hash : Felt -> Felt -> Felt.
Variable hashPath : Felt -> Key -> Felt.

Lemma insertOrUpdateValue_stored nodeKey node ns sibling b t t' :
  insertOrUpdateValue hash hashPath nodeKey node ns sibling b t = Some (Ok tt, t') ->
  nodes (storage t') !! nodeKey = Some node.
Proof.
  unfold insertOrUpdateValue. intros H.
  apply bind_Some in H as [(a & t1 & _ & H)|(e & _ & [=])].
  eapply storagePut_stored; eauto.
Qed.

(** The three ways in which [updateLeaf] returns. *)
Lemma updateLeaf_cases nodeKey node value t r t' :
  updateLeaf nodeKey node value t = Some (r, t') ->
  (r = Ok None /\ readsOnly t t' /\
   (value <> 0 -> nodes (storage t) !! nodeKey = None)) \/
  (exists e, r = Err e) \/
  (exists existing,
     r = Ok (Some (Value existing)) /\ value <> 0 /\
     nodes (storage t) !! nodeKey = Some existing /\
     nodes (storage t') !! nodeKey = Some node).
Proof.
  unfold updateLeaf. destruct (felt_IsZero value) eqn:Hz; simpl.
  { intros [= <- <-]. left. split; [reflexivity|]. split; [apply readsOnly_refl|].
    apply felt_IsZero_true in Hz. congruence. }
  apply felt_IsZero_false in Hz.
  unfold try. destruct (storageGet nodeKey t) as [[r1 t1]|] eqn:E; [|discriminate].
  pose proof (storageGet_readsOnly _ _ _ _ E) as Hro.
  destruct r1 as [existing|e].
  - apply storageGet_Ok in E as (Hn & _ & _). intros H.
    apply bind_Some in H as [(a & t2 & H1 & H2)|(e & _ & ->)]; [|right; left; eauto].
    apply bind_Some in H2 as [(a' & t3 & H2 & H3)|(e & H2 & _)]; [|discriminate].
    inversion H2; subst. inversion H3; subst.
    right; right. exists existing. repeat split; auto.
    destruct a. apply storagePut_stored in H1. exact H1.
  - destruct e; intros [= <- <-]; try (right; left; eauto; fail).
    left. split; [reflexivity|]. split; [exact Hro|]. intros _.
    rewrite storageGet_eq in E. destruct (Storage_fault (storage t)); [discriminate|].
    destruct (nodes (storage t) !! nodeKey); [discriminate|reflexivity].
Qed.

Lemma putCommon_stored fuel key value proof t old t' :
  value <> 0 ->
  putCommon hash hashPath fuel key value proof t = Some (Ok old, t') ->
  nodes (storage t') !! FeltToKey (height t) key = Some (leafNode value).
Proof.
  intros Hv H. unfold putCommon in H.
  destruct (felt_Gt key (maxKey t)); [discriminate|].
  revert H. generalize (FeltToKey (height t) key) as nodeKey. intros nodeKey H.
  unfold try in H.
  destruct (updateLeaf nodeKey (leafNode value) value t) as [[r1 t1]|] eqn:E1;
    [|discriminate].
  apply updateLeaf_cases in E1
    as [(-> & Hro & Habs)|[(e & ->)|(ex & -> & _ & _ & Hst)]].
  2: discriminate.
  2: { inversion H; subst. exact Hst. }
  specialize (Habs Hv).
  apply bind_Some in H as [(l & t2 & H1 & H2)|(e & _ & [=])].
  apply nodesFromRoot_reads in H1 as [Hro2 Hl]. specialize (Hl l eq_refl).
  destruct (length l =? 0)%nat.
  { unfold handleEmptyTrie in H2. apply felt_IsZero_false in Hv. rewrite Hv in H2.
    apply bind_Some in H2 as [([] & t3 & H2 & H3)|(e & _ & [=])].
    apply storagePut_stored in H2. inversion H3; subst. exact H2. }
  apply bind_Some in H2 as [(sibling & t3 & H2 & H3)|(e & _ & [=])].
  apply fromEnd_Some in H2 as (x & [= <-] & -> & Hlast).
  assert (Hne : nodeKey <> sn_key sibling).
  { intros ->. rewrite Forall_forall in Hl.
    assert (Hin : sibling ∈ l) by (eapply list_elem_of_lookup_2; eauto).
    apply Hl in Hin. unfold stored in Hin.
    rewrite (readsOnly_nodes _ _ Hro) in Hin. congruence. }
  unfold try, deleteExistingKey in H3.
  apply Key_Equal_false in Hne. rewrite Hne in H3. simpl in H3.
  apply felt_IsZero_false in Hv. rewrite Hv in H3.
  match type of H3 with
  | (let '(_, _) := ?x in _) _ = _ => destruct x as [sib pp]
  end.
  apply bind_Some in H3 as [([] & t4 & H3 & H4)|(e & _ & [=])].
  inversion H4; subst. eapply insertOrUpdateValue_stored; eauto.
Qed.

(** C1, on every trie state: when [Put] of a value that is not zero
    succeeds, the storage holds the new leaf at the full-depth key, and a
    [Get] of that key whose storage read does not fail returns the value. *)
Lemma Put_then_Get_any (fuel : nat) (t : Trie) (key value : Felt) old t' :
  value <> 0 ->
  Put hash hashPath fuel key value t = Some (Ok old, t') ->
  nodes (storage t') !! FeltToKey (height t') key = Some (leafNode value) /\
  (Storage_fault (storage t') = None ->
   exists t'', Get key t' = Some (Ok value, t'')).
Proof.
  intros Hv H. unfold Put in H.
  pose proof (sameConfig_putCommon hash hashPath _ _ _ _ _ _ _ H) as (Hh & _).
  apply putCommon_stored in H; [|exact Hv]. rewrite Hh.
  split; [exact H|]. intros Hf. rewrite Get_reads_leaf_only, Hf, Hh, H.
  eexists. reflexivity.
Qed.

End PutGet.

(** ** Bit keys *)

Lemma isSubset_prefix (longer shorter : Key) :
  isSubset longer shorter = true <-> shorter `prefix_of` longer.
Proof.
  revert longer. induction shorter as [|b s IH]; intros [|c l]; simpl.
  - split; [intros _; apply prefix_nil|reflexivity].
  - split; [intros _; apply prefix_nil|reflexivity].
  - split; [discriminate|]. intros H. apply prefix_nil_inv in H. discriminate.
  - rewrite andb_true_iff, IH. split.
    + intros [Hb Hp]. apply eqb_prop in Hb as ->. apply prefix_cons, Hp.
    + intros H. pose proof (prefix_cons_inv_1 _ _ _ _ H) as ->.
      apply prefix_cons_inv_2 in H. split; [apply eqb_reflx|exact H].
Qed.

Lemma commonPrefix_l (a b : Key) : commonPrefix a b `prefix_of` a.
Proof.
  revert b. induction a as [|x a IH]; intros [|y b]; simpl; try apply prefix_nil.
  destruct (eqb x y); [apply prefix_cons, IH|apply prefix_nil].
Qed.

Lemma commonPrefix_r (a b : Key) : commonPrefix a b `prefix_of` b.
Proof.
  revert b. induction a as [|x a IH]; intros [|y b]; simpl; try apply prefix_nil.
  destruct (eqb x y) eqn:E; [|apply prefix_nil].
  apply eqb_prop in E as ->. apply prefix_cons, IH.
Qed.

Lemma commonPrefix_app (c a b : Key) :
  commonPrefix (c ++ a) (c ++ b) = c ++ commonPrefix a b.
Proof. induction c as [|x c IH]; simpl; [reflexivity|]. rewrite eqb_reflx, IH. reflexivity. Qed.

(** Two keys that part after [c] have [c] as their common prefix. *)
Lemma commonPrefix_diverge (c a b : Key) (x : bool) :
  (c ++ [x]) `prefix_of` a -> (c ++ [negb x]) `prefix_of` b -> commonPrefix a b = c.
Proof.
  intros [a' ->] [b' ->]. rewrite <- !app_assoc, commonPrefix_app. simpl.
  destruct x; simpl; apply app_nil_r.
Qed.

Lemma commonPrefix_greatest (c a b : Key) :
  c `prefix_of` a -> c `prefix_of` b -> c `prefix_of` commonPrefix a b.
Proof.
  intros [a' ->] [b' ->]. rewrite commonPrefix_app. apply prefix_app_r. reflexivity.
Qed.

(** Below their common prefix two keys differ, unless one is a prefix of
    the other. *)
Lemma commonPrefix_split (a b : Key) :
  commonPrefix a b = a \/ commonPrefix a b = b \/
  exists x, (commonPrefix a b ++ [x]) `prefix_of` a /\
            (commonPrefix a b ++ [negb x]) `prefix_of` b.
Proof.
  revert b. induction a as [|x a IH]; intros [|y b]; simpl; auto.
  destruct (eqb x y) eqn:E.
  - apply eqb_prop in E as ->.
    destruct (IH b) as [H|[H|(z & H1 & H2)]].
    + left. congruence.
    + right; left. congruence.
    + right; right. exists z. split; apply prefix_cons; assumption.
  - right; right. exists x. simpl. apply eqb_false_iff in E.
    split; [exists a; reflexivity|].
    replace (negb x) with y by (destruct x, y; simpl; congruence).
    exists b; reflexivity.
Qed.

Lemma u8_sub_small (a b : nat) : (b <= a)%nat -> (a <= 255)%nat -> u8_sub a b = (a - b)%nat.
Proof. intros H1 H2. unfold u8_sub. rewrite Z.mod_small by lia. lia. Qed.

Lemma nth_rev_bit (key : Key) (i : nat) (d : bool) :
  (i < length key)%nat -> nth (length key - i - 1) (rev key) d = nth i key d.
Proof.
  intros Hi. rewrite rev_nth by lia. f_equal. lia.
Qed.

(** The bit that selects the child below [k] is the bit of [key] that
    follows [k]. *)
Lemma branchBit_prefix (key k : Key) (b : bool) :
  (length key <= 255)%nat -> (k ++ [b]) `prefix_of` key -> branchBit key k = b.
Proof.
  intros Hlen [rest ->]. unfold branchBit, Key_IsBitSet, Key_Len.
  rewrite !length_app in *. simpl in *.
  rewrite (u8_sub_small (length k + 1 + length rest) (length k)) by lia.
  rewrite u8_sub_small by lia.
  replace (length k + 1 + length rest - length k - 1)%nat with (length (rev rest))
    by (rewrite length_rev; lia).
  rewrite !rev_app_distr. simpl.
  rewrite app_nth2 by lia. rewrite Nat.sub_diag. reflexivity.
Qed.

Lemma prefix_snoc_bit (k key : Key) :
  k `prefix_of` key -> (length k < length key)%nat ->
  exists b, (k ++ [b]) `prefix_of` key.
Proof.
  intros [rest ->] Hlen. rewrite length_app in Hlen.
  destruct rest as [|b rest]; [simpl in Hlen; lia|].
  exists b. exists rest. rewrite <- app_assoc. reflexivity.
Qed.

Lemma descends_true (key k : Key) :
  descends key k = true <-> k `prefix_of` key /\ (length k < length key)%nat.
Proof.
  unfold descends, Key_Len. rewrite negb_true_iff, orb_false_iff, negb_false_iff.
  rewrite isSubset_prefix, Nat.leb_gt. tauto.
Qed.

Lemma descends_branch (key k : Key) :
  (length key <= 255)%nat -> descends key k = true ->
  (k ++ [branchBit key k]) `prefix_of` key.
Proof.
  intros Hlen Hd. apply descends_true in Hd as [Hp Hl].
  destruct (prefix_snoc_bit _ _ Hp Hl) as [b Hb].
  rewrite (branchBit_prefix _ _ _ Hlen Hb). exact Hb.
Qed.

Lemma prefix_snoc_neq (k a : Key) (x : bool) :
  (k ++ [x]) `prefix_of` a -> (k ++ [negb x]) `prefix_of` a -> False.
Proof.
  intros [r1 ->] [r2 H]. rewrite <- !app_assoc in H. apply app_inv_head in H.
  simpl in H. destruct x; discriminate.
Qed.

Lemma prefix_snoc_length (k a : Key) (x : bool) :
  (k ++ [x]) `prefix_of` a -> (length k < length a)%nat.
Proof. intros H. apply prefix_length in H. rewrite length_app in H. simpl in H. lia. Qed.

Lemma prefix_snoc_weaken (k a : Key) (x : bool) : (k ++ [x]) `prefix_of` a -> k `prefix_of` a.
Proof. intros H. etrans; [|exact H]. apply prefix_app_r. reflexivity. Qed.

Lemma FeltToKey_length h f : length (FeltToKey h f) = h.
Proof. unfold FeltToKey. rewrite length_map, length_seq. reflexivity. Qed.

(** ** The tree and the storage contents that hold it *)

Lemma wf_key_length h s : wf h s -> (length (tkey s) <= h)%nat.
Proof.
  induction s as [k v|k val l IHl r IHr]; simpl.
  - intros ->. reflexivity.
  - intros (Hl & _ & Hwl & _). apply prefix_snoc_length in Hl. specialize (IHl Hwl). lia.
Qed.

Lemma wf_node_length h k val l r : wf h (TNode k val l r) -> (length k < h)%nat.
Proof.
  intros (Hl & _ & Hwl & _). apply prefix_snoc_length in Hl.
  apply wf_key_length in Hwl. lia.
Qed.

Lemma wf_depth h s : wf h s -> (length (tkey s) + tdepth s <= S h)%nat.
Proof.
  induction s as [k v|k val l IHl r IHr]; simpl.
  - intros ->. lia.
  - intros (Hl & Hr & Hwl & Hwr).
    apply prefix_snoc_length in Hl, Hr. specialize (IHl Hwl). specialize (IHr Hwr). lia.
Qed.

Lemma flatten_root s : flatten s !! tkey s = Some (tnode s).
Proof. destruct s; simpl; [apply lookup_singleton_eq|apply lookup_insert_eq]. Qed.

Lemma flatten_prefix h s k n : wf h s -> flatten s !! k = Some n -> tkey s `prefix_of` k.
Proof.
  revert k n. induction s as [k0 v|k0 val l IHl r IHr]; simpl; intros k n Hwf Hk.
  - apply lookup_singleton_Some in Hk as [-> _]. reflexivity.
  - destruct Hwf as (Hl & Hr & Hwl & Hwr).
    apply lookup_insert_Some in Hk as [[-> _]|[_ Hk]]; [reflexivity|].
    apply lookup_union_Some_raw in Hk as [Hk|[_ Hk]].
    + etrans; [|eapply IHl; eauto]. eapply prefix_snoc_weaken; eauto.
    + etrans; [|eapply IHr; eauto]. eapply prefix_snoc_weaken; eauto.
Qed.

Lemma flatten_below h s k c : wf h s -> c `prefix_of` tkey s ->
  is_Some (flatten s !! k) -> c `prefix_of` k.
Proof. intros Hwf Hc [n Hk]. etrans; [exact Hc|]. eapply flatten_prefix; eauto. Qed.

Lemma flatten_not_below h s k c x :
  wf h s -> (c ++ [x]) `prefix_of` tkey s -> ~ (c ++ [x]) `prefix_of` k ->
  flatten s !! k = None.
Proof.
  intros Hwf Hc Hn. destruct (flatten s !! k) eqn:E; [|reflexivity].
  exfalso. apply Hn. eapply flatten_below; eauto.
Qed.

Lemma flatten_other_side h s k c x :
  wf h s -> (c ++ [x]) `prefix_of` tkey s -> (c ++ [negb x]) `prefix_of` k ->
  flatten s !! k = None.
Proof.
  intros Hwf Hc Hk. eapply flatten_not_below; eauto.
  intros H. eapply prefix_snoc_neq; eauto.
Qed.

Lemma flatten_short h s k :
  wf h s -> (length k <= length (tkey s))%nat -> k <> tkey s -> flatten s !! k = None.
Proof.
  intros Hwf Hlen Hne. destruct (flatten s !! k) eqn:E; [|reflexivity].
  exfalso. apply Hne. eapply flatten_prefix in E; [|eauto].
  symmetry. apply prefix_length_eq; [exact E|exact Hlen].
Qed.

Lemma flatten_children_disjoint h k val l r :
  wf h (TNode k val l r) -> flatten l ##ₘ flatten r.
Proof.
  intros (Hl & Hr & Hwl & Hwr). apply map_disjoint_spec. intros i x y Hx Hy.
  eapply flatten_prefix in Hx; [|eauto]. eapply flatten_prefix in Hy; [|eauto].
  eapply (prefix_snoc_neq k i false); [etrans; eauto|etrans; eauto].
Qed.

Lemma flatten_children_fresh h k val l r :
  wf h (TNode k val l r) -> (flatten l ∪ flatten r) !! k = None.
Proof.
  intros (Hl & Hr & Hwl & Hwr). apply lookup_union_None. split.
  - eapply flatten_short; eauto.
    + apply prefix_snoc_length in Hl. lia.
    + intros ->. apply prefix_snoc_length in Hl. lia.
  - eapply flatten_short; eauto.
    + apply prefix_snoc_length in Hr. lia.
    + intros ->. apply prefix_snoc_length in Hr. lia.
Qed.

Lemma flatten_left_sub h k val l r :
  wf h (TNode k val l r) -> flatten l ⊆ flatten (TNode k val l r).
Proof.
  intros Hwf. simpl. etrans; [apply map_union_subseteq_l|].
  apply insert_subseteq. eapply flatten_children_fresh; eauto.
Qed.

Lemma flatten_right_sub h k val l r :
  wf h (TNode k val l r) -> flatten r ⊆ flatten (TNode k val l r).
Proof.
  intros Hwf. simpl. etrans; [apply map_union_subseteq_r|].
  - eapply flatten_children_disjoint; eauto.
  - apply insert_subseteq. eapply flatten_children_fresh; eauto.
Qed.

Lemma wf_child_key_nonempty h k val l r :
  wf h (TNode k val l r) -> tkey l <> [] /\ tkey r <> [].
Proof.
  intros (Hl & Hr & _). apply prefix_snoc_length in Hl, Hr.
  split; intros E; rewrite E in *; simpl in *; lia.
Qed.

(** The leaves are the nodes at full depth. *)
Lemma flatten_leaves h s key :
  wf h s -> length key = h -> flatten s !! key = leafNode <$> leaves s !! key.
Proof.
  intros Hwf Hlen. induction s as [k0 v|k0 val l IHl r IHr]; simpl.
  - destruct (decide (k0 = key)) as [->|Hne].
    + rewrite !lookup_singleton_eq. reflexivity.
    + rewrite !lookup_singleton_ne by exact Hne. reflexivity.
  - pose proof (wf_node_length _ _ _ _ _ Hwf) as Hk0.
    destruct Hwf as (Hl & Hr & Hwl & Hwr).
    rewrite lookup_insert_ne by (intros ->; lia).
    rewrite !lookup_union, IHl, IHr by assumption.
    destruct (leaves l !! key), (leaves r !! key); reflexivity.
Qed.

Lemma leaves_prefix h s k v : wf h s -> leaves s !! k = Some v ->
  tkey s `prefix_of` k /\ length k = h.
Proof.
  revert k v. induction s as [k0 v0|k0 val l IHl r IHr]; simpl; intros k v Hwf Hk.
  - apply lookup_singleton_Some in Hk as [-> _]. split; [reflexivity|exact Hwf].
  - destruct Hwf as (Hl & Hr & Hwl & Hwr).
    apply lookup_union_Some_raw in Hk as [Hk|[_ Hk]].
    + destruct (IHl _ _ Hwl Hk) as [Hp Hlen]. split; [|exact Hlen].
      etrans; [|exact Hp]. eapply prefix_snoc_weaken; eauto.
    + destruct (IHr _ _ Hwr Hk) as [Hp Hlen]. split; [|exact Hlen].
      etrans; [|exact Hp]. eapply prefix_snoc_weaken; eauto.
Qed.

Lemma leaves_nonempty s : exists k v, leaves s !! k = Some v.
Proof.
  induction s as [k0 v0|k0 val l [k [v IHl]] r _]; simpl.
  - exists k0, v0. apply lookup_singleton_eq.
  - exists k, v. apply lookup_union_Some_raw. left. exact IHl.
Qed.

(** ** The descent on a well-formed trie *)

Lemma noFaults_fault t : noFaults t -> Storage_fault (storage t) = None.
Proof. intros H. apply H. Qed.

Lemma noFaults_sameConfig t t' : sameConfig t t' -> noFaults t -> noFaults t'.
Proof. intros (_ & _ & Hf) H n. rewrite Hf. apply H. Qed.

Lemma noFaults_readsOnly t t' : readsOnly t t' -> noFaults t -> noFaults t'.
Proof. intros H. apply noFaults_sameConfig, sameConfig_readsOnly, H. Qed.

Lemma storageGet_found k n t :
  noFaults t -> nodes (storage t) !! k = Some n ->
  storageGet k t = Some (Ok n, Trie_withStorage t (Storage_log (OpGet k) (storage t))).
Proof. intros Hf Hk. rewrite storageGet_eq, (noFaults_fault _ Hf), Hk. reflexivity. Qed.

Lemma nodesFromRoot_loop_tree (key : Key) (s : tree) :
  forall fuel acc t,
    noFaults t -> flatten s ⊆ nodes (storage t) -> wf (length key) s ->
    (length key <= 255)%nat -> (acc = [] \/ tkey s <> []) ->
    (tdepth s <= fuel)%nat ->
    exists t',
      nodesFromRoot_loop fuel key (Some (tkey s)) acc t
        = Some (Ok (acc ++ map tsn (tpath key s)), t') /\
      readsOnly t t'.
Proof.
  induction s as [k v|k val l IHl r IHr]; intros fuel acc t Hnf Hsub Hwf Hlen Hacc Hfuel;
    (destruct fuel as [|fuel]; [simpl in Hfuel; lia|]).
  - simpl tkey in *. simpl.
    assert ((0 <? length acc)%nat && (Key_Len k =? 0)%nat = false) as ->.
    { destruct Hacc as [->|Hk]; [reflexivity|].
      destruct k; [congruence|]. apply andb_false_r. }
    unfold bind. rewrite (storageGet_found k (leafNode v)); [|exact Hnf|].
    2: { eapply lookup_weaken; [|exact Hsub]. apply lookup_singleton_eq. }
    simpl in Hwf. unfold Key_Len. rewrite Hwf, Nat.leb_refl. simpl.
    eexists. split; [reflexivity|apply readsOnly_get].
  - simpl tkey in *. simpl nodesFromRoot_loop.
    assert ((0 <? length acc)%nat && (Key_Len k =? 0)%nat = false) as ->.
    { destruct Hacc as [->|Hk]; [reflexivity|].
      destruct k; [congruence|]. apply andb_false_r. }
    unfold bind.
    rewrite (storageGet_found k (tnode (TNode k val l r))); [|exact Hnf|].
    2: { eapply lookup_weaken; [|exact Hsub]. apply (flatten_root (TNode k val l r)). }
    simpl tpath.
    replace ((Key_Len key <=? Key_Len k)%nat || negb (isSubset key k))
      with (negb (descends key k))
      by (unfold descends; rewrite negb_involutive; reflexivity).
    fold (branchBit key k).
    destruct (descends key k) eqn:Hd; cbn [negb].
    2: { eexists. split; [reflexivity|apply readsOnly_get]. }
    set (t1 := Trie_withStorage t (Storage_log (OpGet k) (storage t))).
    assert (Hnf1 : noFaults t1) by (eapply noFaults_readsOnly; [apply readsOnly_get|eauto]).
    pose proof (wf_child_key_nonempty _ _ _ _ _ Hwf) as [Hln Hrn].
    pose proof (flatten_left_sub _ _ _ _ _ Hwf) as Hls.
    pose proof (flatten_right_sub _ _ _ _ _ Hwf) as Hrs.
    destruct Hwf as (Hl & Hr & Hwl & Hwr). simpl in Hfuel.
    destruct (branchBit key k); cbn [tnode Right Left].
    + destruct (IHr fuel (acc ++ [mkStorageNode k (mkNode val (tkey l) (tkey r) None None)]) t1)
        as (t' & -> & Hro); auto; try lia.
      { etrans; [exact Hrs|exact Hsub]. }
      exists t'. split.
      * f_equal. f_equal. f_equal. rewrite <- app_assoc. reflexivity.
      * eapply readsOnly_trans; [apply readsOnly_get|exact Hro].
    + destruct (IHl fuel (acc ++ [mkStorageNode k (mkNode val (tkey l) (tkey r) None None)]) t1)
        as (t' & -> & Hro); auto; try lia.
      { etrans; [exact Hls|exact Hsub]. }
      exists t'. split.
      * f_equal. f_equal. f_equal. rewrite <- app_assoc. reflexivity.
      * eapply readsOnly_trans; [apply readsOnly_get|exact Hro].
Qed.

(** ** Insertion, on the tree *)

Lemma tpath_head key s : exists tl, tpath key s = s :: tl.
Proof.
  destruct s as [k v|k val l r]; simpl; [eauto|].
  destruct (descends key k); eauto.
Qed.

Lemma tpath_last key s : exists sib, last (tpath key s) = Some sib.
Proof.
  destruct (tpath_head key s) as [tl ->].
  destruct (last (s :: tl)) eqn:E; [eauto|].
  apply last_None in E. discriminate.
Qed.

Lemma tpath_below h key s x :
  wf h s -> x ∈ tpath key s -> tkey s `prefix_of` tkey x.
Proof.
  induction s as [k v|k val l IHl r IHr]; simpl; intros Hwf Hx.
  - apply list_elem_of_singleton in Hx as ->. reflexivity.
  - destruct Hwf as (Hl & Hr & Hwl & Hwr).
    destruct (descends key k).
    + apply elem_of_cons in Hx as [->|Hx]; [reflexivity|].
      destruct (branchBit key k).
      * etrans; [|apply IHr; auto]. eapply prefix_snoc_weaken; eauto.
      * etrans; [|apply IHl; auto]. eapply prefix_snoc_weaken; eauto.
    + apply list_elem_of_singleton in Hx as ->. reflexivity.
Qed.

Lemma leaves_union_None (l r : tree) key :
  (leaves l ∪ leaves r) !! key = None -> leaves l !! key = None /\ leaves r !! key = None.
Proof. apply lookup_union_None. Qed.

(** Where the descent towards an absent key ends, the key and the node
    part ways below their common prefix. *)
Lemma tpath_last_diverge h key s sib :
  wf h s -> length key = h -> leaves s !! key = None ->
  last (tpath key s) = Some sib ->
  exists x, (commonPrefix key (tkey sib) ++ [x]) `prefix_of` key /\
            (commonPrefix key (tkey sib) ++ [negb x]) `prefix_of` tkey sib.
Proof.
  intros Hwf Hlen. revert sib.
  induction s as [k v|k val l IHl r IHr]; simpl; intros sib Habs Hlast.
  - injection Hlast as <-. simpl.
    assert (Hne : k <> key).
    { intros ->. rewrite lookup_singleton_eq in Habs. discriminate. }
    simpl in Hwf.
    destruct (commonPrefix_split key k) as [E|[E|H]]; [| |exact H]; exfalso; apply Hne.
    + pose proof (commonPrefix_r key k) as Hp. rewrite E in Hp.
      symmetry. apply prefix_length_eq; [exact Hp|lia].
    + pose proof (commonPrefix_l key k) as Hp. rewrite E in Hp.
      apply prefix_length_eq; [exact Hp|lia].
  - pose proof (wf_node_length _ _ _ _ _ Hwf) as Hk.
    apply leaves_union_None in Habs as [Hal Har].
    destruct Hwf as (Hl & Hr & Hwl & Hwr).
    destruct (descends key k) eqn:Hd.
    + destruct (branchBit key k).
      * destruct (tpath_head key r) as [tl E]. rewrite E in *.
        apply IHr; auto.
      * destruct (tpath_head key l) as [tl E]. rewrite E in *.
        apply IHl; auto.
    + injection Hlast as <-. simpl.
      assert (Hnp : ~ k `prefix_of` key).
      { intros Hp. assert (descends key k = true) by (apply descends_true; split; [auto|lia]).
        congruence. }
      destruct (commonPrefix_split key k) as [E|[E|H]]; [| |exact H]; exfalso.
      * pose proof (commonPrefix_r key k) as Hp. rewrite E in Hp.
        apply prefix_length in Hp. lia.
      * pose proof (commonPrefix_l key k) as Hp. rewrite E in Hp. auto.
Qed.

Lemma parentOf_elem {A} (l : list A) p : parentOf l = Some p -> p ∈ l.
Proof.
  induction l as [|x tl IH]; simpl; [discriminate|].
  destruct tl as [|y [|z tl']].
  - discriminate.
  - intros [= ->]. apply list_elem_of_here.
  - intros H. apply list_elem_of_further, IH, H.
Qed.

Lemma grandParentOf_elem {A} (l : list A) p : grandParentOf l = Some p -> p ∈ l.
Proof.
  induction l as [|x tl IH]; simpl; [discriminate|].
  destruct tl as [|y [|z [|w tl']]].
  - discriminate.
  - simpl. discriminate.
  - intros [= ->]. apply list_elem_of_here.
  - intros H. apply list_elem_of_further, IH, H.
Qed.

Lemma last_elem {A} (l : list A) x : last l = Some x -> x ∈ l.
Proof. intros H. apply last_Some in H as [l' ->]. apply elem_of_app. right. apply list_elem_of_here. Qed.

Lemma Key_Equal_children h k val l r :
  wf h (TNode k val l r) -> Key_Equal (tkey l) (tkey r) = false.
Proof.
  intros (Hl & Hr & _). apply Key_Equal_false. intros E. rewrite E in Hl.
  eapply (prefix_snoc_neq k (tkey r) false); eauto.
Qed.

(** Equalities between maps built by insertions, decided key by key. *)
Ltac insert_solver :=
  apply map_eq; intros ?i; rewrite ?lookup_insert;
  repeat case_decide; subst; first [reflexivity|congruence].

Section Insert.
Variable hash : Felt -> Felt -> Felt.
Variable hashPath : Felt -> Key -> Felt.

Abbreviation tbranch := (tbranch hash hashPath).
Abbreviation tinsert := (tinsert hash hashPath).
Abbreviation putNodes := (putNodes hash hashPath).

Lemma tkey_tbranch key v s : tkey (tbranch key v s) = commonPrefix key (tkey s).
Proof. unfold tbranch. destruct (branchBit key _); reflexivity. Qed.

Lemma wf_tbranch h key v s x :
  wf h s -> length key = h -> (h <= 255)%nat ->
  (commonPrefix key (tkey s) ++ [x]) `prefix_of` key ->
  (commonPrefix key (tkey s) ++ [negb x]) `prefix_of` tkey s ->
  wf h (tbranch key v s).
Proof.
  intros Hwf Hlen Hh Hk Hs. unfold tbranch.
  rewrite (branchBit_prefix _ _ x) by (auto; lia).
  destruct x; simpl in *; auto.
Qed.

Lemma leaves_tbranch h key v s :
  wf h s -> leaves s !! key = None ->
  leaves (tbranch key v s) = <[ key := v ]> (leaves s).
Proof.
  intros Hwf Habs. unfold tbranch. destruct (branchBit key _); simpl.
  - symmetry. apply insert_union_singleton_r. exact Habs.
  - symmetry. apply insert_union_singleton_l.
Qed.

Lemma flatten_tbranch key v s :
  flatten s !! key = None -> commonPrefix key (tkey s) <> key ->
  flatten (tbranch key v s)
  = <[ key := leafNode v ]>
      (<[ commonPrefix key (tkey s) := tnode (tbranch key v s) ]> (flatten s)).
Proof.
  intros Habs Hne. unfold tbranch. destruct (branchBit key _); simpl.
  - rewrite <- insert_union_singleton_r by exact Habs.
    apply insert_insert_ne. exact Hne.
  - rewrite <- insert_union_singleton_l.
    apply insert_insert_ne. exact Hne.
Qed.

(** The storage contents of the tree after an insertion are what the
    code writes: the new leaf, the new branching node, the relinked parent. *)
Lemma flatten_tinsert h key v s :
  wf h s -> length key = h -> (h <= 255)%nat -> leaves s !! key = None ->
  flatten (tinsert key v s) = putNodes key v (tpath key s) (flatten s) /\
  tkey (tinsert key v s)
  = match tpath key s with [_] => commonPrefix key (tkey s) | _ => tkey s end.
Proof.
  intros Hwf Hlen Hh. induction s as [k0 v0|k val l IHl r IHr]; intros Habs.
  - destruct (tpath_last_diverge _ _ _ _ Hwf Hlen Habs eq_refl) as (x & Hx & _).
    simpl in Hx.
    assert (Hne : k0 <> key).
    { intros ->. simpl in Habs. rewrite lookup_singleton_eq in Habs. discriminate. }
    simpl. assert (Key_Equal key k0 = false) as -> by (apply Key_Equal_false; congruence).
    unfold putNodes. simpl. split; [|apply tkey_tbranch].
    apply flatten_tbranch.
    + simpl. apply lookup_singleton_ne. exact Hne.
    + intros E. simpl in E. rewrite E in Hx. apply prefix_snoc_length in Hx. lia.
  - pose proof (flatten_leaves _ _ _ Hwf Hlen) as Hfl. rewrite Habs in Hfl.
    pose proof (Key_Equal_children _ _ _ _ _ Hwf) as Hlr.
    simpl in Habs. apply leaves_union_None in Habs as [Hal Har].
    simpl tinsert. simpl tpath. destruct (descends key k) eqn:Hd.
    2: { assert (Hlast : last (tpath key (TNode k val l r)) = Some (TNode k val l r))
           by (simpl; rewrite Hd; reflexivity).
         assert (Habs' : leaves (TNode k val l r) !! key = None)
           by (simpl; apply lookup_union_None; auto).
         destruct (tpath_last_diverge _ _ _ _ Hwf Hlen Habs' Hlast) as (x & Hx & _).
         unfold putNodes. simpl last. simpl parentOf. cbv iota.
         split; [|apply tkey_tbranch]. apply flatten_tbranch; [exact Hfl|].
         intros E. rewrite E in Hx. apply prefix_snoc_length in Hx. lia. }
    pose proof (descends_branch key k ltac:(lia) Hd) as Hkb.
    pose proof Hwf as (Hl & Hr & Hwl & Hwr).
    specialize (IHl Hwl Hal). specialize (IHr Hwr Har).
    destruct (branchBit key k) eqn:Hb.
    + (* the descent goes right *)
      destruct IHr as [IHf IHk].
      destruct (tpath_head key r) as [tl Etl]. rewrite Etl in *.
      destruct (tpath_last key r) as [sib Hsib]. rewrite Etl in Hsib.
      assert (Hsibk : (k ++ [true]) `prefix_of` tkey sib).
      { etrans; [exact Hr|]. eapply tpath_below; [exact Hwr|].
        rewrite Etl. apply last_elem, Hsib. }
      assert (Hc : (k ++ [true]) `prefix_of` commonPrefix key (tkey sib))
        by (apply commonPrefix_greatest; auto).
      assert (Hnone : forall i, (k ++ [true]) `prefix_of` i -> flatten l !! i = None).
      { intros i Hi. eapply (flatten_other_side _ l i k false); eauto. }
      assert (Hnek : forall i, (k ++ [true]) `prefix_of` i -> k <> i).
      { intros i Hi ->. apply prefix_snoc_length in Hi. lia. }
      split.
      2: { simpl. destruct tl; reflexivity. }
      simpl flatten. rewrite IHf. unfold putNodes.
      replace (last (TNode k val l r :: r :: tl)) with (last (r :: tl)) by reflexivity.
      rewrite Hsib.
      destruct tl as [|y tl'].
      * (* the right child is the sibling *)
        injection Hsib as <-. simpl parentOf. cbv iota.
        rewrite IHk. unfold replaceLinkWithNewParent. simpl.
        rewrite Hlr. unfold Node_setRight. simpl.
        rewrite <- !insert_union_r by (apply Hnone; auto).
        pose proof (Hnek _ Hc); pose proof (Hnek _ Hkb);
        try pose proof (Hnek _ Hpk); insert_solver.
      * replace (parentOf (TNode k val l r :: r :: y :: tl')) with (parentOf (r :: y :: tl'))
          by reflexivity.
        rewrite IHk.
        destruct (parentOf (r :: y :: tl')) as [par|] eqn:Hpar.
        -- assert (Hpk : (k ++ [true]) `prefix_of` tkey par).
           { etrans; [exact Hr|]. eapply tpath_below; [exact Hwr|].
             rewrite Etl. apply parentOf_elem, Hpar. }
           rewrite <- !insert_union_r by (apply Hnone; auto).
           pose proof (Hnek _ Hc); pose proof (Hnek _ Hkb);
        try pose proof (Hnek _ Hpk); insert_solver.
        -- rewrite <- !insert_union_r by (apply Hnone; auto).
           rewrite (insert_insert_ne _ k key) by (apply Hnek; auto).
           rewrite (insert_insert_ne _ k (commonPrefix key (tkey sib))) by (apply Hnek; auto).
           reflexivity.
    + (* the descent goes left *)
      destruct IHl as [IHf IHk].
      destruct (tpath_head key l) as [tl Etl]. rewrite Etl in *.
      destruct (tpath_last key l) as [sib Hsib]. rewrite Etl in Hsib.
      assert (Hsibk : (k ++ [false]) `prefix_of` tkey sib).
      { etrans; [exact Hl|]. eapply tpath_below; [exact Hwl|].
        rewrite Etl. apply last_elem, Hsib. }
      assert (Hc : (k ++ [false]) `prefix_of` commonPrefix key (tkey sib))
        by (apply commonPrefix_greatest; auto).
      assert (Hnek : forall i, (k ++ [false]) `prefix_of` i -> k <> i).
      { intros i Hi ->. apply prefix_snoc_length in Hi. lia. }
      split.
      2: { simpl. destruct tl; reflexivity. }
      simpl flatten. rewrite IHf. unfold putNodes.
      replace (last (TNode k val l r :: l :: tl)) with (last (l :: tl)) by reflexivity.
      rewrite Hsib.
      destruct tl as [|y tl'].
      * injection Hsib as <-. simpl parentOf. cbv iota.
        rewrite IHk. unfold replaceLinkWithNewParent. simpl.
        assert (Key_Equal (tkey l) (tkey l) = true) as -> by (apply Key_Equal_true; reflexivity).
        unfold Node_setLeft. simpl.
        rewrite <- !insert_union_l.
        pose proof (Hnek _ Hc); pose proof (Hnek _ Hkb);
        try pose proof (Hnek _ Hpk); insert_solver.
      * replace (parentOf (TNode k val l r :: l :: y :: tl')) with (parentOf (l :: y :: tl'))
          by reflexivity.
        rewrite IHk.
        destruct (parentOf (l :: y :: tl')) as [par|] eqn:Hpar.
        -- assert (Hpk : (k ++ [false]) `prefix_of` tkey par).
           { etrans; [exact Hl|]. eapply tpath_below; [exact Hwl|].
             rewrite Etl. apply parentOf_elem, Hpar. }
           rewrite <- !insert_union_l.
           pose proof (Hnek _ Hc); pose proof (Hnek _ Hkb);
        try pose proof (Hnek _ Hpk); insert_solver.
        -- rewrite <- !insert_union_l.
           rewrite (insert_insert_ne _ k key) by (apply Hnek; auto).
           rewrite (insert_insert_ne _ k (commonPrefix key (tkey sib))) by (apply Hnek; auto).
           reflexivity.
Qed.

End Insert.

(** ** Running the write path on a well-formed trie *)

Lemma bind_ok {A B} (m : M A) (f : A -> M B) t a t1 :
  m t = Some (Ok a, t1) -> bind m f t = f a t1.
Proof. intros H. unfold bind. rewrite H. reflexivity. Qed.

Lemma try_ok {A B} (m : M A) (f : res A -> M B) t r t1 :
  m t = Some (r, t1) -> try m f t = f r t1.
Proof. intros H. unfold try. rewrite H. reflexivity. Qed.

Lemma storagePut_nf k n t : noFaults t -> storagePut k n t = Some (Ok tt, Trie_put k n t).
Proof. intros H. rewrite storagePut_eq, (noFaults_fault _ H). reflexivity. Qed.

Lemma storageDelete_nf k t : noFaults t -> storageDelete k t = Some (Ok tt, Trie_delete k t).
Proof. intros H. rewrite storageDelete_eq, (noFaults_fault _ H). reflexivity. Qed.

Lemma storageGet_nf k t :
  noFaults t ->
  storageGet k t = Some (match nodes (storage t) !! k with
                         | Some n => Ok n
                         | None => Err ErrKeyNotFound
                         end, Trie_read k t).
Proof. intros H. rewrite storageGet_eq, (noFaults_fault _ H). reflexivity. Qed.

Lemma noFaults_put k n t : noFaults t -> noFaults (Trie_put k n t).
Proof. intros H i. apply H. Qed.

Lemma noFaults_delete k t : noFaults t -> noFaults (Trie_delete k t).
Proof. intros H i. apply H. Qed.

Lemma noFaults_read k t : noFaults t -> noFaults (Trie_read k t).
Proof. intros H i. apply H. Qed.

Lemma noFaults_fields t t' :
  faults (storage t') = faults (storage t) -> noFaults t -> noFaults t'.
Proof. intros E H i. rewrite E. apply H. Qed.

Lemma fromEnd_last {A} (l : list A) x t :
  last l = Some x -> fromEnd l 1 t = Some (Ok x, t).
Proof.
  intros H. apply last_Some in H as [l' ->]. unfold fromEnd.
  rewrite length_app. change (length [x]) with 1%nat.
  destruct (1 <=? length l' + 1)%nat eqn:E; [|apply Nat.leb_gt in E; lia].
  rewrite (list_lookup_middle l' [] x) by lia. reflexivity.
Qed.

Lemma parentOf_snoc {A} (l : list A) x y : parentOf (l ++ [x; y]) = Some x.
Proof.
  induction l as [|a l IH]; simpl; [reflexivity|].
  rewrite IH. destruct l as [|b [|c l']]; simpl; reflexivity.
Qed.

Lemma grandParentOf_snoc {A} (l : list A) x y z : grandParentOf (l ++ [x; y; z]) = Some x.
Proof.
  induction l as [|a l IH]; simpl; [reflexivity|].
  rewrite IH. destruct l as [|b [|c [|d l']]]; simpl; reflexivity.
Qed.

Lemma snoc_cases {A} (l : list A) : l = [] \/ exists l' x, l = l' ++ [x].
Proof.
  induction l as [|a l IH] using rev_ind; [left; reflexivity|right; eauto].
Qed.

Lemma parentOf_Some {A} (l : list A) :
  (1 <? length l)%nat = true -> exists l' x y, l = l' ++ [x; y] /\ parentOf l = Some x.
Proof.
  intros H. apply Nat.ltb_lt in H.
  destruct (snoc_cases l) as [->|(l1 & y & ->)]; [simpl in H; lia|].
  destruct (snoc_cases l1) as [->|(l2 & x & ->)]; [simpl in H; lia|].
  exists l2, x, y. rewrite <- app_assoc. simpl. split; [reflexivity|apply parentOf_snoc].
Qed.

Lemma parentOf_None {A} (l : list A) :
  (1 <? length l)%nat = false -> parentOf l = None.
Proof.
  intros H. apply Nat.ltb_ge in H.
  destruct l as [|a [|b l']]; simpl in *; try reflexivity. lia.
Qed.

Lemma fromEnd_parent {A} (l : list A) x t :
  parentOf l = Some x -> fromEnd l 2 t = Some (Ok x, t).
Proof.
  intros H.
  destruct (1 <? length l)%nat eqn:E.
  - apply parentOf_Some in E as (l' & x' & y & -> & E). rewrite H in E.
    injection E as <-. unfold fromEnd. rewrite length_app.
    change (length [x; y]) with 2%nat.
    destruct (2 <=? length l' + 2)%nat eqn:E; [|apply Nat.leb_gt in E; lia].
    rewrite (list_lookup_middle l' [y] x) by lia. reflexivity.
  - apply parentOf_None in E. congruence.
Qed.

Lemma parentOf_map {A B} (f : A -> B) (l : list A) :
  parentOf (map f l) = option_map f (parentOf l).
Proof.
  induction l as [|a l IH]; simpl; [reflexivity|].
  rewrite IH. destruct l as [|b [|c l']]; reflexivity.
Qed.

Lemma last_map {A B} (f : A -> B) (l : list A) :
  last (map f l) = option_map f (last l).
Proof.
  induction l as [|a l IH]; simpl; [reflexivity|].
  destruct l as [|b l']; [reflexivity|exact IH].
Qed.

Section PutSim.
Variable hash : Felt -> Felt -> Felt.
Variable hashPath : Felt -> Key -> Felt.

Abbreviation tbranch := (tbranch hash hashPath).
Abbreviation tinsert := (tinsert hash hashPath).
Abbreviation putNodes := (putNodes hash hashPath).

Lemma insertOrUpdateValue_run key v p sib t :
  noFaults t -> last p = Some sib ->
  exists t',
    insertOrUpdateValue hash hashPath key (leafNode v) (map tsn p) (tsn sib) false t
      = Some (Ok tt, t') /\
    nodes (storage t') = putNodes key v p (nodes (storage t)) /\
    rootKey t' = (if (1 <? length p)%nat then rootKey t
                  else Some (commonPrefix key (tkey sib))) /\
    dirtyNodes t' = (if (1 <? length p)%nat
                     then dirtyNodes t ++ [commonPrefix key (tkey sib)]
                     else dirtyNodes t) /\
    sameConfig t t'.
Proof.
  intros Hnf Hlast. unfold insertOrUpdateValue, putNodes. rewrite Hlast.
  cbn [findCommonKey fst tsn sn_key sn_node].
  fold (branchBit key (commonPrefix key (tkey sib))).
  set (c := commonPrefix key (tkey sib)).
  assert (Hnew :
    (let '(l, r, leftChild, rightChild) :=
       if branchBit key c then (tkey sib, key, tnode sib, leafNode v)
       else (key, tkey sib, leafNode v, tnode sib) in
     mkNode (hash (Node_Hash hashPath leftChild (path l (Some c)))
                  (Node_Hash hashPath rightChild (path r (Some c)))) l r None None)
    = tnode (tbranch key v sib)).
  { unfold tbranch. fold c. destruct (branchBit key c); reflexivity. }
  destruct (branchBit key c) eqn:Hb; cbv beta iota zeta in Hnew |- *; rewrite Hnew;
    clear Hnew.
  all: unfold bind; rewrite (storagePut_nf c _ t Hnf); rewrite length_map.
  all: destruct (1 <? length p)%nat eqn:Hlen.
  all: try (destruct (parentOf_Some _ Hlen) as (l' & par & y & _ & Hpar); rewrite Hpar;
            rewrite (fromEnd_parent (map tsn p) (tsn par))
              by (rewrite parentOf_map, Hpar; reflexivity);
            rewrite storagePut_nf by (apply noFaults_put, Hnf);
            unfold appendDirty;
            rewrite storagePut_nf by (intros i; apply Hnf);
            eexists; split; [reflexivity|];
            cbn; repeat split; reflexivity).
  all: rewrite (parentOf_None _ Hlen); unfold setRootKey;
       rewrite storagePut_nf by (intros i; apply Hnf);
       eexists; (split; [reflexivity|]); cbn; repeat split; reflexivity.
Qed.

End PutSim.

(** ** Insertion keeps the tree well formed *)

Lemma node_diverge h key s :
  wf h s -> length key = h -> tkey s <> key -> descends key (tkey s) = false ->
  exists x, (commonPrefix key (tkey s) ++ [x]) `prefix_of` key /\
            (commonPrefix key (tkey s) ++ [negb x]) `prefix_of` tkey s.
Proof.
  intros Hwf Hlen Hne Hd. pose proof (wf_key_length _ _ Hwf) as Hk.
  destruct (commonPrefix_split key (tkey s)) as [E|[E|H]]; [| |exact H]; exfalso.
  - pose proof (commonPrefix_r key (tkey s)) as Hp. rewrite E in Hp.
    apply Hne. symmetry. apply prefix_length_eq; [exact Hp|lia].
  - pose proof (commonPrefix_l key (tkey s)) as Hp. rewrite E in Hp.
    destruct (decide (length (tkey s) < length key)%nat) as [Hlt|Hge].
    + assert (descends key (tkey s) = true) by (apply descends_true; auto). congruence.
    + apply Hne. apply prefix_length_eq; [exact Hp|lia].
Qed.

Lemma leaves_absent_not_descends h key k val l r :
  wf h (TNode k val l r) -> length key = h -> descends key k = false ->
  leaves (TNode k val l r) !! key = None.
Proof.
  intros Hwf Hlen Hd. destruct (leaves (TNode k val l r) !! key) as [v|] eqn:E; [|reflexivity].
  pose proof (wf_node_length _ _ _ _ _ Hwf) as Hk.
  apply (leaves_prefix h) in E as [Hp _]; [|exact Hwf]. simpl in Hp.
  assert (descends key k = true) by (apply descends_true; split; [auto|lia]). congruence.
Qed.

Lemma leaves_other_side h s key k x :
  wf h s -> (k ++ [x]) `prefix_of` tkey s -> (k ++ [negb x]) `prefix_of` key ->
  leaves s !! key = None.
Proof.
  intros Hwf Hs Hk. destruct (leaves s !! key) as [v|] eqn:E; [|reflexivity].
  exfalso. apply (leaves_prefix h) in E as [Hp _]; [|exact Hwf].
  eapply (prefix_snoc_neq k key x); [etrans; eauto|exact Hk].
Qed.

Section InsertWf.
Variable hash : Felt -> Felt -> Felt.
Variable hashPath : Felt -> Key -> Felt.

Abbreviation tbranch := (tbranch hash hashPath).
Abbreviation tinsert := (tinsert hash hashPath).

Lemma tkey_tinsert_cases key v s :
  tkey (tinsert key v s) = tkey s \/ tkey (tinsert key v s) = commonPrefix key (tkey s).
Proof.
  destruct s as [k v0|k val l r]; simpl.
  - destruct (Key_Equal key k); [left; reflexivity|right; apply tkey_tbranch].
  - destruct (descends key k); [|right; apply tkey_tbranch].
    destruct (branchBit key k); left; reflexivity.
Qed.

Lemma tkey_tinsert_below key v s c :
  c `prefix_of` tkey s -> c `prefix_of` key -> c `prefix_of` tkey (tinsert key v s).
Proof.
  intros Hs Hk. destruct (tkey_tinsert_cases key v s) as [->| ->]; [exact Hs|].
  apply commonPrefix_greatest; assumption.
Qed.

Lemma wf_tinsert h key v s :
  wf h s -> length key = h -> (h <= 255)%nat -> wf h (tinsert key v s).
Proof.
  intros Hwf Hlen Hh. induction s as [k v0|k val l IHl r IHr].
  - simpl. destruct (Key_Equal key k) eqn:E; [exact Hwf|].
    apply Key_Equal_false in E.
    assert (Hd : descends key k = false).
    { unfold descends, Key_Len. simpl in Hwf.
      replace (length key <=? length k)%nat with true; [reflexivity|].
      symmetry. apply Nat.leb_le. lia. }
    destruct (node_diverge h key (TLeaf k v0) Hwf Hlen (not_eq_sym E) Hd)
      as (x & Hx1 & Hx2).
    eapply wf_tbranch; eauto.
  - simpl. destruct (descends key k) eqn:Hd.
    + pose proof (descends_branch key k ltac:(lia) Hd) as Hkb.
      destruct Hwf as (Hl & Hr & Hwl & Hwr).
      destruct (branchBit key k); simpl; repeat split; auto.
      * apply tkey_tinsert_below; auto.
      * apply tkey_tinsert_below; auto.
    + assert (Hne : tkey (TNode k val l r) <> key).
      { simpl. intros ->. apply wf_node_length in Hwf. lia. }
      destruct (node_diverge h key (TNode k val l r) Hwf Hlen Hne Hd) as (x & Hx1 & Hx2).
      eapply wf_tbranch; eauto.
Qed.

Lemma leaves_tinsert h key v s :
  wf h s -> length key = h -> (h <= 255)%nat ->
  leaves (tinsert key v s) = <[ key := v ]> (leaves s).
Proof.
  intros Hwf Hlen Hh. induction s as [k v0|k val l IHl r IHr].
  - simpl. destruct (Key_Equal key k) eqn:E.
    + apply Key_Equal_true in E as ->. simpl. symmetry. apply insert_singleton_eq.
    + apply Key_Equal_false in E. eapply leaves_tbranch; [exact Hwf|].
      simpl. apply lookup_singleton_ne. congruence.
  - simpl tinsert. destruct (descends key k) eqn:Hd.
    + pose proof (descends_branch key k ltac:(lia) Hd) as Hkb.
      destruct Hwf as (Hl & Hr & Hwl & Hwr).
      destruct (branchBit key k); simpl.
      * rewrite IHr by auto. symmetry. apply insert_union_r.
        eapply (leaves_other_side h l key k false); eauto.
      * rewrite IHl by auto. symmetry. apply insert_union_l.
    + eapply leaves_tbranch; [exact Hwf|].
      eapply leaves_absent_not_descends; eauto.
Qed.

(** Overwriting a leaf that exists changes the storage at that key only. *)
Lemma flatten_tinsert_present h key v s v0 :
  wf h s -> length key = h -> (h <= 255)%nat -> leaves s !! key = Some v0 ->
  flatten (tinsert key v s) = <[ key := leafNode v ]> (flatten s) /\
  tkey (tinsert key v s) = tkey s.
Proof.
  intros Hwf Hlen Hh. induction s as [k v1|k val l IHl r IHr]; intros Hpre.
  - simpl in Hpre. apply lookup_singleton_Some in Hpre as [-> _].
    simpl. assert (Key_Equal key key = true) as -> by (apply Key_Equal_true; reflexivity).
    simpl. split; [|reflexivity]. symmetry. apply insert_singleton_eq.
  - pose proof (wf_node_length _ _ _ _ _ Hwf) as Hk.
    simpl tinsert. destruct (descends key k) eqn:Hd.
    2: { rewrite (leaves_absent_not_descends h key k val l r) in Hpre by auto. discriminate. }
    pose proof (descends_branch key k ltac:(lia) Hd) as Hkb.
    pose proof Hwf as (Hl & Hr & Hwl & Hwr).
    assert (Hnek : k <> key) by (intros ->; lia).
    simpl in Hpre. destruct (branchBit key k).
    + assert (Hal : leaves l !! key = None)
        by (eapply (leaves_other_side h l key k false); eauto).
      apply lookup_union_Some_raw in Hpre as [Hpre|[_ Hpre]]; [congruence|].
      destruct (IHr Hwr Hpre) as [IHf IHk]. simpl. rewrite IHf, IHk.
      split; [|reflexivity].
      rewrite <- insert_union_r.
      2: { eapply (flatten_other_side h l key k false); eauto. }
      apply insert_insert_ne. exact Hnek.
    + assert (Har : leaves r !! key = None)
        by (eapply (leaves_other_side h r key k true); eauto).
      apply lookup_union_Some_raw in Hpre as [Hpre|[_ Hpre]]; [|congruence].
      destruct (IHl Hwl Hpre) as [IHf IHk]. simpl. rewrite IHf, IHk.
      split; [|reflexivity].
      rewrite <- insert_union_l. apply insert_insert_ne. exact Hnek.
Qed.

End InsertWf.

(** ** Stale values lie above dirty keys *)

Lemma dirtyBelow_app d1 d2 k : dirtyBelow (d1 ++ d2) k = dirtyBelow d1 k || dirtyBelow d2 k.
Proof. unfold dirtyBelow. apply existsb_app. Qed.

Lemma dirtyBelow_true dirty k :
  dirtyBelow dirty k = true <->
  exists d, In d dirty /\ (length k < length d)%nat /\ k `prefix_of` d.
Proof.
  unfold dirtyBelow. rewrite existsb_exists. split; intros (d & Hd & H); exists d.
  - apply andb_true_iff in H as [H1 H2]. apply Nat.ltb_lt in H1.
    apply isSubset_prefix in H2. auto.
  - destruct H as [H1 H2]. split; [exact Hd|]. apply andb_true_iff. split.
    + apply Nat.ltb_lt. exact H1.
    + apply isSubset_prefix. exact H2.
Qed.

Lemma dirtyBelow_false_app_l d1 d2 k : dirtyBelow (d1 ++ d2) k = false -> dirtyBelow d1 k = false.
Proof. rewrite dirtyBelow_app. intros H. apply orb_false_iff in H. tauto. Qed.

(** Clean above means clean below. *)
Lemma dirtyBelow_false_below dirty k k' :
  k `prefix_of` k' -> dirtyBelow dirty k = false -> dirtyBelow dirty k' = false.
Proof.
  intros Hp H. destruct (dirtyBelow dirty k') eqn:E; [|reflexivity].
  apply dirtyBelow_true in E as (d & Hd & Hl & Hpd).
  assert (dirtyBelow dirty k = true); [|congruence].
  apply dirtyBelow_true. exists d. split; [exact Hd|]. split.
  - apply prefix_length in Hp. lia.
  - etrans; eauto.
Qed.

Lemma dirtyBelow_nil k : dirtyBelow [] k = false.
Proof. reflexivity. Qed.

Section UpToDate.
Variable hash : Felt -> Felt -> Felt.
Variable hashPath : Felt -> Key -> Felt.

Abbreviation tbranch := (tbranch hash hashPath).
Abbreviation tinsert := (tinsert hash hashPath).
Abbreviation cval := (cval hash hashPath).
Abbreviation clean := (clean hash hashPath).
Abbreviation upToDate := (upToDate hash hashPath).

Lemma Node_Hash_value n p : Node_Hash hashPath n p = Node_Hash hashPath (leafNode (Value n)) p.
Proof. reflexivity. Qed.

Lemma upToDate_app dirty X s : upToDate dirty s -> upToDate (dirty ++ X) s.
Proof.
  induction s as [k v|k val l IHl r IHr]; simpl; [auto|].
  intros (Hv & Hl & Hr). repeat split; auto.
  intros H. apply Hv. eapply dirtyBelow_false_app_l; eauto.
Qed.

(** A subtree without dirty keys below its root holds its commitment. *)
Lemma upToDate_tval dirty s :
  upToDate dirty s -> dirtyBelow dirty (tkey s) = false -> tval s = cval s.
Proof. destruct s as [k v|k val l r]; simpl; [reflexivity|]. intros (Hv & _) H. auto. Qed.

Lemma upToDate_clean dirty h s :
  wf h s -> upToDate dirty s -> dirtyBelow dirty (tkey s) = false -> clean s = s.
Proof.
  induction s as [k v|k val l IHl r IHr]; simpl; [reflexivity|].
  intros (Hl & Hr & Hwl & Hwr) (Hv & Hul & Hur) Hd.
  rewrite IHl, IHr; auto.
  - rewrite <- (Hv Hd). reflexivity.
  - eapply dirtyBelow_false_below; [|exact Hd]. eapply prefix_snoc_weaken; eauto.
  - eapply dirtyBelow_false_below; [|exact Hd]. eapply prefix_snoc_weaken; eauto.
Qed.

Lemma upToDate_tbranch dirty X key v s :
  upToDate dirty s ->
  upToDate (dirty ++ X) (tbranch key v s).
Proof.
  intros Hu. unfold tbranch.
  set (c := commonPrefix key (tkey s)).
  assert (Hval : dirtyBelow (dirty ++ X) c = false -> tval s = cval s).
  { intros H. apply (upToDate_tval dirty); [exact Hu|].
    eapply dirtyBelow_false_below; [apply commonPrefix_r|].
    eapply dirtyBelow_false_app_l; eauto. }
  destruct (branchBit key c); simpl; (split; [|split; auto using upToDate_app]).
  - intros H. rewrite (Node_Hash_value (tnode s)).
    replace (Value (tnode s)) with (tval s) by (destruct s; reflexivity).
    rewrite (Hval H). reflexivity.
  - intros H. rewrite (Node_Hash_value (tnode s)).
    replace (Value (tnode s)) with (tval s) by (destruct s; reflexivity).
    rewrite (Hval H). reflexivity.
Qed.

Lemma dirtyBelow_witness dirty X k d :
  In d X -> (length k < length d)%nat -> k `prefix_of` d ->
  dirtyBelow (dirty ++ X) k = false -> False.
Proof.
  intros Hin Hl Hp H.
  assert (dirtyBelow (dirty ++ X) k = true); [|congruence].
  apply dirtyBelow_true. exists d. split; [apply in_or_app; auto|auto].
Qed.

(** The insertion of an absent key: the keys above the new branching node
    are dirty, as the branching node is listed whenever it has a parent. *)
Lemma upToDate_tinsert dirty X h key v s sib :
  wf h s -> length key = h -> (h <= 255)%nat -> leaves s !! key = None ->
  last (tpath key s) = Some sib ->
  ((1 < length (tpath key s))%nat -> In (commonPrefix key (tkey sib)) X) ->
  upToDate dirty s ->
  upToDate (dirty ++ X) (tinsert key v s).
Proof.
  intros Hwf Hlen Hh. revert sib.
  induction s as [k v0|k val l IHl r IHr]; intros sib Habs Hlast HX Hu.
  - simpl. destruct (Key_Equal key k); [exact I|]. apply upToDate_tbranch. exact Hu.
  - simpl tinsert. simpl tpath in Hlast, HX. destruct (descends key k) eqn:Hd.
    2: { apply upToDate_tbranch. exact Hu. }
    pose proof (descends_branch key k ltac:(lia) Hd) as Hkb.
    simpl in Habs. apply leaves_union_None in Habs as [Hal Har].
    pose proof Hwf as (Hl & Hr & Hwl & Hwr). destruct Hu as (Hv & Hul & Hur).
    assert (Hc : In (commonPrefix key (tkey sib)) X).
    { apply HX. simpl. destruct (branchBit key k);
        [destruct (tpath_head key r) as [tl ->]|destruct (tpath_head key l) as [tl ->]];
        simpl; lia. }
    destruct (branchBit key k) eqn:Hb.
    + destruct (tpath_head key r) as [tl Etl].
      assert (Hlast' : last (tpath key r) = Some sib) by (rewrite Etl in *; exact Hlast).
      assert (Hsibk : (k ++ [true]) `prefix_of` tkey sib).
      { etrans; [exact Hr|]. eapply tpath_below; [exact Hwr|]. apply last_elem, Hlast'. }
      assert (Hck : (k ++ [true]) `prefix_of` commonPrefix key (tkey sib))
        by (apply commonPrefix_greatest; auto).
      simpl. split; [|split].
      * intros H. exfalso. eapply dirtyBelow_witness; [exact Hc| | |exact H].
        -- apply prefix_snoc_length in Hck. exact Hck.
        -- eapply prefix_snoc_weaken; eauto.
      * apply upToDate_app. exact Hul.
      * eapply IHr; eauto.
    + destruct (tpath_head key l) as [tl Etl].
      assert (Hlast' : last (tpath key l) = Some sib) by (rewrite Etl in *; exact Hlast).
      assert (Hsibk : (k ++ [false]) `prefix_of` tkey sib).
      { etrans; [exact Hl|]. eapply tpath_below; [exact Hwl|]. apply last_elem, Hlast'. }
      assert (Hck : (k ++ [false]) `prefix_of` commonPrefix key (tkey sib))
        by (apply commonPrefix_greatest; auto).
      simpl. split; [|split].
      * intros H. exfalso. eapply dirtyBelow_witness; [exact Hc| | |exact H].
        -- apply prefix_snoc_length in Hck. exact Hck.
        -- eapply prefix_snoc_weaken; eauto.
      * eapply IHl; eauto.
      * apply upToDate_app. exact Hur.
Qed.

(** Overwriting a leaf: its key is listed, so all nodes above are dirty. *)
Lemma upToDate_tinsert_present dirty h key v s v0 :
  wf h s -> length key = h -> (h <= 255)%nat -> leaves s !! key = Some v0 ->
  upToDate dirty s ->
  upToDate (dirty ++ [key]) (tinsert key v s).
Proof.
  intros Hwf Hlen Hh. induction s as [k v1|k val l IHl r IHr]; intros Hpre Hu.
  - simpl. destruct (Key_Equal key k); [exact I|]. apply upToDate_tbranch. exact Hu.
  - pose proof (wf_node_length _ _ _ _ _ Hwf) as Hk.
    simpl tinsert. destruct (descends key k) eqn:Hd.
    2: { apply upToDate_tbranch. exact Hu. }
    pose proof (descends_branch key k ltac:(lia) Hd) as Hkb.
    pose proof Hwf as (Hl & Hr & Hwl & Hwr). destruct Hu as (Hv & Hul & Hur).
    assert (Hdirty : dirtyBelow (dirty ++ [key]) k = false -> False).
    { intros H. eapply (dirtyBelow_witness dirty [key] k key); [left; reflexivity| | |exact H].
      - lia.
      - eapply prefix_snoc_weaken; eauto. }
    simpl in Hpre. destruct (branchBit key k).
    + assert (Hal : leaves l !! key = None)
        by (eapply (leaves_other_side h l key k false); eauto).
      apply lookup_union_Some_raw in Hpre as [Hpre|[_ Hpre]]; [congruence|].
      simpl. split; [intros H; destruct (Hdirty H)|].
      split; [apply upToDate_app; exact Hul|apply IHr; auto].
    + assert (Har : leaves r !! key = None)
        by (eapply (leaves_other_side h r key k true); eauto).
      apply lookup_union_Some_raw in Hpre as [Hpre|[_ Hpre]]; [|congruence].
      simpl. split; [intros H; destruct (Hdirty H)|].
      split; [apply IHl; auto|apply upToDate_app; exact Hur].
Qed.

End UpToDate.

(** ** [Put] of a value that is not zero, on a well-formed trie *)

Lemma readsOnly_read k t : readsOnly t (Trie_read k t).
Proof. apply readsOnly_get. Qed.

Lemma holds_leaf_lookup tr t key :
  holds tr t -> length key = height t ->
  nodes (storage t) !! key = leafNode <$> trieLeaves tr !! key.
Proof.
  destruct tr as [s|]; simpl.
  - intros (_ & -> & Hwf) Hlen. eapply flatten_leaves; eauto.
  - intros (_ & ->) _. rewrite !lookup_empty. reflexivity.
Qed.

Lemma tpath_last_key_absent h key s sib :
  wf h s -> length key = h -> leaves s !! key = None ->
  last (tpath key s) = Some sib -> Key_Equal key (tkey sib) = false.
Proof.
  intros Hwf Hlen Habs Hlast.
  destruct (tpath_last_diverge _ _ _ _ Hwf Hlen Habs Hlast) as (x & H1 & H2).
  apply Key_Equal_false. intros E. rewrite <- E in H1, H2.
  exact (prefix_snoc_neq _ _ _ H1 H2).
Qed.

Section PutInsert.
Variable hash : Felt -> Felt -> Felt.
Variable hashPath : Felt -> Key -> Felt.

Abbreviation represents := (represents hash hashPath).
Abbreviation trieInsert := (trieInsert hash hashPath).
Abbreviation Put := (Put hash hashPath).

Lemma nodesFromRoot_tree fuel key s t :
  noFaults t -> rootKey t = Some (tkey s) -> nodes (storage t) = flatten s ->
  wf (length key) s -> (length key <= 255)%nat -> (length key < fuel)%nat ->
  exists t',
    nodesFromRoot fuel key t = Some (Ok (map tsn (tpath key s)), t') /\ readsOnly t t'.
Proof.
  intros Hnf Hroot Hnodes Hwf Hlen Hfuel. unfold nodesFromRoot. rewrite Hroot.
  destruct (nodesFromRoot_loop_tree key s fuel [] t) as (t' & H & Hro); auto.
  - rewrite Hnodes. reflexivity.
  - pose proof (wf_depth _ _ Hwf). lia.
  - exists t'. split; [exact H|exact Hro].
Qed.

Lemma nodesFromRoot_empty fuel key t :
  rootKey t = None -> nodesFromRoot fuel key t = Some (Ok [], t).
Proof. intros H. unfold nodesFromRoot. rewrite H. destruct fuel; reflexivity. Qed.

Lemma Put_nonzero_run (fuel : nat) (tr : option tree) (t : Trie) (key v : Felt) :
  represents tr t -> noFaults t -> (height t < fuel)%nat ->
  key <= maxKey t -> v <> 0 ->
  exists t',
    Put fuel key v t
      = Some (Ok (Some (default 0 (trieLeaves tr !! FeltToKey (height t) key))), t') /\
    represents (trieInsert (FeltToKey (height t) key) v tr) t' /\
    noFaults t' /\ sameConfig t t'.
Proof.
  intros (Hholds & Hh & Hup) Hnf Hfuel Hkey Hv.
  unfold Put, putCommon, felt_Gt.
  destruct (Z.ltb_spec (maxKey t) key) as [Hlt|_]; [lia|].
  set (nodeKey := FeltToKey (height t) key).
  assert (Hlen : length nodeKey = height t) by apply FeltToKey_length.
  pose proof (holds_leaf_lookup _ _ _ Hholds Hlen) as Hlook.
  fold nodeKey in Hlook.
  assert (Hz : felt_IsZero v = false) by (apply felt_IsZero_false; exact Hv).
  unfold updateLeaf. rewrite Hz. cbn [negb].
  destruct (trieLeaves tr !! nodeKey) as [v0|] eqn:Hleaf; simpl in Hlook.
  - (* the leaf exists: it is overwritten *)
    destruct tr as [s|]; [|simpl in Hleaf; rewrite lookup_empty in Hleaf; discriminate].
    destruct Hholds as (Hroot & Hnodes & Hwf). simpl in Hleaf.
    unfold try. rewrite (storageGet_nf nodeKey t Hnf), Hlook. cbv beta iota.
    unfold bind. rewrite storagePut_nf by (apply noFaults_read, Hnf).
    unfold appendDirty, ret. cbv beta iota.
    eexists. split; [reflexivity|].
    destruct (flatten_tinsert_present hash hashPath _ nodeKey v s v0 Hwf Hlen Hh Hleaf)
      as [Hf Hk].
    split; [|split; [intros i; apply Hnf|repeat split]].
    split; [|split; [exact Hh|]].
    + simpl. rewrite Hk, Hf, Hnodes. repeat split; auto.
      apply wf_tinsert; auto.
    + simpl. eapply upToDate_tinsert_present; eauto.
  - (* no leaf at the key *)
    unfold try at 1 2. rewrite (storageGet_nf nodeKey t Hnf), Hlook. cbv beta iota.
    unfold ret at 1.
    destruct tr as [s|].
    + destruct Hholds as (Hroot & Hnodes & Hwf). simpl in Hleaf.
      destruct (nodesFromRoot_tree fuel nodeKey s (Trie_read nodeKey t))
        as (t2 & Hrun & Hro); auto; try (rewrite Hlen; auto; lia).
      erewrite bind_ok by exact Hrun.
      destruct (tpath_last nodeKey s) as [sib Hsib].
      assert (Hn0 : (length (map tsn (tpath nodeKey s)) =? 0)%nat = false).
      { destruct (tpath_head nodeKey s) as [tl ->]. reflexivity. }
      rewrite Hn0.
      erewrite bind_ok by (apply fromEnd_last; rewrite last_map, Hsib; reflexivity).
      unfold deleteExistingKey. cbn [tsn sn_key].
      rewrite (tpath_last_key_absent _ _ _ _ Hwf Hlen Hleaf Hsib).
      unfold try, ret at 1. cbv beta iota.
      assert (Hnf2 : noFaults t2).
      { eapply noFaults_readsOnly; [exact Hro|]. apply noFaults_read, Hnf. }
      destruct (insertOrUpdateValue_run hash hashPath nodeKey v _ _ t2 Hnf2 Hsib)
        as (t3 & Hins & Hn3 & Hr3 & Hd3 & Hc3).
      fold (tsn sib). erewrite bind_ok by exact Hins.
      eexists. split; [reflexivity|].
      pose proof (readsOnly_fields _ _ Hro) as (Eh & Er & Em & Ed & Ek & En & Es & Ef).
      destruct (flatten_tinsert hash hashPath _ nodeKey v s Hwf Hlen Hh Hleaf) as [Hf Hk].
      assert (Hcfg : sameConfig t t3).
      { eapply sameConfig_trans; [|exact Hc3].
        eapply sameConfig_trans; [|apply sameConfig_readsOnly, Hro].
        apply sameConfig_readsOnly, readsOnly_read. }
      split; [|split; [eapply noFaults_sameConfig; eauto|exact Hcfg]].
      destruct Hcfg as (Hh3 & _).
      split; [|split; [rewrite Hh3; exact Hh|]].
      * simpl. rewrite Hh3, Hn3, En. simpl. rewrite Hnodes, <- Hf. split; [|split; auto].
        -- rewrite Hr3, Er, Hk. simpl. rewrite Hroot.
           destruct (tpath_head nodeKey s) as [tl Etl]. rewrite Etl in *.
           destruct tl as [|y tl']; [|reflexivity].
           simpl in Hsib. injection Hsib as <-. reflexivity.
        -- apply wf_tinsert; auto.
      * simpl. rewrite Hd3, Ed. simpl.
        destruct (1 <? length (tpath nodeKey s))%nat eqn:E1.
        -- eapply upToDate_tinsert; eauto. intros _. left. reflexivity.
        -- rewrite <- (app_nil_r (dirtyNodes t)).
           eapply upToDate_tinsert; eauto.
           intros H. apply Nat.ltb_ge in E1. lia.
    + (* the trie is empty *)
      destruct Hholds as (Hroot & Hnodes).
      erewrite bind_ok by (apply nodesFromRoot_empty; exact Hroot).
      cbn [length Nat.eqb]. unfold handleEmptyTrie. rewrite Hz.
      unfold bind. rewrite storagePut_nf by (intros i; apply Hnf).
      unfold setRootKey, ret.
      eexists. split; [reflexivity|].
      split; [|split; [intros i; apply Hnf|repeat split]].
      split; [|split; [exact Hh|exact I]].
      simpl. rewrite Hnodes, insert_empty. repeat split. apply FeltToKey_length.
Qed.

End PutInsert.

(** ** Deletion, on the tree *)

Lemma union_delete_r {A} (m1 m2 : gmap Key A) i :
  m1 !! i = None -> m1 ∪ delete i m2 = delete i (m1 ∪ m2).
Proof. intros H. rewrite delete_union, (delete_id m1) by exact H. reflexivity. Qed.

Lemma union_delete_l {A} (m1 m2 : gmap Key A) i :
  m2 !! i = None -> delete i m1 ∪ m2 = delete i (m1 ∪ m2).
Proof. intros H. rewrite delete_union, (delete_id m2) by exact H. reflexivity. Qed.

Lemma union_insert_r {A} (m1 m2 : gmap Key A) i x :
  m1 !! i = None -> m1 ∪ <[i := x]> m2 = <[i := x]> (m1 ∪ m2).
Proof. intros H. symmetry. apply insert_union_r, H. Qed.

Lemma union_insert_l {A} (m1 m2 : gmap Key A) i x :
  <[i := x]> m1 ∪ m2 = <[i := x]> (m1 ∪ m2).
Proof. symmetry. apply insert_union_l. Qed.

(** Equalities between maps built by insertions and deletions over the
    same base, decided key by key. *)
Ltac tower_solver :=
  apply map_eq; intros ?i;
  repeat first [rewrite lookup_insert|rewrite lookup_delete];
  repeat case_decide; subst; first [reflexivity|congruence].

Lemma tdelete_node_Some key k val l r : exists s', tdelete key (TNode k val l r) = Some s'.
Proof.
  simpl. destruct (descends key k); [|eauto].
  destruct (branchBit key k); [destruct (tdelete key r)|destruct (tdelete key l)]; eauto.
Qed.

Lemma tdelete_below h key s s' :
  wf h s -> tdelete key s = Some s' -> tkey s `prefix_of` tkey s'.
Proof.
  destruct s as [k v|k val l r]; simpl.
  - intros _. destruct (Key_Equal key k); [discriminate|]. intros [= <-]. reflexivity.
  - intros (Hl & Hr & _). destruct (descends key k); [|intros [= <-]; reflexivity].
    destruct (branchBit key k).
    + destruct (tdelete key r); intros [= <-]; [reflexivity|].
      eapply prefix_snoc_weaken; eauto.
    + destruct (tdelete key l); intros [= <-]; [reflexivity|].
      eapply prefix_snoc_weaken; eauto.
Qed.

Lemma tpath_present_last h key s v0 :
  wf h s -> length key = h -> (h <= 255)%nat -> leaves s !! key = Some v0 ->
  last (tpath key s) = Some (TLeaf key v0).
Proof.
  intros Hwf Hlen Hh. induction s as [k v1|k val l IHl r IHr]; simpl; intros Hpre.
  - apply lookup_singleton_Some in Hpre as [-> ->]. reflexivity.
  - pose proof (wf_node_length _ _ _ _ _ Hwf) as Hk.
    destruct (descends key k) eqn:Hd.
    2: { pose proof (leaves_absent_not_descends h key k val l r Hwf Hlen Hd) as Hn.
         simpl in Hn. congruence. }
    pose proof (descends_branch key k ltac:(lia) Hd) as Hkb.
    pose proof Hwf as (Hl & Hr & Hwl & Hwr).
    destruct (branchBit key k).
    + assert (Hal : leaves l !! key = None)
        by (eapply (leaves_other_side h l key k false); eauto).
      apply lookup_union_Some_raw in Hpre as [Hpre|[_ Hpre]]; [congruence|].
      destruct (tpath_head key r) as [tl Etl]. rewrite Etl in *. apply IHr; auto.
    + assert (Har : leaves r !! key = None)
        by (eapply (leaves_other_side h r key k true); eauto).
      apply lookup_union_Some_raw in Hpre as [Hpre|[_ Hpre]]; [|congruence].
      destruct (tpath_head key l) as [tl Etl]. rewrite Etl in *. apply IHl; auto.
Qed.

Lemma tpath_present_node h key k val l r v0 :
  wf h (TNode k val l r) -> length key = h -> (h <= 255)%nat ->
  leaves (TNode k val l r) !! key = Some v0 ->
  exists y tl, tpath key (TNode k val l r) = TNode k val l r :: y :: tl.
Proof.
  intros Hwf Hlen Hh Hpre. simpl. destruct (descends key k) eqn:Hd.
  - destruct (branchBit key k);
      [destruct (tpath_head key r) as [tl ->]|destruct (tpath_head key l) as [tl ->]]; eauto.
  - pose proof (leaves_absent_not_descends h key k val l r Hwf Hlen Hd). congruence.
Qed.

Lemma tpath_longer_Some key s y tl :
  tpath key s = s :: y :: tl -> exists s', tdelete key s = Some s'.
Proof.
  destruct s as [k v|k val l r]; [discriminate|].
  intros _. apply tdelete_node_Some.
Qed.

Lemma flatten_tdelete h key s v0 :
  wf h s -> length key = h -> (h <= 255)%nat -> leaves s !! key = Some v0 ->
  trieNodes (tdelete key s) = deleteNodes (tpath key s) (flatten s) /\
  trieRoot (tdelete key s)
  = match tpath key s with
    | [_] => None
    | [par; _] => Some (siblingKeyOf par key)
    | _ => Some (tkey s)
    end.
Proof.
  intros Hwf Hlen Hh. induction s as [k v1|k val l IHl r IHr]; intros Hpre.
  - simpl in Hpre. apply lookup_singleton_Some in Hpre as [-> ->].
    simpl. assert (Key_Equal key key = true) as -> by (apply Key_Equal_true; reflexivity).
    unfold deleteNodes. simpl. split; [|reflexivity].
    symmetry. apply delete_singleton_eq.
  - pose proof (wf_node_length _ _ _ _ _ Hwf) as Hk.
    pose proof (Key_Equal_children _ _ _ _ _ Hwf) as Hlr.
    pose proof (flatten_children_fresh _ _ _ _ _ Hwf) as Hfresh.
    apply lookup_union_None in Hfresh as [Hfl Hfr].
    simpl tdelete. simpl tpath. destruct (descends key k) eqn:Hd.
    2: { pose proof (leaves_absent_not_descends h key k val l r Hwf Hlen Hd). congruence. }
    pose proof (descends_branch key k ltac:(lia) Hd) as Hkb.
    pose proof Hwf as (Hl & Hr & Hwl & Hwr).
    assert (Hnek : k <> key) by (intros ->; lia).
    simpl in Hpre. destruct (branchBit key k) eqn:Hb.
    + (* the leaf lies on the right *)
      assert (Hal : leaves l !! key = None)
        by (eapply (leaves_other_side h l key k false); eauto).
      apply lookup_union_Some_raw in Hpre as [Hpre|[_ Hpre]]; [congruence|].
      specialize (IHr Hwr Hpre). destruct IHr as [IHf IHk].
      pose proof (tpath_present_last _ _ _ _ Hwr Hlen Hh Hpre) as Hlast.
      assert (Hnone : forall i, (k ++ [true]) `prefix_of` i -> flatten l !! i = None).
      { intros i Hi. eapply (flatten_other_side _ l i k false); eauto. }
      assert (Hlkey : Key_Equal (tkey l) key = false).
      { apply Key_Equal_false. intros E. rewrite E in Hl.
        eapply (prefix_snoc_neq k key false); eauto. }
      pose proof (Hnone _ Hkb) as Hn1. pose proof (Hnone _ Hr) as Hn2.
      assert (Hnekr : k <> tkey r) by (intros E; rewrite <- E in Hr;
        apply prefix_snoc_length in Hr; lia).
      destruct (tpath_head key r) as [tl Etl]. rewrite Etl in *.
      destruct tl as [|y tl].
      * (* the right child is the leaf *)
        simpl in Hlast. injection Hlast as ->.
        simpl in *. assert (Key_Equal key key = true) as -> by (apply Key_Equal_true; reflexivity).
        unfold deleteNodes, siblingKeyOf. simpl. rewrite Hlkey. split; [|reflexivity].
        rewrite <- insert_union_singleton_r by (apply Hnone; auto).
        tower_solver.
      * destruct (tpath_longer_Some _ _ _ _ Etl) as [r' Hr'].
        rewrite Hr' in *. cbn [trieNodes trieRoot option_map] in *.
        cbn [flatten]. rewrite IHf. unfold deleteNodes.
        replace (last (TNode k val l r :: r :: y :: tl))
          with (last (r :: y :: tl)) by reflexivity.
        rewrite Hlast. cbn [tkey].
        destruct tl as [|z tl'].
        -- (* the right child is the parent of the leaf *)
           cbn [parentOf grandParentOf tkey tnode Left Right].
           injection IHk as IHk. rewrite IHk. unfold siblingKeyOf.
           rewrite Hlr.
           unfold Node_setRight. cbn [Value Left Right LeftHash RightHash].
           split; [|reflexivity].
           rewrite !union_delete_r by auto.
           tower_solver.
        -- replace (parentOf (TNode k val l r :: r :: y :: z :: tl'))
             with (parentOf (r :: y :: z :: tl')) by reflexivity.
           replace (grandParentOf (TNode k val l r :: r :: y :: z :: tl'))
             with (grandParentOf (r :: y :: z :: tl'))
             by (destruct tl'; reflexivity).
           injection IHk as IHk. rewrite IHk. split; [|reflexivity].
           destruct (parentOf (r :: y :: z :: tl')) as [par|] eqn:Hpar.
           2: { rewrite !union_delete_r by auto. tower_solver. }
           assert (Hpk : (k ++ [true]) `prefix_of` tkey par).
           { etrans; [exact Hr|]. eapply (tpath_below h key r); [exact Hwr|].
             rewrite Etl. apply parentOf_elem, Hpar. }
           pose proof (Hnone _ Hpk) as Hn3.
           assert (Hnepk : k <> tkey par) by (intros E; rewrite <- E in Hpk;
             apply prefix_snoc_length in Hpk; lia).
           destruct (grandParentOf (r :: y :: z :: tl')) as [gp|] eqn:Hgp.
           2: { rewrite !union_delete_r by auto. tower_solver. }
           assert (Hgk : (k ++ [true]) `prefix_of` tkey gp).
           { etrans; [exact Hr|]. eapply (tpath_below h key r); [exact Hwr|].
             rewrite Etl. apply grandParentOf_elem, Hgp. }
           pose proof (Hnone _ Hgk) as Hn4.
           assert (Hnegk : k <> tkey gp) by (intros E; rewrite <- E in Hgk;
             apply prefix_snoc_length in Hgk; lia).
           rewrite union_insert_r by auto.
           rewrite !union_delete_r by auto. tower_solver.
    + (* the leaf lies on the left *)
      assert (Har : leaves r !! key = None)
        by (eapply (leaves_other_side h r key k true); eauto).
      apply lookup_union_Some_raw in Hpre as [Hpre|[_ Hpre]]; [|congruence].
      specialize (IHl Hwl Hpre). destruct IHl as [IHf IHk].
      pose proof (tpath_present_last _ _ _ _ Hwl Hlen Hh Hpre) as Hlast.
      assert (Hnone : forall i, (k ++ [false]) `prefix_of` i -> flatten r !! i = None).
      { intros i Hi. eapply (flatten_other_side _ r i k true); eauto. }
      assert (Hll : Key_Equal (tkey l) (tkey l) = true) by (apply Key_Equal_true; reflexivity).
      pose proof (Hnone _ Hkb) as Hn1. pose proof (Hnone _ Hl) as Hn2.
      assert (Hnekr : k <> tkey l) by (intros E; rewrite <- E in Hl;
        apply prefix_snoc_length in Hl; lia).
      destruct (tpath_head key l) as [tl Etl]. rewrite Etl in *.
      destruct tl as [|y tl].
      * (* the left child is the leaf *)
        simpl in Hlast. injection Hlast as ->.
        simpl in *. assert (Key_Equal key key = true) as -> by (apply Key_Equal_true; reflexivity).
        unfold deleteNodes, siblingKeyOf. simpl. rewrite Hll. split; [|reflexivity].
        rewrite <- insert_union_singleton_l.
        tower_solver.
      * destruct (tpath_longer_Some _ _ _ _ Etl) as [l' Hl'].
        rewrite Hl' in *. cbn [trieNodes trieRoot option_map] in *.
        cbn [flatten]. rewrite IHf. unfold deleteNodes.
        replace (last (TNode k val l r :: l :: y :: tl))
          with (last (l :: y :: tl)) by reflexivity.
        rewrite Hlast. cbn [tkey].
        destruct tl as [|z tl'].
        -- (* the left child is the parent of the leaf *)
           cbn [parentOf grandParentOf tkey tnode Left Right].
           injection IHk as IHk. rewrite IHk. unfold siblingKeyOf.
           rewrite Hll.
           unfold Node_setLeft. cbn [Value Left Right LeftHash RightHash].
           split; [|reflexivity].
           rewrite !union_delete_l by auto.
           tower_solver.
        -- replace (parentOf (TNode k val l r :: l :: y :: z :: tl'))
             with (parentOf (l :: y :: z :: tl')) by reflexivity.
           replace (grandParentOf (TNode k val l r :: l :: y :: z :: tl'))
             with (grandParentOf (l :: y :: z :: tl'))
             by (destruct tl'; reflexivity).
           injection IHk as IHk. rewrite IHk. split; [|reflexivity].
           destruct (parentOf (l :: y :: z :: tl')) as [par|] eqn:Hpar.
           2: { rewrite !union_delete_l by auto. tower_solver. }
           assert (Hpk : (k ++ [false]) `prefix_of` tkey par).
           { etrans; [exact Hl|]. eapply (tpath_below h key l); [exact Hwl|].
             rewrite Etl. apply parentOf_elem, Hpar. }
           pose proof (Hnone _ Hpk) as Hn3.
           assert (Hnepk : k <> tkey par) by (intros E; rewrite <- E in Hpk;
             apply prefix_snoc_length in Hpk; lia).
           destruct (grandParentOf (l :: y :: z :: tl')) as [gp|] eqn:Hgp.
           2: { rewrite !union_delete_l by auto. tower_solver. }
           assert (Hgk : (k ++ [false]) `prefix_of` tkey gp).
           { etrans; [exact Hl|]. eapply (tpath_below h key l); [exact Hwl|].
             rewrite Etl. apply grandParentOf_elem, Hgp. }
           pose proof (Hnone _ Hgk) as Hn4.
           assert (Hnegk : k <> tkey gp) by (intros E; rewrite <- E in Hgk;
             apply prefix_snoc_length in Hgk; lia).
           rewrite union_insert_l.
           rewrite !union_delete_l by auto. tower_solver.
Qed.

Lemma tpath_wf h key s x : wf h s -> x ∈ tpath key s -> wf h x.
Proof.
  induction s as [k v|k val l IHl r IHr]; simpl; intros Hwf Hx.
  - apply list_elem_of_singleton in Hx as ->. exact Hwf.
  - destruct (descends key k).
    + apply elem_of_cons in Hx as [->|Hx]; [exact Hwf|].
      destruct Hwf as (_ & _ & Hwl & Hwr). destruct (branchBit key k); auto.
    + apply list_elem_of_singleton in Hx as ->. exact Hwf.
Qed.

Lemma tpath_parent_node key s par :
  parentOf (tpath key s) = Some par -> exists k val l r, par = TNode k val l r.
Proof.
  induction s as [k v|k val l IHl r IHr]; simpl; [discriminate|].
  destruct (descends key k); [|discriminate].
  destruct (branchBit key k).
  - destruct (tpath_head key r) as [tl Etl]. rewrite Etl in *.
    destruct tl as [|y tl]; [intros [= <-]; eauto|]. exact IHr.
  - destruct (tpath_head key l) as [tl Etl]. rewrite Etl in *.
    destruct tl as [|y tl]; [intros [= <-]; eauto|]. exact IHl.
Qed.

(** The key that takes the place of a deleted parent lies below it. *)
Lemma siblingKeyOf_below h par key :
  wf h par -> (exists k val l r, par = TNode k val l r) ->
  tkey par `prefix_of` siblingKeyOf par key /\
  (length (tkey par) < length (siblingKeyOf par key))%nat.
Proof.
  intros Hwf (k & val & l & r & ->). destruct Hwf as (Hl & Hr & _).
  unfold siblingKeyOf. simpl. destruct (Key_Equal (tkey l) key).
  - split; [eapply prefix_snoc_weaken; eauto|eapply prefix_snoc_length; eauto].
  - split; [eapply prefix_snoc_weaken; eauto|eapply prefix_snoc_length; eauto].
Qed.

Lemma wf_tdelete h key s s' : wf h s -> tdelete key s = Some s' -> wf h s'.
Proof.
  revert s'. induction s as [k v|k val l IHl r IHr]; simpl; intros s' Hwf.
  - destruct (Key_Equal key k); [discriminate|]. intros [= <-]. exact Hwf.
  - destruct (descends key k); [|intros [= <-]; exact Hwf].
    destruct Hwf as (Hl & Hr & Hwl & Hwr).
    destruct (branchBit key k).
    + destruct (tdelete key r) as [r'|] eqn:E; intros [= <-]; [|exact Hwl].
      simpl. repeat split; auto.
      etrans; [exact Hr|]. eapply tdelete_below; eauto.
    + destruct (tdelete key l) as [l'|] eqn:E; intros [= <-]; [|exact Hwr].
      simpl. repeat split; auto.
      etrans; [exact Hl|]. eapply tdelete_below; eauto.
Qed.

Lemma leaves_tdelete h key s :
  wf h s -> length key = h -> (h <= 255)%nat ->
  trieLeaves (tdelete key s) = delete key (leaves s).
Proof.
  intros Hwf Hlen Hh. induction s as [k v|k val l IHl r IHr]; simpl.
  - destruct (Key_Equal key k) eqn:E.
    + apply Key_Equal_true in E as ->. simpl. symmetry. apply delete_singleton_eq.
    + apply Key_Equal_false in E. simpl. symmetry. apply delete_singleton_ne. exact E.
  - destruct (descends key k) eqn:Hd.
    2: { simpl. symmetry. apply delete_id.
         apply (leaves_absent_not_descends h key k val l r Hwf Hlen Hd). }
    pose proof (descends_branch key k ltac:(lia) Hd) as Hkb.
    destruct Hwf as (Hl & Hr & Hwl & Hwr).
    specialize (IHl Hwl). specialize (IHr Hwr).
    destruct (branchBit key k).
    + assert (Hal : leaves l !! key = None)
        by (eapply (leaves_other_side h l key k false); eauto).
      rewrite <- union_delete_r, <- IHr by exact Hal.
      destruct (tdelete key r); simpl; [reflexivity|]. symmetry. apply (right_id_L ∅ (∪)).
    + assert (Har : leaves r !! key = None)
        by (eapply (leaves_other_side h r key k true); eauto).
      rewrite <- union_delete_l, <- IHl by exact Har.
      destruct (tdelete key l); simpl; [reflexivity|]. symmetry. apply (left_id_L ∅ (∪)).
Qed.

(** Deleting an absent key changes nothing. *)
Lemma tdelete_absent h key s :
  wf h s -> length key = h -> (h <= 255)%nat -> leaves s !! key = None ->
  tdelete key s = Some s.
Proof.
  intros Hwf Hlen Hh. induction s as [k v|k val l IHl r IHr]; simpl; intros Habs.
  - destruct (Key_Equal key k) eqn:E; [|reflexivity].
    apply Key_Equal_true in E as ->. rewrite lookup_singleton_eq in Habs. discriminate.
  - destruct (descends key k); [|reflexivity].
    apply lookup_union_None in Habs as [Hal Har].
    destruct Hwf as (_ & _ & Hwl & Hwr).
    destruct (branchBit key k); [rewrite IHr by auto|rewrite IHl by auto]; reflexivity.
Qed.

Lemma tpath_single_present h key s v0 :
  wf h s -> length key = h -> (h <= 255)%nat -> leaves s !! key = Some v0 ->
  tpath key s = [s] -> tdelete key s = None.
Proof.
  intros Hwf Hlen Hh Hpre Hp. destruct s as [k v|k val l r].
  - simpl in *. apply lookup_singleton_Some in Hpre as [-> _].
    assert (Key_Equal key key = true) as -> by (apply Key_Equal_true; reflexivity).
    reflexivity.
  - destruct (tpath_present_node _ _ _ _ _ _ _ Hwf Hlen Hh Hpre) as (y & tl & E).
    rewrite E in Hp. discriminate.
Qed.

Section DeleteUpToDate.
Variable hash : Felt -> Felt -> Felt.
Variable hashPath : Felt -> Key -> Felt.

Abbreviation upToDate := (upToDate hash hashPath).

Lemma upToDate_tdelete dirty X h key s v0 :
  wf h s -> length key = h -> (h <= 255)%nat -> leaves s !! key = Some v0 ->
  (forall par, parentOf (tpath key s) = Some par -> (2 < length (tpath key s))%nat ->
               In (siblingKeyOf par key) X) ->
  upToDate dirty s ->
  match tdelete key s with
  | Some s' => upToDate (dirty ++ X) s'
  | None => True
  end.
Proof.
  intros Hwf Hlen Hh. induction s as [k v1|k val l IHl r IHr]; intros Hpre HX Hu.
  - simpl. destruct (Key_Equal key k); [exact I|exact I].
  - pose proof (wf_node_length _ _ _ _ _ Hwf) as Hk.
    simpl tdelete. simpl tpath in HX. destruct (descends key k) eqn:Hd.
    2: { apply (upToDate_app hash hashPath). exact Hu. }
    pose proof (descends_branch key k ltac:(lia) Hd) as Hkb.
    pose proof Hwf as (Hl & Hr & Hwl & Hwr). destruct Hu as (Hv & Hul & Hur).
    simpl in Hpre. destruct (branchBit key k).
    + assert (Hal : leaves l !! key = None)
        by (eapply (leaves_other_side h l key k false); eauto).
      apply lookup_union_Some_raw in Hpre as [Hpre|[_ Hpre]]; [congruence|].
      destruct (tpath_head key r) as [tl Etl]. rewrite Etl in HX.
      destruct (tdelete key r) as [r'|] eqn:Er'; [|apply (upToDate_app hash hashPath); exact Hul].
      destruct tl as [|y tl].
      { rewrite (tpath_single_present _ _ _ _ Hwr Hlen Hh Hpre Etl) in Er'. discriminate. }
      assert (Hpar : exists par, parentOf (r :: y :: tl) = Some par).
      { destruct (parentOf_Some (r :: y :: tl)) as (? & par & ? & _ & E); [reflexivity|eauto]. }
      destruct Hpar as [par Hpar].
      assert (Hin : In (siblingKeyOf par key) X).
      { apply HX; [|simpl; lia]. exact Hpar. }
      assert (Hparin : par ∈ tpath key r) by (rewrite Etl; apply parentOf_elem, Hpar).
      destruct (siblingKeyOf_below h par key) as [Hsp Hsl].
      { exact (tpath_wf h key r par Hwr Hparin). }
      { eapply tpath_parent_node. rewrite Etl. exact Hpar. }
      pose proof (tpath_below _ _ _ _ Hwr Hparin) as Hrp.
      simpl. split; [|split].
      * intros H. exfalso.
        eapply (dirtyBelow_witness dirty X k (siblingKeyOf par key)); eauto.
        -- apply prefix_snoc_length in Hr. apply prefix_length in Hrp. lia.
        -- etrans; [eapply prefix_snoc_weaken; exact Hr|]. etrans; eauto.
      * apply (upToDate_app hash hashPath). exact Hul.
      * apply (IHr Hwr Hpre); [|exact Hur].
        rewrite Etl. intros par' Hpar' Hlen'. apply HX; [|simpl in *; lia].
        destruct tl; [simpl in Hlen'; lia|exact Hpar'].
    + assert (Har : leaves r !! key = None)
        by (eapply (leaves_other_side h r key k true); eauto).
      apply lookup_union_Some_raw in Hpre as [Hpre|[_ Hpre]]; [|congruence].
      destruct (tpath_head key l) as [tl Etl]. rewrite Etl in HX.
      destruct (tdelete key l) as [l'|] eqn:El'; [|apply (upToDate_app hash hashPath); exact Hur].
      destruct tl as [|y tl].
      { rewrite (tpath_single_present _ _ _ _ Hwl Hlen Hh Hpre Etl) in El'. discriminate. }
      assert (Hpar : exists par, parentOf (l :: y :: tl) = Some par).
      { destruct (parentOf_Some (l :: y :: tl)) as (? & par & ? & _ & E); [reflexivity|eauto]. }
      destruct Hpar as [par Hpar].
      assert (Hin : In (siblingKeyOf par key) X).
      { apply HX; [|simpl; lia]. exact Hpar. }
      assert (Hparin : par ∈ tpath key l) by (rewrite Etl; apply parentOf_elem, Hpar).
      destruct (siblingKeyOf_below h par key) as [Hsp Hsl].
      { exact (tpath_wf h key l par Hwl Hparin). }
      { eapply tpath_parent_node. rewrite Etl. exact Hpar. }
      pose proof (tpath_below _ _ _ _ Hwl Hparin) as Hlp.
      simpl. split; [|split].
      * intros H. exfalso.
        eapply (dirtyBelow_witness dirty X k (siblingKeyOf par key)); eauto.
        -- apply prefix_snoc_length in Hl. apply prefix_length in Hlp. lia.
        -- etrans; [eapply prefix_snoc_weaken; exact Hl|]. etrans; eauto.
      * apply (IHl Hwl Hpre); [|exact Hul].
        rewrite Etl. intros par' Hpar' Hlen'. apply HX; [|simpl in *; lia].
        destruct tl; [simpl in Hlen'; lia|exact Hpar'].
      * apply (upToDate_app hash hashPath). exact Hur.
Qed.

End DeleteUpToDate.

(** ** [Put] of zero, on a well-formed trie *)

Lemma list_shape {A} (p : list A) :
  p = [] \/ (exists x, p = [x]) \/ (exists x y, p = [x; y]) \/
  exists l' x y z, p = l' ++ [x; y; z].
Proof.
  destruct (snoc_cases p) as [->|(l1 & z & ->)]; [auto|].
  destruct (snoc_cases l1) as [->|(l2 & y & ->)]; [right; left; eauto|].
  destruct (snoc_cases l2) as [->|(l3 & x & ->)]; [right; right; left; eauto|].
  right; right; right. exists l3, x, y, z. rewrite <- !app_assoc. reflexivity.
Qed.

Lemma fromEnd_3 {A} (l' : list A) x y z t :
  fromEnd (l' ++ [x; y; z]) 3 t = Some (Ok x, t).
Proof.
  unfold fromEnd. rewrite length_app. change (length [x; y; z]) with 3%nat.
  destruct (3 <=? length l' + 3)%nat eqn:E; [|apply Nat.leb_gt in E; lia].
  rewrite (list_lookup_middle l' [y; z] x) by lia. reflexivity.
Qed.

Lemma last_snoc3 {A} (l' : list A) x y z : last (l' ++ [x; y; z]) = Some z.
Proof. change [x; y; z] with ([x; y] ++ [z]). rewrite app_assoc. apply last_snoc. Qed.

Lemma parentOf_snoc3 {A} (l' : list A) x y z : parentOf (l' ++ [x; y; z]) = Some y.
Proof. change [x; y; z] with ([x] ++ [y; z]). rewrite app_assoc. apply parentOf_snoc. Qed.

Lemma deleteLast_run p lst t :
  noFaults t -> last p = Some lst ->
  exists t',
    deleteLast (map tsn p) t = Some (Ok tt, t') /\
    nodes (storage t') = deleteNodes p (nodes (storage t)) /\
    rootKey t' = match p with
                 | [_] => None
                 | [par; _] => Some (siblingKeyOf par (tkey lst))
                 | _ => rootKey t
                 end /\
    dirtyNodes t' = match parentOf p with
                    | Some par =>
                        if (2 <? length p)%nat
                        then dirtyNodes t ++ [siblingKeyOf par (tkey lst)]
                        else dirtyNodes t
                    | None => dirtyNodes t
                    end /\
    sameConfig t t'.
Proof.
  intros Hnf Hlast. unfold deleteLast.
  erewrite bind_ok by (apply fromEnd_last; rewrite last_map, Hlast; reflexivity).
  cbn [tsn sn_key sn_node]. unfold bind at 1.
  rewrite storageDelete_nf by exact Hnf. rewrite length_map.
  destruct (list_shape p) as [->|[(x & ->)|[(x & y & ->)|(l' & x & y & z & ->)]]].
  - discriminate.
  - injection Hlast as <-. simpl. unfold setRootKey, deleteNodes. simpl.
    eexists. split; [reflexivity|]. repeat split.
  - injection Hlast as <-. cbn [length Nat.eqb map].
    erewrite bind_ok by reflexivity. cbn [tsn sn_key sn_node]. unfold bind.
    rewrite storageDelete_nf by (apply noFaults_delete, Hnf).
    unfold setRootKey, deleteNodes, siblingKeyOf. simpl.
    eexists. split; [reflexivity|]. repeat split.
  - rewrite last_snoc3 in Hlast. injection Hlast as ->.
    rewrite length_app. change (length [x; y; lst]) with 3%nat.
    replace (length l' + 3 =? 1)%nat with false by (symmetry; apply Nat.eqb_neq; lia).
    replace (length l' + 3 =? 2)%nat with false by (symmetry; apply Nat.eqb_neq; lia).
    erewrite bind_ok
      by (apply fromEnd_parent; rewrite parentOf_map, parentOf_snoc3; reflexivity).
    cbn [tsn sn_key sn_node]. unfold bind at 1.
    rewrite storageDelete_nf by (apply noFaults_delete, Hnf).
    rewrite map_app. cbn [map]. erewrite bind_ok by apply fromEnd_3.
    cbn [tsn sn_key sn_node]. unfold bind.
    rewrite storagePut_nf by (apply noFaults_delete, noFaults_delete, Hnf).
    unfold appendDirty, deleteNodes.
    rewrite last_snoc3, parentOf_snoc3, grandParentOf_snoc.
    replace (2 <? length l' + 3)%nat with true by (symmetry; apply Nat.ltb_lt; lia).
    eexists. split; [reflexivity|]. cbn.
    split; [reflexivity|]. split; [|split; [reflexivity|repeat split]].
    destruct l' as [|a [|b [|c l'']]]; reflexivity.
Qed.

Lemma holds_intro tr t :
  rootKey t = trieRoot tr -> nodes (storage t) = trieNodes tr ->
  (forall s, tr = Some s -> wf (height t) s) -> holds tr t.
Proof.
  destruct tr as [s|]; simpl; intros Hr Hn Hwf; [|auto].
  repeat split; auto.
Qed.

Section PutDelete.
Variable hash : Felt -> Felt -> Felt.
Variable hashPath : Felt -> Key -> Felt.

Abbreviation represents := (represents hash hashPath).
Abbreviation Put := (Put hash hashPath).

Lemma represents_readsOnly tr t t' : readsOnly t t' -> represents tr t -> represents tr t'.
Proof.
  intros Hro (Hholds & Hh & Hup).
  pose proof (readsOnly_fields _ _ Hro) as (Eh & Er & Em & Ed & Ek & En & Es & Ef).
  split; [|split].
  - destruct tr as [s|]; simpl in *; rewrite ?Er, ?En, ?Eh; exact Hholds.
  - rewrite Eh. exact Hh.
  - destruct tr as [s|]; [|exact I]. rewrite Ed. exact Hup.
Qed.

Lemma Put_zero_run (fuel : nat) (tr : option tree) (t : Trie) (key : Felt) :
  represents tr t -> noFaults t -> (height t < fuel)%nat -> key <= maxKey t ->
  exists t',
    Put fuel key 0 t = Some (Ok (trieLeaves tr !! FeltToKey (height t) key), t') /\
    represents (trieDelete (FeltToKey (height t) key) tr) t' /\
    noFaults t' /\ sameConfig t t' /\
    (trieLeaves tr !! FeltToKey (height t) key = None ->
     readsOnly t t' /\ trieDelete (FeltToKey (height t) key) tr = tr).
Proof.
  intros Hrep Hnf Hfuel Hkey. pose proof Hrep as (Hholds & Hh & Hup).
  unfold Put, putCommon, felt_Gt.
  destruct (Z.ltb_spec (maxKey t) key) as [Hlt|_]; [lia|].
  set (nodeKey := FeltToKey (height t) key).
  assert (Hlen : length nodeKey = height t) by apply FeltToKey_length.
  unfold updateLeaf. change (felt_IsZero 0) with true. cbn [negb].
  unfold try at 1, ret at 1.
  destruct tr as [s|].
  2: { destruct Hholds as (Hroot & Hnodes).
       erewrite bind_ok by (apply nodesFromRoot_empty; exact Hroot).
       cbn [length Nat.eqb]. unfold handleEmptyTrie. change (felt_IsZero 0) with true.
       exists t. split; [simpl; rewrite lookup_empty; reflexivity|].
       split; [exact Hrep|]. split; [exact Hnf|]. split; [apply sameConfig_refl|].
       intros _. split; [apply readsOnly_refl|reflexivity]. }
  destruct Hholds as (Hroot & Hnodes & Hwf). simpl trieLeaves. simpl trieDelete.
  destruct (nodesFromRoot_tree fuel nodeKey s t)
    as (t2 & Hrun & Hro); auto; try (rewrite Hlen; auto; lia).
  erewrite bind_ok by exact Hrun.
  destruct (tpath_last nodeKey s) as [sib Hsib].
  assert (Hn0 : (length (map tsn (tpath nodeKey s)) =? 0)%nat = false).
  { destruct (tpath_head nodeKey s) as [tl ->]. reflexivity. }
  rewrite Hn0.
  erewrite bind_ok by (apply fromEnd_last; rewrite last_map, Hsib; reflexivity).
  unfold deleteExistingKey. cbn [tsn sn_key sn_node].
  assert (Hnf2 : noFaults t2) by (eapply noFaults_readsOnly; eauto).
  pose proof (readsOnly_fields _ _ Hro) as (Eh & Er & Em & Ed & Ek & En & Es & Ef).
  destruct (leaves s !! nodeKey) as [v0|] eqn:Hleaf.
  - (* the leaf exists: it is deleted *)
    rewrite (tpath_present_last _ _ _ _ Hwf Hlen Hh Hleaf) in Hsib.
    injection Hsib as <-. cbn [tkey tnode leafNode Value].
    pose proof (tpath_present_last _ _ _ _ Hwf Hlen Hh Hleaf) as Hsib.
    assert (Key_Equal nodeKey nodeKey = true) as -> by (apply Key_Equal_true; reflexivity).
    destruct (deleteLast_run _ _ t2 Hnf2 Hsib) as (t3 & Hdel & Hn3 & Hr3 & Hd3 & Hc3).
    unfold try. erewrite bind_ok by exact Hdel. unfold ret.
    eexists. split; [reflexivity|].
    assert (Hcfg : sameConfig t t3).
    { eapply sameConfig_trans; [apply sameConfig_readsOnly, Hro|exact Hc3]. }
    split; [|split; [eapply noFaults_sameConfig; eauto|split; [exact Hcfg|discriminate]]].
    destruct Hcfg as (Hh3 & _).
    destruct (flatten_tdelete _ _ _ _ Hwf Hlen Hh Hleaf) as [Hf Hk].
    split; [|split; [rewrite Hh3; exact Hh|]].
    + apply holds_intro.
      * rewrite Hr3, Hk, Er, Hroot. cbn [tkey].
        destruct (tpath nodeKey s) as [|a [|b [|c tl]]]; reflexivity.
      * rewrite Hn3, En, Hnodes, Hf. reflexivity.
      * intros s' Hs'. rewrite Hh3. eapply wf_tdelete; eauto.
    + destruct (tdelete nodeKey s) as [s'|] eqn:Hs'; [|exact I].
      rewrite Hd3, Ed. cbn [tkey].
      pose proof (upToDate_tdelete hash hashPath (dirtyNodes t)) as Hupd.
      destruct (parentOf (tpath nodeKey s)) as [par|] eqn:Hpar.
      * destruct (2 <? length (tpath nodeKey s))%nat eqn:E2.
        -- specialize (Hupd [siblingKeyOf par nodeKey] _ _ _ _ Hwf Hlen Hh Hleaf).
           rewrite Hs' in Hupd. apply Hupd; [|exact Hup].
           intros par' Hpar' _. rewrite Hpar in Hpar'. injection Hpar' as <-.
           left. reflexivity.
        -- specialize (Hupd [] _ _ _ _ Hwf Hlen Hh Hleaf).
           rewrite Hs', app_nil_r in Hupd. apply Hupd; [|exact Hup].
           intros par' _ Hl. apply Nat.ltb_ge in E2. lia.
      * specialize (Hupd [] _ _ _ _ Hwf Hlen Hh Hleaf).
        rewrite Hs', app_nil_r in Hupd. apply Hupd; [|exact Hup].
        intros par' Hpar'. rewrite Hpar in Hpar'. discriminate.
  - (* no leaf at the key: nothing happens *)
    rewrite (tpath_last_key_absent _ _ _ _ Hwf Hlen Hleaf Hsib).
    unfold try, ret at 1. cbv beta iota. change (felt_IsZero 0) with true. cbv iota.
    exists t2. split; [reflexivity|].
    rewrite (tdelete_absent _ _ _ Hwf Hlen Hh Hleaf).
    split; [eapply represents_readsOnly; eauto|].
    split; [exact Hnf2|]. split; [apply sameConfig_readsOnly, Hro|].
    intros _. split; [exact Hro|reflexivity].
Qed.

End PutDelete.

(** ** The commitment pass on a well-formed trie *)

Section Clean.
Variable hash : Felt -> Felt -> Felt.
Variable hashPath : Felt -> Key -> Felt.

Abbreviation cval := (cval hash hashPath).
Abbreviation clean := (clean hash hashPath).
Abbreviation upToDate := (upToDate hash hashPath).

Lemma tkey_clean s : tkey (clean s) = tkey s.
Proof. destruct s; reflexivity. Qed.

Lemma cval_clean s : cval (clean s) = cval s.
Proof.
  induction s as [k v|k val l IHl r IHr]; simpl; [reflexivity|].
  rewrite IHl, IHr, !tkey_clean. reflexivity.
Qed.

Lemma tval_clean s : Value (tnode (clean s)) = cval s.
Proof. destruct s; reflexivity. Qed.

Lemma tnode_clean_leaf k v : tnode (clean (TLeaf k v)) = leafNode v.
Proof. reflexivity. Qed.

Lemma wf_clean h s : wf h s -> wf h (clean s).
Proof.
  induction s as [k v|k val l IHl r IHr]; simpl; [auto|].
  intros (Hl & Hr & Hwl & Hwr). rewrite !tkey_clean. auto.
Qed.

Lemma upToDate_clean_any dirty s : upToDate dirty (clean s).
Proof.
  induction s as [k v|k val l IHl r IHr]; simpl; [exact I|].
  repeat split; auto. intros _. rewrite !cval_clean, !tkey_clean. reflexivity.
Qed.

Lemma dom_flatten_clean s : dom (flatten (clean s)) = dom (flatten s).
Proof.
  induction s as [k v|k val l IHl r IHr]; simpl; [reflexivity|].
  rewrite !dom_insert_L, !dom_union_L, IHl, IHr. reflexivity.
Qed.

Lemma leaves_clean s : leaves (clean s) = leaves s.
Proof.
  induction s as [k v|k val l IHl r IHr]; simpl; [reflexivity|].
  rewrite IHl, IHr. reflexivity.
Qed.

Lemma tdepth_clean s : tdepth (clean s) = tdepth s.
Proof.
  induction s as [k v|k val l IHl r IHr]; simpl; [reflexivity|].
  rewrite IHl, IHr. reflexivity.
Qed.

End Clean.

Lemma union_same_dom {A} (m1 m2 : gmap Key A) : dom m2 ⊆ dom m1 -> m1 ∪ m2 = m1.
Proof.
  intros Hd. apply map_eq. intros i. rewrite lookup_union.
  destruct (m1 !! i) as [x|] eqn:E1; [destruct (m2 !! i); reflexivity|].
  assert (m2 !! i = None) as ->; [|reflexivity].
  apply not_elem_of_dom. intros Hi. apply Hd in Hi.
  apply elem_of_dom in Hi as [x Hx]. congruence.
Qed.

Section RootRun.
Variable hash : Felt -> Felt -> Felt.
Variable hashPath : Felt -> Key -> Felt.
Variable schedule : Key -> bool.

Abbreviation cval := (cval hash hashPath).
Abbreviation clean := (clean hash hashPath).
Abbreviation refresh := (refresh hash hashPath).
Abbreviation upToDate := (upToDate hash hashPath).
Abbreviation updateValueIfDirty := (updateValueIfDirty hash hashPath schedule).
Abbreviation runsOn := (runsOn hash hashPath).

Lemma tkey_refresh dirty s : tkey (refresh dirty s) = tkey s.
Proof. destruct s as [k v|k val l r]; simpl; [reflexivity|]. destruct (dirtyBelow dirty k); reflexivity. Qed.

Lemma wf_refresh dirty h s : wf h s -> wf h (refresh dirty s).
Proof.
  induction s as [k v|k val l IHl r IHr]; simpl; [auto|].
  intros (Hl & Hr & Hwl & Hwr). destruct (dirtyBelow dirty k); simpl; [|auto].
  rewrite !tkey_refresh. auto.
Qed.

(** With stale values only above dirty keys, the pass recomputes every
    commitment. *)
Lemma refresh_clean dirty h s : wf h s -> upToDate dirty s -> refresh dirty s = clean s.
Proof.
  induction s as [k v|k val l IHl r IHr]; [reflexivity|].
  intros Hwf Hup. cbn [refresh]. destruct (dirtyBelow dirty k) eqn:Hd.
  - destruct Hwf as (Hl & Hr & Hwl & Hwr). destruct Hup as (Hv & Hul & Hur).
    rewrite IHl, IHr by auto. simpl.
    rewrite !(Node_Hash_value hashPath (tnode (clean _))), !tval_clean. reflexivity.
  - symmetry. apply (upToDate_clean hash hashPath dirty h (TNode k val l r)); auto.
Qed.

Lemma recomputed_fields s t t' :
  recomputed s t t' ->
  height t' = height t /\ dirtyNodes t' = dirtyNodes t /\ rootKey t' = rootKey t /\
  rootKeyIsDirty t' = rootKeyIsDirty t /\ maxKey t' = maxKey t /\ (noFaults t -> noFaults t').
Proof.
  intros (_ & Ht & Hf & _).
  repeat split; try (rewrite Ht; reflexivity).
  intros H i. rewrite Hf. apply H.
Qed.

Lemma recomputed_other h s s' t t' c x :
  wf h s -> wf h s' ->
  (c ++ [x]) `prefix_of` tkey s -> (c ++ [negb x]) `prefix_of` tkey s' ->
  recomputed s t t' -> flatten s' ⊆ nodes (storage t) -> flatten s' ⊆ nodes (storage t').
Proof.
  intros Hwf Hwf' Hs Hs' (Hn & _) Hsub. rewrite Hn.
  apply map_subseteq_spec. intros i n Hi.
  apply lookup_union_Some_raw. right. split.
  - eapply (flatten_other_side h s i c x); eauto.
    etrans; [exact Hs'|]. eapply flatten_prefix; eauto.
  - eapply lookup_weaken; eauto.
Qed.

Lemma recomputed_id s t t' :
  flatten s ⊆ nodes (storage t) -> readsOnly t t' -> recomputed s t t'.
Proof.
  intros Hsub Hro.
  pose proof (readsOnly_fields _ _ Hro) as (Eh & Er & Em & Ed & Ek & En & Es & Ef).
  repeat split; auto.
  - rewrite En. symmetry. apply map_subseteq_union. exact Hsub.
  - destruct Hro as (ops & _ & ->). reflexivity.
Qed.

(** The two children one after the other, in either order. *)
Lemma children_run rec k val l r t :
  runsOn rec l -> runsOn rec r ->
  noFaults t -> flatten (TNode k val l r) ⊆ nodes (storage t) ->
  wf (height t) (TNode k val l r) ->
  forall (first : bool),
  exists t1 t2,
    rec (if first then tkey l else tkey r) t
      = Some (Ok (tnode (refresh (dirtyNodes t) (if first then l else r))), t1) /\
    rec (if first then tkey r else tkey l) t1
      = Some (Ok (tnode (refresh (dirtyNodes t) (if first then r else l))), t2) /\
    nodes (storage t2)
    = (flatten (refresh (dirtyNodes t) l) ∪ flatten (refresh (dirtyNodes t) r))
        ∪ nodes (storage t) /\
    t2 = Trie_withStorage t (storage t2) /\
    faults (storage t2) = faults (storage t) /\
    rootSlot (storage t2) = rootSlot (storage t).
Proof.
  intros Hrl Hrr Hnf Hsub Hwf first.
  pose proof (flatten_left_sub _ _ _ _ _ Hwf) as Hls.
  pose proof (flatten_right_sub _ _ _ _ _ Hwf) as Hrs.
  pose proof Hwf as (Hl & Hr & Hwl & Hwr).
  set (d := dirtyNodes t).
  assert (Hdisj : flatten (refresh d l) ##ₘ flatten (refresh d r)).
  { apply (flatten_children_disjoint (height t) k val (refresh d l) (refresh d r)).
    simpl. rewrite !tkey_refresh. auto using wf_refresh. }
  destruct first.
  - destruct (Hrl t) as (t1 & H1 & R1); auto. { etrans; eauto. }
    pose proof (recomputed_fields _ _ _ R1) as (Eh & Ed & _ & _ & _ & Hnf1).
    destruct (Hrr t1) as (t2 & H2 & R2); auto.
    { eapply (recomputed_other (height t) (refresh d l) r t t1 k false); eauto.
      - apply wf_refresh, Hwl.
      - rewrite tkey_refresh. exact Hl.
      - etrans; eauto. }
    { rewrite Eh. exact Hwr. }
    rewrite Ed in H2, R2. fold d in H1, H2, R1, R2.
    exists t1, t2. split; [exact H1|]. split; [exact H2|].
    destruct R1 as (Hn1 & Ht1 & Hf1 & Hs1). destruct R2 as (Hn2 & Ht2 & Hf2 & Hs2).
    repeat split.
    + rewrite Hn2, Hn1, (assoc_L (∪)). f_equal. apply map_union_comm.
      symmetry. exact Hdisj.
    + rewrite Ht2 at 1. rewrite Ht1 at 1. reflexivity.
    + congruence.
    + congruence.
  - destruct (Hrr t) as (t1 & H1 & R1); auto. { etrans; eauto. }
    pose proof (recomputed_fields _ _ _ R1) as (Eh & Ed & _ & _ & _ & Hnf1).
    destruct (Hrl t1) as (t2 & H2 & R2); auto.
    { eapply (recomputed_other (height t) (refresh d r) l t t1 k true); eauto.
      - apply wf_refresh, Hwr.
      - rewrite tkey_refresh. exact Hr.
      - etrans; eauto. }
    { rewrite Eh. exact Hwl. }
    rewrite Ed in H2, R2. fold d in H1, H2, R1, R2.
    exists t1, t2. split; [exact H1|]. split; [exact H2|].
    destruct R1 as (Hn1 & Ht1 & Hf1 & Hs1). destruct R2 as (Hn2 & Ht2 & Hf2 & Hs2).
    repeat split.
    + rewrite Hn2, Hn1, (assoc_L (∪)). reflexivity.
    + rewrite Ht2 at 1. rewrite Ht1 at 1. reflexivity.
    + congruence.
    + congruence.
Qed.

Lemma updateValueIfDirty_run (s : tree) :
  forall fuel, (tdepth s <= fuel)%nat -> runsOn (updateValueIfDirty fuel) s.
Proof.
  induction s as [k v|k val l IHl r IHr]; intros fuel Hfuel t Hnf Hsub Hwf;
    (destruct fuel as [|fuel]; [simpl in Hfuel; lia|]).
  - simpl tkey. simpl updateValueIfDirty. unfold bind.
    rewrite (storageGet_found k (leafNode v)); [|exact Hnf|].
    2: { eapply lookup_weaken; [|exact Hsub]. apply lookup_singleton_eq. }
    simpl in Hwf. unfold Key_Len. cbn [Trie_read Trie_withStorage height].
    rewrite Hwf, Nat.eqb_refl. unfold ret.
    eexists. split; [reflexivity|].
    apply (recomputed_id (TLeaf k v)); auto. apply readsOnly_get.
  - pose proof (wf_node_length _ _ _ _ _ Hwf) as Hk.
    pose proof (wf_child_key_nonempty _ _ _ _ _ Hwf) as [Hln Hrn].
    simpl tkey. simpl updateValueIfDirty. unfold bind at 1.
    rewrite (storageGet_found k (tnode (TNode k val l r))); [|exact Hnf|].
    2: { eapply lookup_weaken; [|exact Hsub]. apply (flatten_root (TNode k val l r)). }
    cbn [Trie_withStorage height dirtyNodes tnode Left Right].
    unfold Key_Len.
    replace (length k =? height t)%nat with false by (symmetry; apply Nat.eqb_neq; lia).
    assert (Key_Equal (tkey l) NilKey = false) as -> by (apply Key_Equal_false; exact Hln).
    assert (Key_Equal (tkey r) NilKey = false) as -> by (apply Key_Equal_false; exact Hrn).
    cbn [andb orb]. cbn [refresh].
    destruct (dirtyBelow (dirtyNodes t) k) eqn:Hdirty; cbn [negb].
    2: { unfold ret. eexists. split; [reflexivity|].
         apply (recomputed_id (TNode k val l r)); auto. apply readsOnly_get. }
    set (t0 := Trie_withStorage t (Storage_log (OpGet k) (storage t))).
    assert (Hnf0 : noFaults t0) by (intros i; apply Hnf).
    simpl in Hfuel.
    assert (Hrl : runsOn (updateValueIfDirty fuel) l) by (apply IHl; lia).
    assert (Hrr : runsOn (updateValueIfDirty fuel) r) by (apply IHr; lia).
    set (d := dirtyNodes t).
    assert (Hchildren : exists t2,
      (if (length k <=? concurrencyMaxDepth)%nat
       then updateChildTriesConcurrently (schedule k) (updateValueIfDirty fuel)
              (mkNode val (tkey l) (tkey r) None None) false false
       else updateChildTriesSerially (updateValueIfDirty fuel)
              (mkNode val (tkey l) (tkey r) None None) false false) t0
      = Some (Ok (Some (tnode (refresh d l)), Some (tnode (refresh d r))), t2) /\
      nodes (storage t2) = (flatten (refresh d l) ∪ flatten (refresh d r)) ∪ nodes (storage t0) /\
      t2 = Trie_withStorage t0 (storage t2) /\
      faults (storage t2) = faults (storage t0) /\
      rootSlot (storage t2) = rootSlot (storage t0)).
    { destruct (children_run _ k val l r t0 Hrl Hrr Hnf0 Hsub Hwf true)
        as (ta & tb & Ha & Hb & Hrest).
      destruct (children_run _ k val l r t0 Hrl Hrr Hnf0 Hsub Hwf false)
        as (tc & td & Hc & Hd & Hrest').
      change (dirtyNodes t0) with d in *.
      destruct (length k <=? concurrencyMaxDepth)%nat.
      - unfold updateChildTriesConcurrently. cbn [negb Left Right].
        destruct (schedule k); unfold try, bind, ret.
        + rewrite Ha, Hb. eauto.
        + rewrite Hc, Hd. eauto.
      - unfold updateChildTriesSerially. cbn [negb Left Right]. unfold bind, ret.
        rewrite Ha, Hb. eauto. }
    destruct Hchildren as (t2 & Hch & Hn2 & Ht2 & Hf2 & Hs2).
    unfold bind at 1. rewrite Hch. cbn [fst snd].
    unfold bind. rewrite storagePut_nf by (intros i; rewrite Hf2; apply Hnf).
    unfold ret, Node_setValue. cbn [Value Left Right LeftHash RightHash].
    eexists. split.
    { simpl. rewrite !tkey_refresh. reflexivity. }
    repeat split.
    + cbn. rewrite Hn2. simpl. rewrite !tkey_refresh, insert_union_l. reflexivity.
    + cbn. rewrite Ht2 at 1. reflexivity.
    + cbn. rewrite Hf2. reflexivity.
    + cbn. rewrite Hs2. reflexivity.
Qed.

End RootRun.

Lemma storagePutRootKey_nf k t :
  noFaults t ->
  storagePutRootKey k t
  = Some (Ok tt, Trie_withStorage t
                   (mkStorage (nodes (storage t)) (Some k)
                      (OpPutRootKey k :: oplog (storage t)) (faults (storage t)))).
Proof.
  intros H. unfold storagePutRootKey, liftStorage, Storage_PutRootKey.
  rewrite (noFaults_fault _ H). reflexivity.
Qed.

Lemma storageDeleteRootKey_nf t :
  noFaults t ->
  storageDeleteRootKey t
  = Some (Ok tt, Trie_withStorage t
                   (mkStorage (nodes (storage t)) None
                      (OpDeleteRootKey :: oplog (storage t)) (faults (storage t)))).
Proof.
  intros H. unfold storageDeleteRootKey, liftStorage, Storage_DeleteRootKey.
  rewrite (noFaults_fault _ H). reflexivity.
Qed.

Section RootSim.
Variable hash : Felt -> Felt -> Felt.
Variable hashPath : Felt -> Key -> Felt.
Variable schedule : Key -> bool.

Abbreviation represents := (represents hash hashPath).
Abbreviation commitment := (commitment hash hashPath).
Abbreviation trieClean := (trieClean hash hashPath).
Abbreviation Root := (Root hash hashPath schedule).
Abbreviation clean := (clean hash hashPath).

(** [Root] with a root key that needs no settling. *)
Lemma Root_settled_run fuel s t :
  represents (Some s) t -> noFaults t -> (height t < fuel)%nat ->
  rootKeyIsDirty t = false ->
  exists t',
    Root fuel t = Some (Ok (commitment (Some s)), t') /\
    represents (Some (clean s)) t' /\ dirtyNodes t' = [] /\ rootKeyIsDirty t' = false /\
    noFaults t' /\ sameConfig t t' /\ rootSlot (storage t') = rootSlot (storage t).
Proof.
  intros ((Hroot & Hnodes & Hwf) & Hh & Hup) Hnf Hfuel Hd.
  unfold Root. unfold bind at 1. rewrite Hd. unfold ret at 1. rewrite Hroot.
  unfold withSyncedStorage, Storage_SyncedStorage. rewrite Trie_withStorage_id.
  destruct (updateValueIfDirty_run hash hashPath schedule s fuel) with (t := t)
    as (t1 & Hrun & Hrec); auto.
  { pose proof (wf_depth _ _ Hwf). lia. }
  { rewrite Hnodes. reflexivity. }
  rewrite (refresh_clean hash hashPath _ _ _ Hwf Hup) in Hrun, Hrec.
  unfold bind at 1. rewrite Hrun. unfold bind, ret.
  eexists. split.
  { simpl. rewrite (Node_Hash_value hashPath (tnode (clean s))), tval_clean. reflexivity. }
  pose proof (recomputed_fields _ _ _ Hrec) as (Eh & Ed & Er & Ek & Em & Hnf1).
  destruct Hrec as (Hn1 & Ht1 & Hf1 & Hs1).
  split.
  2: { split; [reflexivity|]. split; [simpl; rewrite Ek; exact Hd|].
       split; [intros i; simpl; apply Hnf1, Hnf|].
       split; [repeat split; simpl; auto|simpl; exact Hs1]. }
  split; [|split].
  - simpl. rewrite Er, Hroot, tkey_clean, Hn1, Hnodes, Eh.
    repeat split; [|apply wf_clean, Hwf].
    apply union_same_dom. rewrite dom_flatten_clean. reflexivity.
  - simpl. rewrite Eh. exact Hh.
  - apply upToDate_clean_any.
Qed.

Lemma Root_run fuel tr t :
  represents tr t -> noFaults t -> (height t < fuel)%nat ->
  exists t',
    Root fuel t = Some (Ok (commitment tr), t') /\
    represents (trieClean tr) t' /\ rootKeyIsDirty t' = false /\
    (tr <> None -> dirtyNodes t' = []) /\
    noFaults t' /\ sameConfig t t'.
Proof.
  intros Hrep Hnf Hfuel.
  destruct (rootKeyIsDirty t) eqn:Hd.
  2: { destruct tr as [s|].
       - destruct (Root_settled_run fuel s t Hrep Hnf Hfuel Hd)
           as (t' & H & Hr & Hdn & Hk & Hnf' & Hc & _).
         exists t'. split; [exact H|]. split; [exact Hr|]. split; [exact Hk|].
         split; [intros _; exact Hdn|]. split; [exact Hnf'|exact Hc].
       - pose proof Hrep as ((Hroot & Hnodes) & Hh & _).
         rewrite (Root_no_rootKey hash hashPath schedule fuel t Hroot), Hd.
         exists t. split; [reflexivity|]. split; [exact Hrep|]. split; [exact Hd|].
         split; [congruence|]. split; [exact Hnf|apply sameConfig_refl]. }
  destruct tr as [s|].
  - pose proof Hrep as ((Hroot & Hnodes & Hwf) & Hh & Hup).
    set (t0 := mkTrie (height t) (rootKey t) (maxKey t)
                 (mkStorage (nodes (storage t)) (Some (tkey s))
                    (OpPutRootKey (tkey s) :: oplog (storage t)) (faults (storage t)))
                 (dirtyNodes t) false).
    assert (Hrep0 : represents (Some s) t0).
    { split; [|split]; [|exact Hh|exact Hup]. split; [exact Hroot|].
      split; [exact Hnodes|exact Hwf]. }
    assert (Hnf0 : noFaults t0) by (intros i; apply Hnf).
    destruct (Root_settled_run fuel s t0 Hrep0 Hnf0 Hfuel eq_refl)
      as (t' & H & Hr & Hdn & Hk & Hnf' & Hc & _).
    exists t'. split.
    + unfold Root in *. unfold bind at 1. rewrite Hd, Hroot.
      unfold bind at 1. rewrite storagePutRootKey_nf by exact Hnf.
      unfold bind at 1 in H. simpl in H. exact H.
    + split; [exact Hr|]. split; [exact Hk|]. split; [intros _; exact Hdn|].
      split; [exact Hnf'|exact Hc].
  - pose proof Hrep as ((Hroot & Hnodes) & Hh & _).
    rewrite (Root_no_rootKey hash hashPath schedule fuel t Hroot), Hd.
    rewrite (noFaults_fault _ Hnf).
    eexists. split; [reflexivity|].
    split; [split; [split; [reflexivity|exact Hnodes]|split; [exact Hh|exact I]]|].
    split; [reflexivity|]. split; [congruence|].
    split; [intros i; apply Hnf|repeat split].
Qed.

End RootSim.

(** ** The serial reference on a well-formed trie *)

Section SerialRun.
Variable hash : Felt -> Felt -> Felt.
Variable hashPath : Felt -> Key -> Felt.

Abbreviation refresh := (refresh hash hashPath).
Abbreviation runsOn := (runsOn hash hashPath).
Abbreviation updateValueIfDirtySerially := (updateValueIfDirtySerially hash hashPath).

Lemma updateValueIfDirtySerially_run (s : tree) :
  forall fuel, (tdepth s <= fuel)%nat -> runsOn (updateValueIfDirtySerially fuel) s.
Proof.
  induction s as [k v|k val l IHl r IHr]; intros fuel Hfuel t Hnf Hsub Hwf;
    (destruct fuel as [|fuel]; [simpl in Hfuel; lia|]).
  - simpl tkey. simpl updateValueIfDirtySerially. unfold bind.
    rewrite (storageGet_found k (leafNode v)); [|exact Hnf|].
    2: { eapply lookup_weaken; [|exact Hsub]. apply lookup_singleton_eq. }
    simpl in Hwf. unfold Key_Len. cbn [Trie_read Trie_withStorage height].
    rewrite Hwf, Nat.eqb_refl. unfold ret.
    eexists. split; [reflexivity|].
    apply (recomputed_id (TLeaf k v)); auto. apply readsOnly_get.
  - pose proof (wf_node_length _ _ _ _ _ Hwf) as Hk.
    pose proof (wf_child_key_nonempty _ _ _ _ _ Hwf) as [Hln Hrn].
    simpl tkey. simpl updateValueIfDirtySerially. unfold bind at 1.
    rewrite (storageGet_found k (tnode (TNode k val l r))); [|exact Hnf|].
    2: { eapply lookup_weaken; [|exact Hsub]. apply (flatten_root (TNode k val l r)). }
    cbn [Trie_withStorage height dirtyNodes tnode Left Right].
    unfold Key_Len.
    replace (length k =? height t)%nat with false by (symmetry; apply Nat.eqb_neq; lia).
    assert (Key_Equal (tkey l) NilKey = false) as -> by (apply Key_Equal_false; exact Hln).
    assert (Key_Equal (tkey r) NilKey = false) as -> by (apply Key_Equal_false; exact Hrn).
    cbn [andb orb]. cbn [refresh].
    destruct (dirtyBelow (dirtyNodes t) k) eqn:Hdirty; cbn [negb].
    2: { unfold ret. eexists. split; [reflexivity|].
         apply (recomputed_id (TNode k val l r)); auto. apply readsOnly_get. }
    set (t0 := Trie_withStorage t (Storage_log (OpGet k) (storage t))).
    assert (Hnf0 : noFaults t0) by (intros i; apply Hnf).
    simpl in Hfuel.
    assert (Hrl : runsOn (updateValueIfDirtySerially fuel) l) by (apply IHl; lia).
    assert (Hrr : runsOn (updateValueIfDirtySerially fuel) r) by (apply IHr; lia).
    set (d := dirtyNodes t).
    destruct (children_run hash hashPath _ k val l r t0 Hrl Hrr Hnf0 Hsub Hwf true)
      as (ta & t2 & Ha & Hb & Hn2 & Ht2 & Hf2 & Hs2).
    change (dirtyNodes t0) with d in *.
    unfold updateChildTriesSerially. cbn [negb Left Right].
    unfold bind at 1 2 3 4 5. unfold ret at 1 2 3. rewrite Ha, Hb. cbn [fst snd].
    unfold bind. rewrite storagePut_nf by (intros i; rewrite Hf2; apply Hnf).
    unfold ret, Node_setValue. cbn [Value Left Right LeftHash RightHash].
    eexists. split.
    { simpl. rewrite !tkey_refresh. reflexivity. }
    repeat split.
    + cbn. rewrite Hn2. simpl. rewrite !tkey_refresh, insert_union_l. reflexivity.
    + cbn. rewrite Ht2 at 1. reflexivity.
    + cbn. rewrite Hf2. reflexivity.
    + cbn. rewrite Hs2. reflexivity.
Qed.

End SerialRun.

(** ** [Root] for any dirty list *)

Section RootAnyDirty.
Variable hash : Felt -> Felt -> Felt.
Variable hashPath : Felt -> Key -> Felt.
Variable schedule : Key -> bool.

Abbreviation refresh := (refresh hash hashPath).

(** [Root] and [RootSerially] differ in the recursion only: whatever the
    recursion [update], when it runs on the tree as [runsOn] says, the
    commitment is that of the refreshed tree. *)
Lemma Root_shape_run (update : Key -> M Node) s t :
  holds (Some s) t -> noFaults t -> runsOn hash hashPath update s ->
  exists t',
    ((fun t =>
        if rootKeyIsDirty t then
          ((match rootKey t with
            | None => storageDeleteRootKey
            | Some k => storagePutRootKey k
            end) >>>
           (fun t => Some (Ok tt, mkTrie (height t) (rootKey t) (maxKey t) (storage t)
                                    (dirtyNodes t) false))) t
        else ret tt t) >>>
     fun t =>
     match rootKey t with
     | None => ret felt_Zero t
     | Some rk =>
         withSyncedStorage
           (let* root := update rk in
            (fun t => Some (Ok tt, Trie_withDirty t [])) >>>
            ret (Node_Hash hashPath root (path rk None))) t
     end) t
    = Some (Ok (Node_Hash hashPath (tnode (refresh (dirtyNodes t) s)) (path (tkey s) None)), t') /\
    nodes (storage t') = flatten (refresh (dirtyNodes t) s) ∪ nodes (storage t).
Proof.
  intros (Hroot & Hnodes & Hwf) Hnf Hrun.
  assert (Hgo : forall t0,
    rootKey t0 = Some (tkey s) -> nodes (storage t0) = nodes (storage t) ->
    height t0 = height t -> dirtyNodes t0 = dirtyNodes t -> noFaults t0 ->
    exists t',
      withSyncedStorage
        (let* root := update (tkey s) in
         (fun t => Some (Ok tt, Trie_withDirty t [])) >>>
         ret (Node_Hash hashPath root (path (tkey s) None))) t0
      = Some (Ok (Node_Hash hashPath (tnode (refresh (dirtyNodes t) s))
                    (path (tkey s) None)), t') /\
      nodes (storage t') = flatten (refresh (dirtyNodes t) s) ∪ nodes (storage t)).
  { intros t0 Hr0 Hn0 Hh0 Hd0 Hnf0.
    unfold withSyncedStorage, Storage_SyncedStorage. rewrite Trie_withStorage_id.
    destruct (Hrun t0) as (t1 & H1 & (Hn1 & _)); auto.
    { rewrite Hn0, Hnodes. reflexivity. }
    { rewrite Hh0. exact Hwf. }
    rewrite Hd0 in H1, Hn1.
    unfold bind at 1. rewrite H1. unfold bind, ret.
    eexists. split; [reflexivity|]. simpl. rewrite Hn1, Hn0. reflexivity. }
  unfold bind at 1. destruct (rootKeyIsDirty t) eqn:Hd.
  - rewrite Hroot. unfold bind at 1. rewrite storagePutRootKey_nf by exact Hnf.
    cbn [rootKey Trie_withStorage]. rewrite Hroot.
    apply Hgo; auto.
  - unfold ret at 1. rewrite Hroot. apply Hgo; auto.
Qed.

Lemma Root_holds_run fuel s t :
  holds (Some s) t -> noFaults t -> (height t < fuel)%nat ->
  exists t',
    Root hash hashPath schedule fuel t
    = Some (Ok (Node_Hash hashPath (tnode (refresh (dirtyNodes t) s)) (path (tkey s) None)), t') /\
    nodes (storage t') = flatten (refresh (dirtyNodes t) s) ∪ nodes (storage t).
Proof.
  intros Hholds Hnf Hfuel. apply Root_shape_run; auto.
  apply updateValueIfDirty_run. destruct Hholds as (_ & _ & Hwf).
  pose proof (wf_depth _ _ Hwf). lia.
Qed.

Lemma RootSerially_holds_run fuel s t :
  holds (Some s) t -> noFaults t -> (height t < fuel)%nat ->
  exists t',
    RootSerially hash hashPath fuel t
    = Some (Ok (Node_Hash hashPath (tnode (refresh (dirtyNodes t) s)) (path (tkey s) None)), t') /\
    nodes (storage t') = flatten (refresh (dirtyNodes t) s) ∪ nodes (storage t).
Proof.
  intros Hholds Hnf Hfuel. apply Root_shape_run; auto.
  apply updateValueIfDirtySerially_run. destruct Hholds as (_ & _ & Hwf).
  pose proof (wf_depth _ _ Hwf). lia.
Qed.

End RootAnyDirty.

(** ** The tree is determined by its leaves *)

Lemma prefix_antisym (a b : Key) : a `prefix_of` b -> b `prefix_of` a -> a = b.
Proof.
  intros H1 H2. apply prefix_length_eq; [exact H1|]. apply prefix_length in H2. exact H2.
Qed.

(** The key of a branching node is the common prefix of any leaf on its left
    and any leaf on its right. *)
Lemma node_key_leaves h k val l r a va b vb :
  wf h (TNode k val l r) -> leaves l !! a = Some va -> leaves r !! b = Some vb ->
  commonPrefix a b = k.
Proof.
  intros (Hl & Hr & Hwl & Hwr) Ha Hb.
  apply (leaves_prefix h) in Ha as [Ha _]; [|exact Hwl].
  apply (leaves_prefix h) in Hb as [Hb _]; [|exact Hwr].
  apply (commonPrefix_diverge k a b false); [etrans; eauto|simpl; etrans; eauto].
Qed.

Lemma node_key_unique h k1 val1 l1 r1 k2 val2 l2 r2 :
  wf h (TNode k1 val1 l1 r1) -> wf h (TNode k2 val2 l2 r2) ->
  leaves (TNode k1 val1 l1 r1) = leaves (TNode k2 val2 l2 r2) -> k1 `prefix_of` k2.
Proof.
  intros Hwf1 Hwf2 Heq.
  destruct (leaves_nonempty l2) as (a & va & Ha).
  destruct (leaves_nonempty r2) as (b & vb & Hb).
  rewrite <- (node_key_leaves _ _ _ _ _ _ _ _ _ Hwf2 Ha Hb).
  pose proof Hwf2 as (Hl2 & Hr2 & Hwl2 & Hwr2).
  assert (Hb' : leaves r2 !! b = Some vb) by exact Hb.
  apply commonPrefix_greatest.
  - assert (H : leaves (TNode k1 val1 l1 r1) !! a = Some va).
    { rewrite Heq. simpl. apply lookup_union_Some_raw. left. exact Ha. }
    apply (leaves_prefix h) in H as [H _]; [exact H|exact Hwf1].
  - assert (H : leaves (TNode k1 val1 l1 r1) !! b = Some vb).
    { rewrite Heq. simpl. apply lookup_union_Some_raw. right. split; [|exact Hb].
      eapply (leaves_other_side h l2 b k2 false); eauto.
      apply (leaves_prefix h) in Hb' as [Hb' _]; [|exact Hwr2]. simpl. etrans; eauto. }
    apply (leaves_prefix h) in H as [H _]; [exact H|exact Hwf1].
Qed.

Lemma leaves_side_eq h k val1 l1 r1 val2 l2 r2 :
  wf h (TNode k val1 l1 r1) -> wf h (TNode k val2 l2 r2) ->
  leaves (TNode k val1 l1 r1) = leaves (TNode k val2 l2 r2) ->
  leaves l1 = leaves l2 /\ leaves r1 = leaves r2.
Proof.
  intros (Hl1 & Hr1 & Hwl1 & Hwr1) (Hl2 & Hr2 & Hwl2 & Hwr2) Heq. simpl in Heq.
  assert (Hside : forall (x : bool) (s s' : tree) i,
    wf h s -> (k ++ [x]) `prefix_of` tkey s ->
    wf h s' -> (k ++ [negb x]) `prefix_of` tkey s' ->
    is_Some (leaves s' !! i) -> leaves s !! i = None).
  { intros x s s' i Hws Hs Hws' Hs' [v Hv].
    eapply (leaves_other_side h s i k x); eauto.
    apply (leaves_prefix h) in Hv as [Hv _]; [|exact Hws']. etrans; eauto. }
  split; apply map_eq; intros i.
  - assert (H := f_equal (fun m => m !! i) Heq). simpl in H. rewrite !lookup_union in H.
    destruct (leaves l1 !! i) as [v1|] eqn:E1.
    + rewrite (Hside true r1 l1 i) in H by eauto.
      rewrite (Hside true r2 l1 i) in H by eauto.
      destruct (leaves l2 !! i); cbv in H; congruence.
    + destruct (leaves l2 !! i) as [v2|] eqn:E2; [|reflexivity].
      rewrite (Hside true r1 l2 i) in H by eauto.
      rewrite (Hside true r2 l2 i) in H by eauto. cbv in H. congruence.
  - assert (H := f_equal (fun m => m !! i) Heq). simpl in H. rewrite !lookup_union in H.
    destruct (leaves r1 !! i) as [v1|] eqn:E1.
    + rewrite (Hside false l1 r1 i) in H by eauto.
      rewrite (Hside false l2 r1 i) in H by eauto.
      destruct (leaves r2 !! i); cbv in H; congruence.
    + destruct (leaves r2 !! i) as [v2|] eqn:E2; [|reflexivity].
      rewrite (Hside false l1 r2 i) in H by eauto.
      rewrite (Hside false l2 r2 i) in H by eauto. cbv in H. congruence.
Qed.

Lemma leaf_not_node h k v k' val l r :
  wf h (TNode k' val l r) -> leaves (TLeaf k v) = leaves (TNode k' val l r) -> False.
Proof.
  intros Hwf Heq.
  destruct (leaves_nonempty l) as (a & va & Ha).
  destruct (leaves_nonempty r) as (b & vb & Hb).
  pose proof Hwf as (Hl & Hr & Hwl & Hwr).
  assert (Ha' : leaves (TLeaf k v) !! a = Some va).
  { rewrite Heq. simpl. apply lookup_union_Some_raw. left. exact Ha. }
  assert (Hb' : leaves (TLeaf k v) !! b = Some vb).
  { rewrite Heq. simpl. apply lookup_union_Some_raw. right. split; [|exact Hb].
    eapply (leaves_other_side h l b k' false); eauto.
    apply (leaves_prefix h) in Hb as [Hb _]; [|exact Hwr]. simpl. etrans; eauto. }
  simpl in Ha', Hb'.
  apply lookup_singleton_Some in Ha' as [<- _].
  apply lookup_singleton_Some in Hb' as [E _].
  apply (leaves_prefix h) in Ha as [Ha _]; [|exact Hwl].
  apply (leaves_prefix h) in Hb as [Hb _]; [|exact Hwr].
  rewrite <- E in Hb.
  eapply (prefix_snoc_neq k' k false); [etrans; eauto|simpl; etrans; eauto].
Qed.

Section Canonical.
Variable hash : Felt -> Felt -> Felt.
Variable hashPath : Felt -> Key -> Felt.

Abbreviation cval := (cval hash hashPath).
Abbreviation commitment := (commitment hash hashPath).

(** Two well-formed trees with the same leaves have the same root key and
    the same commitment. *)
Lemma tree_canonical h s1 :
  forall s2, wf h s1 -> wf h s2 -> leaves s1 = leaves s2 ->
             tkey s1 = tkey s2 /\ cval s1 = cval s2.
Proof.
  induction s1 as [k1 v1|k1 val1 l1 IHl r1 IHr]; intros [k2 v2|k2 val2 l2 r2] Hwf1 Hwf2 Heq.
  - simpl in Heq.
    assert (H : ({[k1 := v1]} : gmap Key Felt) !! k2 = Some v2)
      by (rewrite Heq; apply lookup_singleton_eq).
    apply lookup_singleton_Some in H as [-> ->]. split; reflexivity.
  - exfalso. eapply leaf_not_node; eauto.
  - exfalso. eapply leaf_not_node; eauto.
  - assert (k1 = k2) as ->.
    { apply prefix_antisym; eapply node_key_unique; eauto. }
    destruct (leaves_side_eq _ _ _ _ _ _ _ _ Hwf1 Hwf2 Heq) as [El Er].
    destruct Hwf1 as (_ & _ & Hwl1 & Hwr1). destruct Hwf2 as (_ & _ & Hwl2 & Hwr2).
    destruct (IHl l2 Hwl1 Hwl2 El) as [Ekl Ecl].
    destruct (IHr r2 Hwr1 Hwr2 Er) as [Ekr Ecr].
    simpl. split; [reflexivity|]. rewrite Ekl, Ekr, Ecl, Ecr. reflexivity.
Qed.

Lemma trie_canonical h tr1 tr2 :
  (forall s, tr1 = Some s -> wf h s) -> (forall s, tr2 = Some s -> wf h s) ->
  trieLeaves tr1 = trieLeaves tr2 -> commitment tr1 = commitment tr2.
Proof.
  intros Hwf1 Hwf2 Heq. destruct tr1 as [s1|], tr2 as [s2|]; simpl in *.
  - destruct (tree_canonical h s1 s2) as [-> ->]; auto.
  - exfalso. destruct (leaves_nonempty s1) as (a & va & Ha).
    rewrite Heq, lookup_empty in Ha. discriminate.
  - exfalso. destruct (leaves_nonempty s2) as (a & va & Ha).
    rewrite <- Heq, lookup_empty in Ha. discriminate.
  - reflexivity.
Qed.

End Canonical.

(** ** Keys of field elements *)

Lemma FeltToKey_lookup h f i :
  (i < h)%nat -> FeltToKey h f !! i = Some (Z.testbit f (Z.of_nat (h - 1 - i))).
Proof.
  intros Hi. unfold FeltToKey. rewrite list_lookup_fmap.
  rewrite lookup_seq_lt by exact Hi. reflexivity.
Qed.

Lemma FeltToKey_inj h a b :
  0 <= a < 2 ^ Z.of_nat h -> 0 <= b < 2 ^ Z.of_nat h ->
  FeltToKey h a = FeltToKey h b -> a = b.
Proof.
  intros Ha Hb Heq. apply Z.bits_inj'. intros n Hn.
  destruct (Z_lt_le_dec n (Z.of_nat h)) as [Hlt|Hge].
  - assert (Hi : (h - 1 - Z.to_nat n < h)%nat) by lia.
    pose proof (FeltToKey_lookup h a _ Hi) as Ea.
    pose proof (FeltToKey_lookup h b _ Hi) as Eb.
    rewrite Heq in Ea. rewrite Ea in Eb. injection Eb as Eb.
    replace (Z.of_nat (h - 1 - (h - 1 - Z.to_nat n))) with n in Eb by lia.
    exact Eb.
  - rewrite <- (Z.mod_small a (2 ^ Z.of_nat h)), <- (Z.mod_small b (2 ^ Z.of_nat h)) by lia.
    rewrite !Z.mod_pow2_bits_high by lia. reflexivity.
Qed.

Lemma configured_maxKey t : configured t -> 0 <= maxKey t < 2 ^ Z.of_nat (height t).
Proof.
  intros [Hh ->]. unfold felt_Bits in Hh.
  destruct (decide (height t <= 251)%nat) as [Hle|Hgt].
  - rewrite maxKey_pow2 by exact Hle.
    assert (0 < 2 ^ Z.of_nat (height t)) by (apply Z.pow_pos_nonneg; lia). lia.
  - assert (height t = 252%nat) as -> by lia. vm_compute. split; [discriminate|reflexivity].
Qed.

Lemma configured_sameConfig t t' : sameConfig t t' -> configured t -> configured t'.
Proof. intros (Eh & Em & _) [Hh Hm]. unfold configured. rewrite Eh, Em. auto. Qed.

Lemma configured_height t : configured t -> (height t <= 255)%nat.
Proof. intros [Hh _]. unfold felt_Bits in Hh. lia. Qed.

Lemma represents_empty hash hashPath t :
  rootKey t = None -> nodes (storage t) = ∅ -> (height t <= 255)%nat ->
  represents hash hashPath None t.
Proof. intros Hr Hn Hh. split; [split; auto|split; [exact Hh|exact I]]. Qed.

(** ** Insertion order *)

Lemma foldl_insert_list_to_map {A} (l : list (Key * A)) :
  NoDup (l.*1) ->
  forall m : gmap Key A,
    foldl (fun m kv => <[ fst kv := snd kv ]> m) m l = list_to_map l ∪ m.
Proof.
  induction l as [|[k v] l IH]; simpl; intros Hnd m.
  - symmetry. apply (left_id_L ∅ (∪)).
  - apply NoDup_cons in Hnd as [Hk Hnd].
    rewrite IH by exact Hnd. rewrite <- insert_union_l.
    symmetry. apply insert_union_r. apply not_elem_of_list_to_map_1. exact Hk.
Qed.

Lemma keyedLeaves_NoDup h (l : list (Felt * Felt)) :
  Forall (fun kv => 0 <= fst kv < 2 ^ Z.of_nat h) l ->
  NoDup (map fst l) -> NoDup ((keyedLeaves h l).*1).
Proof.
  intros Hrange Hnd. unfold keyedLeaves.
  replace ((map (fun kv => (FeltToKey h (fst kv), snd kv)) l).*1)
    with (FeltToKey h <$> map fst l).
  2: { induction l as [|kv l IH]; simpl; [reflexivity|]. f_equal.
       apply IH; [eapply Forall_inv_tail; eauto|]. apply NoDup_cons in Hnd. tauto. }
  apply NoDup_fmap_2_strong; [|exact Hnd].
  intros a b Ha Hb Heq.
  apply list_elem_of_fmap in Ha as (kva & -> & Ha).
  apply list_elem_of_fmap in Hb as (kvb & -> & Hb).
  rewrite Forall_forall in Hrange.
  apply (FeltToKey_inj h); auto.
Qed.

Lemma keyedLeaves_Permutation h (l1 l2 : list (Felt * Felt)) :
  l1 ≡ₚ l2 -> keyedLeaves h l1 ≡ₚ keyedLeaves h l2.
Proof. intros H. unfold keyedLeaves. apply Permutation_map. exact H. Qed.

Section Order.
Variable hash : Felt -> Felt -> Felt.
Variable hashPath : Felt -> Key -> Felt.

Abbreviation represents := (represents hash hashPath).
Abbreviation trieInsert := (trieInsert hash hashPath).
Abbreviation commitment := (commitment hash hashPath).
Abbreviation putAll := (putAll hash hashPath).

Lemma trieLeaves_trieInsert tr t (key : Key) v :
  represents tr t -> length key = height t ->
  trieLeaves (trieInsert key v tr) = <[ key := v ]> (trieLeaves tr).
Proof.
  intros (Hholds & Hh & _) Hlen. destruct tr as [s|]; simpl.
  - destruct Hholds as (_ & _ & Hwf). eapply leaves_tinsert; eauto.
  - symmetry. apply insert_empty.
Qed.

Lemma putAll_run fuel (l : list (Felt * Felt)) :
  forall tr t,
    represents tr t -> noFaults t -> (height t < fuel)%nat ->
    Forall (fun kv => fst kv <= maxKey t /\ snd kv <> 0) l ->
    exists t' tr',
      putAll fuel l t = Some t' /\ represents tr' t' /\ noFaults t' /\ sameConfig t t' /\
      trieLeaves tr'
      = foldl (fun m kv => <[ fst kv := snd kv ]> m) (trieLeaves tr)
          (keyedLeaves (height t) l).
Proof.
  induction l as [|[k v] l IH]; intros tr t Hrep Hnf Hfuel Hall.
  - exists t, tr. simpl. split; [reflexivity|]. split; [exact Hrep|].
    split; [exact Hnf|]. split; [apply sameConfig_refl|reflexivity].
  - apply Forall_cons in Hall as [[Hk Hv] Hall]. simpl in Hk, Hv.
    destruct (Put_nonzero_run hash hashPath fuel tr t k v Hrep Hnf Hfuel Hk Hv)
      as (t1 & Hput & Hrep1 & Hnf1 & Hc1).
    pose proof Hc1 as (Eh & Em & _).
    destruct (IH _ t1 Hrep1 Hnf1) as (t' & tr' & Hall' & Hrep' & Hnf' & Hc' & Hleaves).
    { rewrite Eh. exact Hfuel. }
    { rewrite Em. exact Hall. }
    exists t', tr'. simpl. rewrite Hput.
    split; [exact Hall'|]. split; [exact Hrep'|]. split; [exact Hnf'|].
    split; [eapply sameConfig_trans; eauto|].
    rewrite Hleaves, Eh.
    rewrite (trieLeaves_trieInsert tr t) by (auto using FeltToKey_length). reflexivity.
Qed.

End Order.

(** ** Tries built from the empty trie *)

Section BuiltInv.
Variable hash : Felt -> Felt -> Felt.
Variable hashPath : Felt -> Key -> Felt.

Abbreviation represents := (represents hash hashPath).
Abbreviation built := (built hash hashPath).
Abbreviation Put := (Put hash hashPath).
Abbreviation Root := (Root hash hashPath).

Lemma Put_run fuel tr t key v :
  represents tr t -> noFaults t -> (height t < fuel)%nat -> key <= maxKey t ->
  exists r t',
    Put fuel key v t = Some (Ok r, t') /\
    represents (triePut hash hashPath (FeltToKey (height t) key) v tr) t' /\
    noFaults t' /\ sameConfig t t'.
Proof.
  intros Hrep Hnf Hfuel Hkey. unfold triePut.
  destruct (felt_IsZero v) eqn:Hz.
  - apply felt_IsZero_true in Hz as ->.
    destruct (Put_zero_run hash hashPath fuel tr t key Hrep Hnf Hfuel Hkey)
      as (t' & H & Hr & Hn & Hc & _). eauto 10.
  - apply felt_IsZero_false in Hz.
    destruct (Put_nonzero_run hash hashPath fuel tr t key v Hrep Hnf Hfuel Hkey Hz)
      as (t' & H & Hr & Hn & Hc). eauto 10.
Qed.

(** A built trie holds a well-formed tree, over a storage that does not
    fail, with the configuration it was constructed with. *)
Lemma built_represents t :
  built t -> exists tr, represents tr t /\ noFaults t /\ configured t.
Proof.
  induction 1 as [t Hr Hn Hc Hnf|t fuel key value r t' _ IH Hfuel Hput
                  |t key r t' _ IH Hget|t schedule fuel r t' _ IH Hfuel Hroot].
  - exists None. split; [|auto].
    apply represents_empty; auto. apply configured_height, Hc.
  - destruct IH as (tr & Hrep & Hnf & Hc).
    destruct (Z_lt_le_dec (maxKey t) key) as [Hgt|Hle].
    + destruct (Put_out_of_range hash hashPath fuel t key value [] Hgt) as [E _].
      rewrite E in Hput. injection Hput as _ <-. eauto.
    + destruct (Put_run fuel tr t key value Hrep Hnf Hfuel Hle)
        as (r' & t'' & E & Hrep' & Hnf' & Hc').
      rewrite E in Hput. injection Hput as _ <-.
      eexists. split; [exact Hrep'|]. split; [exact Hnf'|].
      eapply configured_sameConfig; eauto.
  - destruct IH as (tr & Hrep & Hnf & Hc).
    rewrite Get_reads_leaf_only in Hget. injection Hget as _ <-.
    exists tr. split; [eapply represents_readsOnly; [apply readsOnly_get|exact Hrep]|].
    split; [intros i; apply Hnf|exact Hc].
  - destruct IH as (tr & Hrep & Hnf & Hc).
    destruct (Root_run hash hashPath schedule fuel tr t Hrep Hnf Hfuel)
      as (t'' & E & Hrep' & _ & _ & Hnf' & Hc').
    rewrite E in Hroot. injection Hroot as _ <-.
    eexists. split; [exact Hrep'|]. split; [exact Hnf'|].
    eapply configured_sameConfig; eauto.
Qed.

End BuiltInv.

(** ** The shape of a descent *)

Lemma grandParentOf_map {A B} (f : A -> B) (l : list A) :
  grandParentOf (map f l) = option_map f (grandParentOf l).
Proof.
  induction l as [|a l IH]; simpl; [reflexivity|].
  rewrite IH. destruct l as [|b [|c [|d l']]]; reflexivity.
Qed.

Lemma tpath_step key x y tl :
  tpath key x = x :: y :: tl ->
  exists k val l r, x = TNode k val l r /\ (y = l \/ y = r) /\ tpath key y = y :: tl.
Proof.
  destruct x as [k v|k val l r]; simpl; [discriminate|].
  destruct (descends key k); [|discriminate].
  intros [= E]. exists k, val, l, r. split; [reflexivity|].
  destruct (branchBit key k).
  - destruct (tpath_head key r) as [tl' Er]. rewrite Er in E. injection E as -> ->.
    split; [right; reflexivity|exact Er].
  - destruct (tpath_head key l) as [tl' El]. rewrite El in E. injection E as -> ->.
    split; [left; reflexivity|exact El].
Qed.

Lemma tpath_suffix h key s l1 x l2 :
  wf h s -> tpath key s = l1 ++ x :: l2 -> tpath key x = x :: l2 /\ wf h x.
Proof.
  revert s. induction l1 as [|a l1 IH]; intros s Hwf Hp.
  - simpl in Hp. destruct (tpath_head key s) as [tl E]. rewrite E in Hp.
    injection Hp as -> ->. split; [exact E|exact Hwf].
  - simpl in Hp. destruct (tpath_head key s) as [tl E]. rewrite E in Hp.
    injection Hp as <- ->.
    destruct l1 as [|b l1']; simpl in E.
    + destruct (tpath_step key s x l2 E) as (k & val & l & r & -> & Hy & Ey).
      destruct Hwf as (_ & _ & Hwl & Hwr).
      apply (IH x); [destruct Hy as [->| ->]; assumption|exact Ey].
    + destruct (tpath_step key s b (l1' ++ x :: l2) E) as (k & val & l & r & -> & Hy & Ey).
      destruct Hwf as (_ & _ & Hwl & Hwr).
      apply (IH b); [destruct Hy as [->| ->]; assumption|exact Ey].
Qed.

(** From a node of the descent to the next one the key grows. *)
Lemma tpath_step_longer h key x y tl :
  wf h x -> tpath key x = x :: y :: tl -> (length (tkey x) < length (tkey y))%nat.
Proof.
  intros Hwf Hp. destruct (tpath_step key x y tl Hp) as (k & val & l & r & -> & Hy & _).
  destruct Hwf as (Hl & Hr & _). simpl.
  destruct Hy as [->| ->]; eapply prefix_snoc_length; eauto.
Qed.

(** The last three nodes of a descent have keys of growing length, and the
    sibling of the last one lies below the last but one. *)
Lemma tpath_last_three h key s l' gp par lst :
  wf h s -> tpath key s = l' ++ [gp; par; lst] ->
  (length (tkey gp) < length (tkey par))%nat /\
  (length (tkey par) < length (tkey lst))%nat /\
  (length (tkey par) < length (siblingKeyOf par (tkey lst)))%nat /\
  siblingKeyOf par (tkey lst) <> tkey lst.
Proof.
  intros Hwf Hp.
  destruct (tpath_suffix h key s l' gp [par; lst] Hwf Hp) as [Egp Hwgp].
  change (l' ++ [gp; par; lst]) with (l' ++ [gp] ++ par :: [lst]) in Hp.
  rewrite app_assoc in Hp.
  destruct (tpath_suffix h key s _ par [lst] Hwf Hp) as [Epar Hwpar].
  split; [eapply tpath_step_longer; eauto|].
  split; [eapply tpath_step_longer; eauto|].
  destruct (tpath_step key par lst [] Epar) as (k & val & l & r & -> & Hy & _).
  pose proof (Key_Equal_children _ _ _ _ _ Hwpar) as Hlr.
  destruct Hwpar as (Hl & Hr & _). unfold siblingKeyOf. simpl.
  destruct Hy as [->| ->].
  - assert (Key_Equal (tkey l) (tkey l) = true) as -> by (apply Key_Equal_true; reflexivity).
    split; [eapply prefix_snoc_length; eauto|].
    apply Key_Equal_false in Hlr. congruence.
  - rewrite Hlr. split; [eapply prefix_snoc_length; eauto|].
    apply Key_Equal_false in Hlr. exact Hlr.
Qed.

Lemma tpath_last_two h key s l' par lst :
  wf h s -> tpath key s = l' ++ [par; lst] ->
  (length (tkey par) < length (tkey lst))%nat /\
  (length (tkey par) < length (siblingKeyOf par (tkey lst)))%nat /\
  siblingKeyOf par (tkey lst) <> tkey lst.
Proof.
  intros Hwf Hp.
  destruct (tpath_suffix h key s l' par [lst] Hwf Hp) as [Epar Hwpar].
  split; [eapply tpath_step_longer; eauto|].
  destruct (tpath_step key par lst [] Epar) as (k & val & l & r & -> & Hy & _).
  pose proof (Key_Equal_children _ _ _ _ _ Hwpar) as Hlr.
  destruct Hwpar as (Hl & Hr & _). unfold siblingKeyOf. simpl.
  destruct Hy as [->| ->].
  - assert (Key_Equal (tkey l) (tkey l) = true) as -> by (apply Key_Equal_true; reflexivity).
    split; [eapply prefix_snoc_length; eauto|].
    apply Key_Equal_false in Hlr. congruence.
  - rewrite Hlr. split; [eapply prefix_snoc_length; eauto|].
    apply Key_Equal_false in Hlr. exact Hlr.
Qed.

Lemma tpath_sub h key s x : wf h s -> x ∈ tpath key s -> flatten x ⊆ flatten s.
Proof.
  induction s as [k v|k val l IHl r IHr]; simpl tpath; intros Hwf Hx.
  - apply list_elem_of_singleton in Hx as ->. reflexivity.
  - destruct (descends key k).
    + apply elem_of_cons in Hx as [->|Hx]; [reflexivity|].
      pose proof (flatten_left_sub _ _ _ _ _ Hwf) as Hls.
      pose proof (flatten_right_sub _ _ _ _ _ Hwf) as Hrs.
      destruct Hwf as (_ & _ & Hwl & Hwr).
      destruct (branchBit key k).
      * etrans; [apply IHr; auto|exact Hrs].
      * etrans; [apply IHl; auto|exact Hls].
    + apply list_elem_of_singleton in Hx as ->. reflexivity.
Qed.

(** The sibling of the node that ends a descent is stored. *)
Lemma sibling_stored h key s l' par lst :
  wf h s -> tpath key s = l' ++ [par; lst] ->
  is_Some (flatten s !! siblingKeyOf par (tkey lst)).
Proof.
  intros Hwf Hp.
  destruct (tpath_suffix h key s l' par [lst] Hwf Hp) as [Epar Hwpar].
  assert (Hin : par ∈ tpath key s).
  { rewrite Hp. apply elem_of_app. right. apply list_elem_of_here. }
  pose proof (tpath_sub h key s par Hwf Hin) as Hsub.
  destruct (tpath_step key par lst [] Epar) as (k & val & l & r & -> & _ & _).
  pose proof (flatten_left_sub _ _ _ _ _ Hwpar) as Hls.
  pose proof (flatten_right_sub _ _ _ _ _ Hwpar) as Hrs.
  unfold siblingKeyOf. simpl.
  destruct (Key_Equal (tkey l) (tkey lst)).
  - exists (tnode r). eapply lookup_weaken; [|exact Hsub].
    eapply lookup_weaken; [|exact Hrs]. apply flatten_root.
  - exists (tnode l). eapply lookup_weaken; [|exact Hsub].
    eapply lookup_weaken; [|exact Hls]. apply flatten_root.
Qed.

Lemma holds_nodes_root tr t :
  holds tr t -> nodes (storage t) = trieNodes tr /\ rootKey t = trieRoot tr.
Proof. destruct tr as [s|]; simpl; intros H; tauto. Qed.

(** * The properties of the write path and of the commitment *)

Section Claims.
Variable hash : Felt -> Felt -> Felt.
Variable hashPath : Felt -> Key -> Felt.

Abbreviation represents := (represents hash hashPath).
Abbreviation built := (built hash hashPath).
Abbreviation Put := (Put hash hashPath).
Abbreviation Root := (Root hash hashPath).
Abbreviation commitment := (commitment hash hashPath).

Lemma built_leaf_lookup t tr (key : Key) :
  represents tr t -> length key = height t ->
  nodes (storage t) !! key = leafNode <$> trieLeaves tr !! key.
Proof. intros (Hholds & _) Hlen. apply holds_leaf_lookup; auto. Qed.

(** C1: [Put] of a value that is not zero at a key within range, then
    [Get] of that key.  On every trie state: when the [Put] succeeds, the
    storage holds the new leaf at the full-depth key and a [Get] whose
    storage read does not fail returns the value.  On every trie built from
    the empty trie (empty, the key present, or the key absent among others):
    the [Put] does succeed and the [Get] returns the value. *)
Theorem Put_then_Get (fuel : nat) (t : Trie) (key value : Felt) :
  value <> 0 -> key <= maxKey t ->
  (forall old t',
     Put fuel key value t = Some (Ok old, t') ->
     nodes (storage t') !! FeltToKey (height t') key = Some (leafNode value) /\
     (Storage_fault (storage t') = None ->
      exists t'', Get key t' = Some (Ok value, t''))) /\
  (built t -> (height t < fuel)%nat ->
   exists old t' t'',
     Put fuel key value t = Some (Ok old, t') /\ Get key t' = Some (Ok value, t'')).
Proof.
  intros Hv Hkey. split.
  - intros old t' H. eapply Put_then_Get_any; eauto.
  - intros Hb Hfuel. destruct (built_represents hash hashPath t Hb) as (tr & Hrep & Hnf & _).
    destruct (Put_nonzero_run hash hashPath fuel tr t key value Hrep Hnf Hfuel Hkey Hv)
      as (t' & Hput & _ & Hnf' & _).
    destruct (Put_then_Get_any hash hashPath fuel t key value _ t' Hv Hput) as [_ Hget].
    destruct (Hget (noFaults_fault _ Hnf')) as [t'' Hg]. eauto.
Qed.

(** [Put] of zero at a key without a leaf, on any trie state: only reads
    happen, and the result is nil or the error of a read. *)
Lemma Put_zero_absent_any (fuel : nat) (t : Trie) (key : Felt) r t' :
  nodes (storage t) !! FeltToKey (height t) key = None ->
  Put fuel key 0 t = Some (r, t') ->
  readsOnly t t' /\ (r = Ok None \/ exists e, r = Err e).
Proof.
  intros Habs H. unfold Put, putCommon in H.
  destruct (felt_Gt key (maxKey t)).
  { injection H as <- <-. split; [apply readsOnly_refl|right; eauto]. }
  revert Habs H. generalize (FeltToKey (height t) key) as nodeKey. intros nodeKey Habs H.
  unfold updateLeaf in H. change (felt_IsZero 0) with true in H. cbn [negb] in H.
  unfold try at 1, ret at 1 in H.
  apply bind_Some in H as [(l & t2 & H1 & H2)|(e & H1 & ->)].
  2: { apply nodesFromRoot_reads in H1 as [Hro _]. split; [exact Hro|right; eauto]. }
  apply nodesFromRoot_reads in H1 as [Hro Hl]. specialize (Hl l eq_refl).
  destruct (length l =? 0)%nat.
  { unfold handleEmptyTrie in H2. change (felt_IsZero 0) with true in H2.
    injection H2 as <- <-. split; [exact Hro|left; reflexivity]. }
  apply bind_Some in H2 as [(sibling & t3 & H2 & H3)|(e & H2 & _)].
  2: { apply fromEnd_Some in H2 as (x & [=] & _). }
  apply fromEnd_Some in H2 as (x & [= <-] & -> & Hlast).
  assert (Hne : nodeKey <> sn_key sibling).
  { intros ->. rewrite Forall_forall in Hl.
    assert (Hin : sibling ∈ l) by (eapply list_elem_of_lookup_2; eauto).
    apply Hl in Hin. unfold stored in Hin. congruence. }
  unfold try, deleteExistingKey in H3.
  apply Key_Equal_false in Hne. rewrite Hne in H3.
  unfold ret at 1 in H3. cbv beta iota in H3.
  change (felt_IsZero 0) with true in H3. cbv iota in H3.
  injection H3 as <- <-. split; [exact Hro|left; reflexivity].
Qed.


(** [Put] of zero at a key that has a leaf, on a trie built from the
    empty trie.  The call returns the old value of the leaf; afterwards
    [Get] of the key returns zero and the storage holds no node at the
    full-depth key.  With [ns] the descent from the root to the leaf: when
    the leaf was the sole node the root key is cleared; otherwise the parent
    of the leaf is removed too, the sibling stays stored, and it becomes the
    root when the descent had length two, or is linked into the grandparent
    in place of the parent when it was longer. *)
Lemma Put_zero_deletes_built (fuel : nat) (t : Trie) (key : Felt) (leaf : Node) :
  built t -> (height t < fuel)%nat -> key <= maxKey t ->
  nodes (storage t) !! FeltToKey (height t) key = Some leaf ->
  exists ns t1 t',
    nodesFromRoot fuel (FeltToKey (height t) key) t = Some (Ok ns, t1) /\
    last ns = Some (mkStorageNode (FeltToKey (height t) key) leaf) /\
    Put fuel key 0 t = Some (Ok (Some (Value leaf)), t') /\
    (exists t'', Get key t' = Some (Ok felt_Zero, t'')) /\
    nodes (storage t') !! FeltToKey (height t) key = None /\
    match parentOf ns with
    | None => rootKey t' = None
    | Some parent =>
        let siblingKey :=
          if Key_Equal (Left (sn_node parent)) (FeltToKey (height t) key)
          then Right (sn_node parent) else Left (sn_node parent) in
        nodes (storage t') !! sn_key parent = None /\
        is_Some (nodes (storage t) !! siblingKey) /\
        nodes (storage t') !! siblingKey = nodes (storage t) !! siblingKey /\
        match grandParentOf ns with
        | None => rootKey t' = Some siblingKey
        | Some grandParent =>
            rootKey t' = rootKey t /\
            nodes (storage t') !! sn_key grandParent
            = Some (if Key_Equal (Left (sn_node grandParent)) (sn_key parent)
                    then Node_setLeft (sn_node grandParent) siblingKey
                    else Node_setRight (sn_node grandParent) siblingKey)
        end
    end.
Proof.
  intros Hb Hfuel Hkey Hpre.
  destruct (built_represents hash hashPath t Hb) as (tr & Hrep & Hnf & _).
  set (nodeKey := FeltToKey (height t) key) in *.
  assert (Hlen : length nodeKey = height t) by apply FeltToKey_length.
  pose proof (built_leaf_lookup t tr nodeKey Hrep Hlen) as Hlook.
  rewrite Hpre in Hlook.
  destruct (trieLeaves tr !! nodeKey) as [v0|] eqn:Hleaf; [|discriminate].
  simpl in Hlook. injection Hlook as ->.
  destruct tr as [s|]; [|simpl in Hleaf; rewrite lookup_empty in Hleaf; discriminate].
  simpl in Hleaf. pose proof Hrep as ((Hroot & Hnodes & Hwf) & Hh & Hup).
  destruct (nodesFromRoot_tree fuel nodeKey s t)
    as (t1 & Hrun & Hro); auto; try (rewrite Hlen; auto; lia).
  destruct (Put_zero_run hash hashPath fuel (Some s) t key Hrep Hnf Hfuel Hkey)
    as (t' & Hput & Hrep' & Hnf' & (Eh & _) & _).
  fold nodeKey in Hput, Hrep'. simpl trieLeaves in Hput. rewrite Hleaf in Hput.
  pose proof (tpath_present_last _ _ _ _ Hwf Hlen Hh Hleaf) as Hlast.
  destruct (flatten_tdelete _ _ _ _ Hwf Hlen Hh Hleaf) as [Hf Hk].
  destruct Hrep' as (Hholds' & _).
  assert (Hlen' : length nodeKey = height t') by (rewrite Eh; exact Hlen).
  pose proof (holds_leaf_lookup _ _ nodeKey Hholds' Hlen') as Hgone.
  simpl trieDelete in Hgone. rewrite (leaves_tdelete _ _ _ Hwf Hlen Hh) in Hgone.
  rewrite lookup_delete_eq in Hgone. simpl in Hgone.
  destruct (holds_nodes_root _ _ Hholds') as [Hn' Hr']. simpl trieDelete in Hn', Hr'.
  rewrite Hf in Hn'. rewrite Hk in Hr'.
  exists (map tsn (tpath nodeKey s)), t1, t'.
  split; [exact Hrun|]. split; [rewrite last_map, Hlast; reflexivity|].
  split; [exact Hput|].
  split.
  { rewrite Get_reads_leaf_only, (noFaults_fault _ Hnf'), Eh. fold nodeKey.
    rewrite Hgone. eauto. }
  split; [exact Hgone|].
  rewrite parentOf_map, grandParentOf_map.
  unfold deleteNodes in Hn'. rewrite Hlast in Hn'. cbn [tkey] in Hn'.
  destruct (list_shape (tpath nodeKey s))
    as [E|[(x & E)|[(par & lst & E)|(l' & gp & par & lst & E)]]];
    rewrite E in *.
  - discriminate.
  - simpl. exact Hr'.
  - simpl in Hlast. injection Hlast as ->.
    destruct (tpath_last_two _ _ _ [] _ _ Hwf E) as (Hl1 & Hl2 & Hne).
    destruct (sibling_stored _ _ _ [] _ _ Hwf E) as [sn Hsn].
    cbn [tkey] in *. cbn [parentOf grandParentOf option_map tsn sn_key sn_node] in *.
    fold (siblingKeyOf par nodeKey).
    assert (Hpk : tkey par <> nodeKey) by (intros E'; rewrite E' in Hl1; lia).
    assert (Hsp : tkey par <> siblingKeyOf par nodeKey) by (intros E'; rewrite <- E' in Hl2; lia).
    rewrite Hn', Hnodes.
    split; [apply lookup_delete_eq|]. split; [eauto|].
    split; [|exact Hr'].
    rewrite lookup_delete_ne by exact Hsp. apply lookup_delete_ne. congruence.
  - rewrite last_snoc3 in Hlast. injection Hlast as ->.
    destruct (tpath_last_three _ _ _ _ _ _ _ Hwf E) as (Hl0 & Hl1 & Hl2 & Hne).
    change (l' ++ [gp; par; TLeaf nodeKey v0])
      with (l' ++ [gp] ++ [par; TLeaf nodeKey v0]) in E.
    rewrite app_assoc in E.
    destruct (sibling_stored _ _ _ _ _ _ Hwf E) as [sn Hsn].
    rewrite <- app_assoc in E. cbn [app] in E.
    rewrite parentOf_snoc3, grandParentOf_snoc in *.
    cbn [tkey option_map tsn sn_key sn_node] in *.
    fold (siblingKeyOf par nodeKey) in *.
    assert (Hpk : tkey par <> nodeKey) by (intros E'; rewrite E' in Hl1; lia).
    assert (Hsp : tkey par <> siblingKeyOf par nodeKey) by (intros E'; rewrite <- E' in Hl2; lia).
    assert (Hgp : tkey gp <> tkey par) by (intros E'; rewrite E' in Hl0; lia).
    assert (Hgs : tkey gp <> siblingKeyOf par nodeKey) by (intros E'; rewrite <- E' in Hl2; lia).
    rewrite Hn', Hnodes.
    split; [rewrite lookup_insert_ne by exact Hgp; apply lookup_delete_eq|].
    split; [eauto|].
    split.
    { rewrite lookup_insert_ne by exact Hgs.
      rewrite lookup_delete_ne by exact Hsp. apply lookup_delete_ne. congruence. }
    split; [|apply lookup_insert_eq].
    rewrite Hr', Hroot. destruct l' as [|a [|b [|c l'']]]; reflexivity.
Qed.

Lemma updateValueIfDirty_nodirty schedule fuel s t :
  noFaults t -> nodes (storage t) !! tkey s = Some (tnode s) -> wf (height t) s ->
  dirtyNodes t = [] ->
  updateValueIfDirty hash hashPath schedule (S fuel) (tkey s) t
  = Some (Ok (tnode s), Trie_read (tkey s) t).
Proof.
  intros Hnf Hs Hwf Hd. simpl. unfold bind.
  rewrite (storageGet_found _ _ _ Hnf Hs).
  cbn [Trie_withStorage height dirtyNodes]. rewrite Hd.
  destruct s as [k v|k val l r].
  - simpl in *. unfold Key_Len. rewrite Hwf, Nat.eqb_refl. reflexivity.
  - pose proof (wf_node_length _ _ _ _ _ Hwf) as Hk.
    pose proof (wf_child_key_nonempty _ _ _ _ _ Hwf) as [Hln Hrn].
    cbn [tkey tnode Left Right]. unfold Key_Len.
    replace (length k =? height t)%nat with false by (symmetry; apply Nat.eqb_neq; lia).
    assert (Key_Equal (tkey l) NilKey = false) as -> by (apply Key_Equal_false; exact Hln).
    assert (Key_Equal (tkey r) NilKey = false) as -> by (apply Key_Equal_false; exact Hrn).
    reflexivity.
Qed.

(** [Root] on a trie whose root key is settled and whose dirty list is
    empty reads the root node and nothing else. *)
Lemma Root_nodirty_run schedule fuel s t :
  represents (Some s) t -> noFaults t -> (0 < fuel)%nat ->
  rootKeyIsDirty t = false -> dirtyNodes t = [] ->
  exists t',
    Root schedule fuel t
      = Some (Ok (Node_Hash hashPath (tnode s) (path (tkey s) None)), t') /\
    readsOnly t t' /\ opsSince t t' [OpGet (tkey s)].
Proof.
  intros ((Hroot & Hnodes & Hwf) & _) Hnf Hfuel Hdirty Hd.
  destruct fuel as [|fuel]; [lia|].
  unfold Root. unfold bind at 1. rewrite Hdirty. unfold ret at 1. rewrite Hroot.
  unfold withSyncedStorage, Storage_SyncedStorage. rewrite Trie_withStorage_id.
  unfold bind at 1. rewrite (updateValueIfDirty_nodirty schedule fuel s t); auto.
  2: { rewrite Hnodes. apply flatten_root. }
  unfold bind, ret. eexists. split; [reflexivity|].
  split; [|reflexivity].
  exists [OpGet (tkey s)]. split; [repeat constructor|].
  unfold Trie_withDirty, Trie_read, Trie_withStorage, Storage_log. simpl.
  rewrite <- Hd. destruct t as [? ? ? [] ? ?]; reflexivity.
Qed.

(** On the tries built from the empty trie (they hold no proof nodes),
    two [Root] calls in a row return the same commitment, and the
    second one only reads: it writes no node, and neither puts nor deletes
    the root key. *)
Lemma Root_twice_built (schedule1 schedule2 : Key -> bool) (fuel : nat) (t : Trie) :
  built t -> (height t < fuel)%nat ->
  exists c t1 t2,
    Root schedule1 fuel t = Some (Ok c, t1) /\
    Root schedule2 fuel t1 = Some (Ok c, t2) /\
    readsOnly t1 t2.
Proof.
  intros Hb Hfuel.
  destruct (built_represents hash hashPath t Hb) as (tr & Hrep & Hnf & _).
  destruct (Root_run hash hashPath schedule1 fuel tr t Hrep Hnf Hfuel)
    as (t1 & H1 & Hrep1 & Hk1 & Hd1 & Hnf1 & Hc1).
  exists (commitment tr), t1.
  destruct tr as [s|].
  - assert (Hd : dirtyNodes t1 = []) by (apply Hd1; discriminate).
    destruct (Root_nodirty_run schedule2 fuel _ t1 Hrep1 Hnf1) as (t2 & H2 & Hro & _);
      auto; try lia.
    exists t2. split; [exact H1|]. split; [|exact Hro].
    rewrite H2. simpl. rewrite (Node_Hash_value hashPath (tnode _)), tval_clean, tkey_clean.
    reflexivity.
  - exists t1. split; [exact H1|]. split; [|apply readsOnly_refl].
    destruct Hrep1 as ((Hroot1 & _) & _).
    rewrite (Root_no_rootKey hash hashPath schedule2 fuel t1 Hroot1), Hk1. reflexivity.
Qed.

(** C2: the pairs of a list with distinct keys within range and values
    that are not zero, put into an empty trie in the order of the list or
    in any other order, give the same commitment. *)
Theorem Root_insertion_order (schedule1 schedule2 : Key -> bool) (fuel : nat)
    (t0 : Trie) (l1 l2 : list (Felt * Felt)) :
  rootKey t0 = None -> nodes (storage t0) = ∅ -> configured t0 -> noFaults t0 ->
  (height t0 < fuel)%nat ->
  NoDup (map fst l1) ->
  Forall (fun kv => 0 <= fst kv <= maxKey t0 /\ snd kv <> 0) l1 ->
  l1 ≡ₚ l2 ->
  exists t1 t2 c t1' t2',
    putAll hash hashPath fuel l1 t0 = Some t1 /\
    putAll hash hashPath fuel l2 t0 = Some t2 /\
    Root schedule1 fuel t1 = Some (Ok c, t1') /\
    Root schedule2 fuel t2 = Some (Ok c, t2').
Proof.
  intros Hroot Hnodes Hcfg Hnf Hfuel Hnd Hall Hperm.
  pose proof (configured_maxKey _ Hcfg) as Hmax.
  assert (Hrep0 : represents None t0).
  { apply represents_empty; auto. apply configured_height, Hcfg. }
  assert (Hall2 : Forall (fun kv => 0 <= fst kv <= maxKey t0 /\ snd kv <> 0) l2).
  { rewrite <- Hperm. exact Hall. }
  assert (Hweak : forall l,
    Forall (fun kv => 0 <= fst kv <= maxKey t0 /\ snd kv <> 0) l ->
    Forall (fun kv => fst kv <= maxKey t0 /\ snd kv <> 0) l).
  { intros l H. eapply Forall_impl; [exact H|]. intros kv [[_ H1] H2]. auto. }
  assert (Hrange : forall l,
    Forall (fun kv => 0 <= fst kv <= maxKey t0 /\ snd kv <> 0) l ->
    Forall (fun kv => 0 <= fst kv < 2 ^ Z.of_nat (height t0)) l).
  { intros l H. eapply Forall_impl; [exact H|]. intros kv [[H0 H1] _]. lia. }
  destruct (putAll_run hash hashPath fuel l1 None t0 Hrep0 Hnf Hfuel (Hweak _ Hall))
    as (t1 & tr1 & Hp1 & Hrep1 & Hnf1 & (Eh1 & _) & Hl1).
  destruct (putAll_run hash hashPath fuel l2 None t0 Hrep0 Hnf Hfuel (Hweak _ Hall2))
    as (t2 & tr2 & Hp2 & Hrep2 & Hnf2 & (Eh2 & _) & Hl2).
  destruct (Root_run hash hashPath schedule1 fuel tr1 t1 Hrep1 Hnf1)
    as (t1' & Hr1 & _); [rewrite Eh1; exact Hfuel|].
  destruct (Root_run hash hashPath schedule2 fuel tr2 t2 Hrep2 Hnf2)
    as (t2' & Hr2 & _); [rewrite Eh2; exact Hfuel|].
  exists t1, t2, (commitment tr1), t1', t2'.
  split; [exact Hp1|]. split; [exact Hp2|]. split; [exact Hr1|].
  rewrite Hr2. do 3 f_equal. symmetry.
  apply (trie_canonical hash hashPath (height t0)).
  - intros s ->. destruct Hrep1 as ((_ & _ & Hwf) & _). rewrite <- Eh1. exact Hwf.
  - intros s ->. destruct Hrep2 as ((_ & _ & Hwf) & _). rewrite <- Eh2. exact Hwf.
  - rewrite Hl1, Hl2.
    assert (Hnd1 : NoDup ((keyedLeaves (height t0) l1).*1))
      by (apply keyedLeaves_NoDup; auto).
    assert (Hnd2 : NoDup ((keyedLeaves (height t0) l2).*1)).
    { apply keyedLeaves_NoDup; auto. rewrite <- Hperm. exact Hnd. }
    rewrite !foldl_insert_list_to_map by assumption.
    f_equal. apply list_to_map_proper; [exact Hnd1|].
    apply keyedLeaves_Permutation, Hperm.
Qed.

(** The concurrent routine whose left task comes first is the serial
    routine, as long as the left task returns no error: on every state and
    for every recursive call. *)
Lemma concurrent_leftFirst_serial (rec : Key -> M Node) root lp rp t pair t' :
  updateChildTriesSerially rec root lp rp t = Some (Ok pair, t') <->
  updateChildTriesConcurrently true rec root lp rp t = Some (Ok pair, t').
Proof.
  unfold updateChildTriesSerially, updateChildTriesConcurrently, try, bind, ret, raise.
  destruct (negb lp); destruct (negb rp);
    repeat match goal with
           | |- context [match rec ?k ?s with _ => _ end] =>
               destruct (rec k s) as [[[?|?] ?]|]
           end; split; intros H; try discriminate; try exact H.
Qed.


End Claims.

(** ** The claims at concrete tries *)

Lemma built_emptyTrie (h : nat) :
  (h <= felt_Bits)%nat -> built Example.hash Example.hashPath (Example.emptyTrie h).
Proof.
  intros Hh. apply built_new; [reflexivity|reflexivity|split; [exact Hh|reflexivity]|].
  intros n. reflexivity.
Qed.

Lemma built_put k v t :
  built Example.hash Example.hashPath t -> (height t < Example.fuel)%nat ->
  built Example.hash Example.hashPath (Example.put k v t).
Proof.
  intros Hb Hh. unfold Example.put, Example.state.
  destruct (Put Example.hash Example.hashPath Example.fuel k v t) as [[r t']|] eqn:E.
  - eapply built_Put; eauto.
  - exact Hb.
Qed.

Lemma built_trie3 : built Example.hash Example.hashPath Example.trie3.
Proof.
  unfold Example.trie3.
  repeat (apply built_put; [|vm_compute; lia]).
  apply built_emptyTrie. vm_compute. lia.
Qed.

Lemma built_dirty3 : built Example.hash Example.hashPath Example.dirty3.
Proof.
  unfold Example.dirty3. apply built_put; [|vm_compute; lia].
  unfold Example.settled3, Example.state.
  destruct (Root Example.hash Example.hashPath Example.schedule Example.fuel Example.trie3)
    as [[r t']|] eqn:E.
  - eapply built_Root; [exact built_trie3| |exact E]. vm_compute; lia.
  - exact built_trie3.
Qed.

Lemma holds_dirty3 : holds (Some TreeExample.tree3) Example.dirty3.
Proof.
  assert (E : height Example.dirty3 = 4%nat) by (vm_compute; reflexivity).
  split; [vm_compute; reflexivity|]. split; [vm_compute; reflexivity|].
  rewrite E. cbn [wf TreeExample.tree3 tkey]. split; [exists [false; true]; reflexivity|].
  split; [exists []; reflexivity|]. split; [reflexivity|].
  split; [exists [true]; reflexivity|]. split; [exists [true]; reflexivity|].
  split; reflexivity.
Qed.

(** C1 at the trie with the keys 1, 5 and 7: the key 5 overwritten, the key
    2 inserted. *)
Lemma Put_then_Get_witness :
  (exists old t' t'',
     Put Example.hash Example.hashPath Example.fuel 5 51 Example.trie3 = Some (Ok old, t') /\
     Get 5 t' = Some (Ok 51, t'')) /\
  (exists old t' t'',
     Put Example.hash Example.hashPath Example.fuel 2 20 Example.trie3 = Some (Ok old, t') /\
     Get 2 t' = Some (Ok 20, t'')).
Proof.
  split.
  - apply (Put_then_Get Example.hash Example.hashPath Example.fuel Example.trie3 5 51);
      [discriminate|vm_compute; discriminate|exact built_trie3|vm_compute; lia].
  - apply (Put_then_Get Example.hash Example.hashPath Example.fuel Example.trie3 2 20);
      [discriminate|vm_compute; discriminate|exact built_trie3|vm_compute; lia].
Defined.

(** C2 with the pairs (5, 50), (7, 70) and (1, 10) at height 4, in two
    orders. *)
Lemma Root_insertion_order_witness :
  exists t1 t2 c t1' t2',
    putAll Example.hash Example.hashPath Example.fuel [(5, 50); (7, 70); (1, 10)]
      (Example.emptyTrie 4) = Some t1 /\
    putAll Example.hash Example.hashPath Example.fuel [(1, 10); (5, 50); (7, 70)]
      (Example.emptyTrie 4) = Some t2 /\
    Root Example.hash Example.hashPath (fun _ => true) Example.fuel t1 = Some (Ok c, t1') /\
    Root Example.hash Example.hashPath (fun _ => false) Example.fuel t2 = Some (Ok c, t2').
Proof.
  apply (Root_insertion_order Example.hash Example.hashPath (fun _ => true) (fun _ => false)
           Example.fuel (Example.emptyTrie 4)).
  - reflexivity.
  - reflexivity.
  - split; [vm_compute; lia|reflexivity].
  - intros n. reflexivity.
  - vm_compute; lia.
  - simpl. apply (bool_decide_unpack _). vm_compute. exact I.
  - repeat (constructor; [split; [vm_compute; split; discriminate|discriminate]|]).
    constructor.
  - symmetry. apply (Permutation_cons_append [(5, 50); (7, 70)] (1, 10)).
Defined.







(** * Further properties of the trie operations *)

(** ** The commitment as a function of the contents *)

Ltac leaf_map_solver :=
  apply map_eq; intros ?;
  repeat first [rewrite lookup_insert | rewrite lookup_delete];
  repeat case_decide; subst; try congruence; try reflexivity.

Lemma leafUpdate_commute (k1 k2 : Key) (v1 v2 : Felt) (m : gmap Key Felt) :
  k1 <> k2 ->
  leafUpdate k2 v2 (leafUpdate k1 v1 m) = leafUpdate k1 v1 (leafUpdate k2 v2 m).
Proof.
  intros Hne. unfold leafUpdate.
  destruct (felt_IsZero v1), (felt_IsZero v2); leaf_map_solver.
Qed.

Lemma leafUpdate_overwrite (k : Key) (v1 v2 : Felt) (m : gmap Key Felt) :
  leafUpdate k v2 (leafUpdate k v1 m) = leafUpdate k v2 m.
Proof.
  unfold leafUpdate.
  destruct (felt_IsZero v1), (felt_IsZero v2); leaf_map_solver.
Qed.

Lemma leafUpdate_undo (k : Key) (v : Felt) (m : gmap Key Felt) :
  m !! k = None -> leafUpdate k 0 (leafUpdate k v m) = m.
Proof.
  intros Habs. unfold leafUpdate. simpl.
  destruct (felt_IsZero v); leaf_map_solver.
Qed.

Lemma leafUpdate_other (k k' : Key) (v : Felt) (m : gmap Key Felt) :
  k' <> k -> leafUpdate k v m !! k' = m !! k'.
Proof.
  intros Hne. unfold leafUpdate. destruct (felt_IsZero v).
  - rewrite lookup_delete. case_decide; congruence.
  - rewrite lookup_insert. case_decide; congruence.
Qed.

Section Contents.
Variable hash : Felt -> Felt -> Felt.
Variable hashPath : Felt -> Key -> Felt.

Abbreviation represents := (represents hash hashPath).
Abbreviation built := (built hash hashPath).
Abbreviation Put := (Put hash hashPath).
Abbreviation Root := (Root hash hashPath).
Abbreviation commitment := (commitment hash hashPath).

Lemma represents_wf tr t s : represents tr t -> tr = Some s -> wf (height t) s.
Proof. intros Hrep ->. destruct Hrep as ((_ & _ & H) & _). exact H. Qed.

Lemma trieLeaves_triePut tr t (key : Key) v :
  represents tr t -> length key = height t ->
  trieLeaves (triePut hash hashPath key v tr) = leafUpdate key v (trieLeaves tr).
Proof.
  intros Hrep Hlen. unfold triePut, leafUpdate.
  destruct (felt_IsZero v).
  - destruct tr as [s|]; simpl.
    + apply (leaves_tdelete (height t)); auto.
      * eapply represents_wf; eauto.
      * destruct Hrep as (_ & H & _). exact H.
    + symmetry. apply delete_empty.
  - eapply trieLeaves_trieInsert; eauto.
Qed.

(** The leaves in the storage are the leaves of the tree. *)
Lemma leafValue_represents tr t (key : Key) :
  represents tr t -> length key = height t ->
  leafValue t key = trieLeaves tr !! key.
Proof.
  intros Hrep Hlen. unfold leafValue.
  rewrite (built_leaf_lookup hash hashPath t tr key Hrep Hlen).
  destruct (trieLeaves tr !! key); reflexivity.
Qed.

Lemma trieLeaves_length tr t (key : Key) v :
  represents tr t -> trieLeaves tr !! key = Some v -> length key = height t.
Proof.
  intros Hrep H. destruct tr as [s|]; simpl in H; [|rewrite lookup_empty in H; discriminate].
  eapply leaves_prefix; [eapply represents_wf; eauto|exact H].
Qed.

Lemma sameLeaves_trieLeaves tr1 tr2 t1 t2 :
  represents tr1 t1 -> represents tr2 t2 ->
  sameLeaves t1 t2 <-> (height t1 = height t2 /\ trieLeaves tr1 = trieLeaves tr2).
Proof.
  intros H1 H2. split.
  - intros [Hh Hl]. split; [exact Hh|]. apply map_eq. intros key.
    destruct (decide (length key = height t1)) as [Hlen|Hlen].
    + rewrite <- (leafValue_represents tr1 t1 key H1 Hlen).
      rewrite <- (leafValue_represents tr2 t2 key H2) by congruence.
      apply Hl, Hlen.
    + destruct (trieLeaves tr1 !! key) eqn:E1.
      { exfalso. apply Hlen. eapply trieLeaves_length; eauto. }
      destruct (trieLeaves tr2 !! key) eqn:E2; [|reflexivity].
      exfalso. apply Hlen. rewrite Hh. eapply trieLeaves_length; eauto.
  - intros [Hh Hl]. split; [exact Hh|]. intros key Hlen.
    rewrite (leafValue_represents tr1 t1 key H1 Hlen).
    rewrite (leafValue_represents tr2 t2 key H2) by congruence.
    rewrite Hl. reflexivity.
Qed.

(** Tries with the same leaves have the same commitment. *)
Lemma Root_same_leaves_run schedule1 schedule2 fuel tr1 tr2 t1 t2 :
  represents tr1 t1 -> represents tr2 t2 -> noFaults t1 -> noFaults t2 ->
  height t1 = height t2 -> (height t1 < fuel)%nat ->
  trieLeaves tr1 = trieLeaves tr2 ->
  exists c t1' t2',
    Root schedule1 fuel t1 = Some (Ok c, t1') /\
    Root schedule2 fuel t2 = Some (Ok c, t2').
Proof.
  intros H1 H2 Hnf1 Hnf2 Hh Hfuel Hl.
  destruct (Root_run hash hashPath schedule1 fuel tr1 t1 H1 Hnf1 Hfuel) as (t1' & Hr1 & _).
  destruct (Root_run hash hashPath schedule2 fuel tr2 t2 H2 Hnf2) as (t2' & Hr2 & _);
    [rewrite <- Hh; exact Hfuel|].
  exists (commitment tr1), t1', t2'. split; [exact Hr1|].
  rewrite Hr2. do 3 f_equal. symmetry.
  apply (trie_canonical hash hashPath (height t1)); [| |exact Hl].
  - intros s E. eapply represents_wf; eauto.
  - intros s E. rewrite Hh. eapply represents_wf; eauto.
Qed.

(** [Get] on a trie that holds a tree. *)
Lemma Get_represents tr t key :
  represents tr t -> noFaults t ->
  Get key t = Some (Ok (default 0 (trieLeaves tr !! FeltToKey (height t) key)),
                    Trie_read (FeltToKey (height t) key) t).
Proof.
  intros Hrep Hnf. unfold Get, try. rewrite (storageGet_nf _ _ Hnf).
  rewrite (built_leaf_lookup hash hashPath t tr _ Hrep (FeltToKey_length _ _)).
  destruct (trieLeaves tr !! FeltToKey (height t) key); reflexivity.
Qed.

(** Two [Put] calls in a row on a trie that holds a tree. *)
Lemma Put_Put_run fuel tr t k1 v1 k2 v2 :
  represents tr t -> noFaults t -> (height t < fuel)%nat ->
  k1 <= maxKey t -> k2 <= maxKey t ->
  exists r1 t1 r2 t2 tr2,
    Put fuel k1 v1 t = Some (Ok r1, t1) /\
    Put fuel k2 v2 t1 = Some (Ok r2, t2) /\
    represents tr2 t2 /\ noFaults t2 /\ sameConfig t t2 /\
    trieLeaves tr2 =
      leafUpdate (FeltToKey (height t) k2) v2
        (leafUpdate (FeltToKey (height t) k1) v1 (trieLeaves tr)).
Proof.
  intros Hrep Hnf Hfuel Hk1 Hk2.
  destruct (Put_run hash hashPath fuel tr t k1 v1 Hrep Hnf Hfuel Hk1)
    as (r1 & t1 & Hp1 & Hrep1 & Hnf1 & Hc1).
  pose proof Hc1 as (Eh & Em & _).
  destruct (Put_run hash hashPath fuel _ t1 k2 v2 Hrep1 Hnf1) as (r2 & t2 & Hp2 & Hrep2 & Hnf2 & Hc2);
    [rewrite Eh; exact Hfuel|rewrite Em; exact Hk2|].
  exists r1, t1, r2, t2, (triePut hash hashPath (FeltToKey (height t1) k2) v2
       (triePut hash hashPath (FeltToKey (height t) k1) v1 tr)).
  split; [exact Hp1|]. split; [exact Hp2|]. split; [exact Hrep2|]. split; [exact Hnf2|].
  split; [eapply sameConfig_trans; eauto|].
  rewrite (trieLeaves_triePut _ t1 _ _ Hrep1 (FeltToKey_length _ _)).
  rewrite (trieLeaves_triePut _ t _ _ Hrep (FeltToKey_length _ _)).
  rewrite Eh. reflexivity.
Qed.

Lemma Put_leaves_run fuel tr t k v :
  represents tr t -> noFaults t -> (height t < fuel)%nat -> k <= maxKey t ->
  exists r t1 tr1,
    Put fuel k v t = Some (Ok r, t1) /\
    represents tr1 t1 /\ noFaults t1 /\ sameConfig t t1 /\
    trieLeaves tr1 = leafUpdate (FeltToKey (height t) k) v (trieLeaves tr).
Proof.
  intros Hrep Hnf Hfuel Hk.
  destruct (Put_run hash hashPath fuel tr t k v Hrep Hnf Hfuel Hk)
    as (r1 & t1 & Hp1 & Hrep1 & Hnf1 & Hc1).
  exists r1, t1, (triePut hash hashPath (FeltToKey (height t) k) v tr).
  split; [exact Hp1|]. split; [exact Hrep1|]. split; [exact Hnf1|]. split; [exact Hc1|].
  apply (trieLeaves_triePut _ t _ _ Hrep (FeltToKey_length _ _)).
Qed.

Lemma same_leaves_close schedule1 schedule2 fuel tra trb ta tb :
  represents tra ta -> represents trb tb -> noFaults ta -> noFaults tb ->
  height ta = height tb -> (height ta < fuel)%nat ->
  trieLeaves tra = trieLeaves trb ->
  sameLeaves ta tb /\
  exists c ta' tb',
    Root schedule1 fuel ta = Some (Ok c, ta') /\
    Root schedule2 fuel tb = Some (Ok c, tb').
Proof.
  intros Ha Hb Hnfa Hnfb Hh Hfuel Hl. split.
  - apply (sameLeaves_trieLeaves tra trb); auto.
  - eapply Root_same_leaves_run; eauto.
Qed.

Lemma FeltToKey_neq t k1 k2 :
  configured t -> 0 <= k1 <= maxKey t -> 0 <= k2 <= maxKey t -> k1 <> k2 ->
  FeltToKey (height t) k1 <> FeltToKey (height t) k2.
Proof.
  intros Hcfg H1 H2 Hne E. apply Hne.
  pose proof (configured_maxKey _ Hcfg) as Hmax.
  apply (FeltToKey_inj (height t)); [lia|lia|exact E].
Qed.

(** The commitment is a function of the leaves: two tries built from empty
    ones that hold the same value at every full-depth key have the same
    commitment, however they were built. *)
Theorem Root_determined_by_leaves (schedule1 schedule2 : Key -> bool) (fuel : nat)
    (t1 t2 : Trie) :
  built t1 -> built t2 -> sameLeaves t1 t2 -> (height t1 < fuel)%nat ->
  exists c t1' t2',
    Root schedule1 fuel t1 = Some (Ok c, t1') /\
    Root schedule2 fuel t2 = Some (Ok c, t2').
Proof.
  intros Hb1 Hb2 Hs Hfuel.
  destruct (built_represents hash hashPath t1 Hb1) as (tr1 & Hrep1 & Hnf1 & _).
  destruct (built_represents hash hashPath t2 Hb2) as (tr2 & Hrep2 & Hnf2 & _).
  apply (sameLeaves_trieLeaves tr1 tr2) in Hs as [Hh Hl]; auto.
  eapply Root_same_leaves_run; eauto.
Qed.

(** [Put] at one key leaves the value of every other key as it was: [Get]
    of another key returns after the [Put] what it returned before. *)
Theorem Put_keeps_other_keys (fuel : nat) (t : Trie) (key value key' : Felt) :
  built t -> (height t < fuel)%nat ->
  0 <= key <= maxKey t -> 0 <= key' <= maxKey t -> key' <> key ->
  exists r t' v t1 t2,
    Put fuel key value t = Some (Ok r, t') /\
    Get key' t = Some (Ok v, t1) /\
    Get key' t' = Some (Ok v, t2).
Proof.
  intros Hb Hfuel Hk Hk' Hne.
  destruct (built_represents hash hashPath t Hb) as (tr & Hrep & Hnf & Hcfg).
  destruct (Put_leaves_run fuel tr t key value Hrep Hnf Hfuel (proj2 Hk))
    as (r & t' & tr' & Hput & Hrep' & Hnf' & (Eh & _) & Hl).
  exists r, t', (default 0 (trieLeaves tr !! FeltToKey (height t) key')),
         (Trie_read (FeltToKey (height t) key') t),
         (Trie_read (FeltToKey (height t') key') t').
  split; [exact Hput|]. split; [apply Get_represents; auto|].
  rewrite (Get_represents tr' t' key' Hrep' Hnf'), Eh, Hl.
  rewrite leafUpdate_other; [reflexivity|].
  apply FeltToKey_neq; auto.
Qed.

(** [Put] calls at two different keys commute: in either order they leave
    the same leaves and the same commitment (values of zero, which delete,
    included). *)
Theorem Put_commutes (schedule1 schedule2 : Key -> bool) (fuel : nat) (t : Trie)
    (k1 v1 k2 v2 : Felt) :
  built t -> (height t < fuel)%nat ->
  0 <= k1 <= maxKey t -> 0 <= k2 <= maxKey t -> k1 <> k2 ->
  exists ra ta rb tb,
    (Put fuel k1 v1 >>> Put fuel k2 v2) t = Some (Ok ra, ta) /\
    (Put fuel k2 v2 >>> Put fuel k1 v1) t = Some (Ok rb, tb) /\
    sameLeaves ta tb /\
    exists c ta' tb',
      Root schedule1 fuel ta = Some (Ok c, ta') /\
      Root schedule2 fuel tb = Some (Ok c, tb').
Proof.
  intros Hb Hfuel Hk1 Hk2 Hne.
  destruct (built_represents hash hashPath t Hb) as (tr & Hrep & Hnf & Hcfg).
  destruct (Put_Put_run fuel tr t k1 v1 k2 v2 Hrep Hnf Hfuel (proj2 Hk1) (proj2 Hk2))
    as (r1 & t1 & ra & ta & tra & Hp1 & Hp2 & Hrepa & Hnfa & (Eha & _) & Hla).
  destruct (Put_Put_run fuel tr t k2 v2 k1 v1 Hrep Hnf Hfuel (proj2 Hk2) (proj2 Hk1))
    as (r2 & t2 & rb & tb & trb & Hq1 & Hq2 & Hrepb & Hnfb & (Ehb & _) & Hlb).
  exists ra, ta, rb, tb.
  split; [rewrite (bind_ok _ _ _ _ _ Hp1); exact Hp2|].
  split; [rewrite (bind_ok _ _ _ _ _ Hq1); exact Hq2|].
  apply (same_leaves_close schedule1 schedule2 fuel tra trb); auto; try congruence.
  rewrite Hla, Hlb. apply leafUpdate_commute, FeltToKey_neq; auto.
Qed.

(** The last [Put] at a key wins: putting [v1] and then [v2] at the same
    key leaves the leaves and the commitment that putting [v2] alone
    leaves. *)
Theorem Put_last_wins (schedule1 schedule2 : Key -> bool) (fuel : nat) (t : Trie)
    (key v1 v2 : Felt) :
  built t -> (height t < fuel)%nat -> key <= maxKey t ->
  exists ra ta rb tb,
    (Put fuel key v1 >>> Put fuel key v2) t = Some (Ok ra, ta) /\
    Put fuel key v2 t = Some (Ok rb, tb) /\
    sameLeaves ta tb /\
    exists c ta' tb',
      Root schedule1 fuel ta = Some (Ok c, ta') /\
      Root schedule2 fuel tb = Some (Ok c, tb').
Proof.
  intros Hb Hfuel Hk.
  destruct (built_represents hash hashPath t Hb) as (tr & Hrep & Hnf & Hcfg).
  destruct (Put_Put_run fuel tr t key v1 key v2 Hrep Hnf Hfuel Hk Hk)
    as (r1 & t1 & ra & ta & tra & Hp1 & Hp2 & Hrepa & Hnfa & (Eha & _) & Hla).
  destruct (Put_leaves_run fuel tr t key v2 Hrep Hnf Hfuel Hk)
    as (rb & tb & trb & Hq & Hrepb & Hnfb & (Ehb & _) & Hlb).
  exists ra, ta, rb, tb.
  split; [rewrite (bind_ok _ _ _ _ _ Hp1); exact Hp2|].
  split; [exact Hq|].
  apply (same_leaves_close schedule1 schedule2 fuel tra trb); auto; try congruence.
  rewrite Hla, Hlb. apply leafUpdate_overwrite.
Qed.

(** Insert, then delete: putting a value at a key that has no leaf and
    then putting zero there gives back the leaves and the commitment of the
    trie before. *)
Theorem Put_then_delete_restores (schedule1 schedule2 : Key -> bool) (fuel : nat)
    (t : Trie) (key value : Felt) :
  built t -> (height t < fuel)%nat -> key <= maxKey t ->
  leafValue t (FeltToKey (height t) key) = None ->
  exists r t',
    (Put fuel key value >>> Put fuel key 0) t = Some (Ok r, t') /\
    sameLeaves t t' /\
    exists c t1 t1',
      Root schedule1 fuel t = Some (Ok c, t1) /\
      Root schedule2 fuel t' = Some (Ok c, t1').
Proof.
  intros Hb Hfuel Hk Habs.
  destruct (built_represents hash hashPath t Hb) as (tr & Hrep & Hnf & Hcfg).
  destruct (Put_Put_run fuel tr t key value key 0 Hrep Hnf Hfuel Hk Hk)
    as (r1 & t1 & ra & ta & tra & Hp1 & Hp2 & Hrepa & Hnfa & (Eha & _) & Hla).
  exists ra, ta.
  split; [rewrite (bind_ok _ _ _ _ _ Hp1); exact Hp2|].
  apply (same_leaves_close schedule1 schedule2 fuel tr tra); auto; try congruence.
  rewrite Hla. symmetry. apply leafUpdate_undo.
  rewrite <- (leafValue_represents tr t _ Hrep (FeltToKey_length _ _)). exact Habs.
Qed.

(** [Root] recomputes inner nodes only: the leaves after it are the leaves
    before it, so every [Get] returns what it returned before. *)
Theorem Root_keeps_leaves (schedule : Key -> bool) (fuel : nat) (t : Trie) (key : Felt) :
  built t -> (height t < fuel)%nat ->
  exists c t' v t1 t2,
    Root schedule fuel t = Some (Ok c, t') /\
    sameLeaves t t' /\
    Get key t = Some (Ok v, t1) /\ Get key t' = Some (Ok v, t2).
Proof.
  intros Hb Hfuel.
  destruct (built_represents hash hashPath t Hb) as (tr & Hrep & Hnf & Hcfg).
  destruct (Root_run hash hashPath schedule fuel tr t Hrep Hnf Hfuel)
    as (t' & Hr & Hrep' & _ & _ & Hnf' & (Eh & _)).
  assert (Hl : trieLeaves (trieClean hash hashPath tr) = trieLeaves tr).
  { destruct tr as [s|]; simpl; [apply leaves_clean|reflexivity]. }
  exists (commitment tr), t', (default 0 (trieLeaves tr !! FeltToKey (height t) key)),
         (Trie_read (FeltToKey (height t) key) t),
         (Trie_read (FeltToKey (height t') key) t').
  split; [exact Hr|]. split.
  - apply (sameLeaves_trieLeaves tr (trieClean hash hashPath tr)); auto.
  - split; [apply Get_represents; auto|].
    rewrite (Get_represents _ t' key Hrep' Hnf'), Eh, Hl. reflexivity.
Qed.

End Contents.

(** ** The shape of the stored trie *)

Lemma flatten_dense h s (k : Key) n :
  wf h s -> flatten s !! k = Some n ->
  (length k = h /\ exists v, n = leafNode v) \/
  ((length k < h)%nat /\
   (k ++ [false]) `prefix_of` Left n /\ (k ++ [true]) `prefix_of` Right n /\
   is_Some (flatten s !! Left n) /\ is_Some (flatten s !! Right n)).
Proof.
  induction s as [k0 v|k0 val l IHl r IHr]; intros Hwf Hk.
  - simpl in Hk. apply lookup_singleton_Some in Hk as [<- <-].
    left. split; [exact Hwf|eauto].
  - pose proof (flatten_left_sub h k0 val l r Hwf) as Hsl.
    pose proof (flatten_right_sub h k0 val l r Hwf) as Hsr.
    pose proof (wf_node_length h k0 val l r Hwf) as Hlen.
    destruct Hwf as (Hpl & Hpr & Hwl & Hwr).
    destruct (decide (k = k0)) as [->|Hne].
    + pose proof (flatten_root (TNode k0 val l r)) as Hroot. simpl tkey in Hroot.
      rewrite Hroot in Hk. injection Hk as <-. right. simpl.
      split; [exact Hlen|]. split; [exact Hpl|]. split; [exact Hpr|]. split.
      * exists (tnode l). eapply lookup_weaken; [apply flatten_root|exact Hsl].
      * exists (tnode r). eapply lookup_weaken; [apply flatten_root|exact Hsr].
    + cbn [flatten] in Hk. rewrite lookup_insert in Hk.
      case_decide; [congruence|].
      apply lookup_union_Some_raw in Hk as [Hk|[_ Hk]].
      * destruct (IHl Hwl Hk) as [?|(? & ? & ? & [x Hx] & [y Hy])]; [left; auto|].
        right. repeat (split; [assumption|]). split.
        -- exists x. eapply lookup_weaken; eauto.
        -- exists y. eapply lookup_weaken; eauto.
      * destruct (IHr Hwr Hk) as [?|(? & ? & ? & [x Hx] & [y Hy])]; [left; auto|].
        right. repeat (split; [assumption|]). split.
        -- exists x. eapply lookup_weaken; eauto.
        -- exists y. eapply lookup_weaken; eauto.
Qed.

Section Dense.
Variable hash : Felt -> Felt -> Felt.
Variable hashPath : Felt -> Key -> Felt.

(** The trie is dense.  In every trie built from an empty one, the storage
    is empty exactly when there is no root key; the root node is stored;
    every stored key extends the root key; and every stored node is either
    a leaf at full depth, or an inner node above full depth whose two
    children are both stored, the left one below the key followed by the
    bit 0 and the right one below the key followed by the bit 1. *)
Theorem built_dense (t : Trie) :
  built hash hashPath t ->
  (rootKey t = None <-> nodes (storage t) = ∅) /\
  (forall rk, rootKey t = Some rk ->
     is_Some (nodes (storage t) !! rk) /\
     forall k n, nodes (storage t) !! k = Some n -> rk `prefix_of` k) /\
  (forall k n, nodes (storage t) !! k = Some n ->
     (length k = height t /\ exists v, n = leafNode v) \/
     ((length k < height t)%nat /\
      (k ++ [false]) `prefix_of` Left n /\ (k ++ [true]) `prefix_of` Right n /\
      is_Some (nodes (storage t) !! Left n) /\ is_Some (nodes (storage t) !! Right n))).
Proof.
  intros Hb. destruct (built_represents hash hashPath t Hb) as (tr & (Hholds & _) & _).
  destruct tr as [s|].
  - destruct Hholds as (Hroot & Hnodes & Hwf). rewrite Hnodes, Hroot.
    split; [|split].
    + split; [discriminate|]. intros E.
      pose proof (flatten_root s) as H. rewrite E, lookup_empty in H. discriminate.
    + intros rk [= <-]. split; [rewrite flatten_root; eauto|].
      intros k n Hk. eapply flatten_prefix; eauto.
    + intros k n Hk. eapply flatten_dense; eauto.
  - destruct Hholds as (Hroot & Hnodes). rewrite Hnodes, Hroot.
    split; [|split].
    + split; reflexivity.
    + intros rk [=].
    + intros k n Hk. rewrite lookup_empty in Hk. discriminate.
Qed.

End Dense.

(** ** Relations kept by every step of [Put] and of the commitment pass *)

Section Steps.
Variable R : Trie -> Trie -> Prop.
Hypothesis R_refl : forall t, R t t.
Hypothesis R_trans : forall t1 t2 t3, R t1 t2 -> R t2 t3 -> R t1 t3.
Hypothesis R_reads : forall t t', readsOnly t t' -> R t t'.
Hypothesis R_put : forall k n, respects R (storagePut k n).
Hypothesis R_delete : forall k, respects R (storageDelete k).
Hypothesis R_appendDirty : forall k, respects R (appendDirty k).
Hypothesis R_setRootKey : forall k, respects R (setRootKey k).

Variable hash : Felt -> Felt -> Felt.
Variable hashPath : Felt -> Key -> Felt.

Lemma step_get k : respects R (storageGet k).
Proof. intros t r t' H. eapply R_reads, storageGet_readsOnly, H. Qed.

Lemma step_nodesFromRoot fuel key : respects R (nodesFromRoot fuel key).
Proof. intros t r t' H. apply nodesFromRoot_reads in H as [H _]. apply R_reads, H. Qed.

Ltac step :=
  first
    [ apply (respects_bind R R_trans); [|intros ?]
    | apply (respects_try R R_trans); [|intros ?]
    | apply (respects_ret R R_refl)
    | apply (respects_raise R R_refl)
    | apply (respects_abort R)
    | apply (respects_fromEnd R R_refl)
    | apply step_get | apply R_put | apply R_delete | apply R_appendDirty
    | apply R_setRootKey | apply step_nodesFromRoot
    | match goal with
      | |- respects _ (if ?b then _ else _) => destruct b
      | |- respects _ (match ?x with _ => _ end) => destruct x
      | |- respects _ (let '(_, _) := ?x in _) => destruct x
      end ].

Lemma step_deleteLast nodes : respects R (deleteLast nodes).
Proof. unfold deleteLast. repeat step. Qed.

Lemma step_insertOrUpdateValue nodeKey node nodes sibling b :
  respects R (insertOrUpdateValue hash hashPath nodeKey node nodes sibling b).
Proof. unfold insertOrUpdateValue, GetNodeFromKey. repeat step. Qed.

Lemma step_putCommon fuel key value proof :
  respects R (putCommon hash hashPath fuel key value proof).
Proof.
  intros t r t' H. unfold putCommon in H.
  destruct (felt_Gt key (maxKey t)); [inversion H; subst; apply R_refl|].
  revert H. generalize (FeltToKey (height t) key) as nodeKey. intros nodeKey.
  apply (respects_try R R_trans); [|intros ?];
  unfold updateLeaf, handleEmptyTrie, deleteExistingKey;
  repeat first [apply step_deleteLast | apply step_insertOrUpdateValue | step].
Qed.

Lemma step_childTask (rec : Key -> M Node) (b : bool) (k : Key) :
  (forall k, respects R (rec k)) ->
  respects R (if b then let* n := rec k in ret (Some n) else ret None).
Proof. intros Hrec. destruct b; repeat step. apply Hrec. Qed.

Lemma step_serial rec root lp rp :
  (forall k, respects R (rec k)) ->
  respects R (updateChildTriesSerially rec root lp rp).
Proof.
  intros Hrec. unfold updateChildTriesSerially.
  apply (respects_bind R R_trans); [apply step_childTask; auto|intros l].
  apply (respects_bind R R_trans); [apply step_childTask; auto|intros r].
  step.
Qed.

Lemma step_concurrent lf rec root lp rp :
  (forall k, respects R (rec k)) ->
  respects R (updateChildTriesConcurrently lf rec root lp rp).
Proof.
  intros Hrec. unfold updateChildTriesConcurrently.
  destruct lf; apply (respects_try R R_trans); try (apply step_childTask; auto);
    intros r1; apply (respects_try R R_trans); try (apply step_childTask; auto);
    intros r2.
  - destruct r1, r2; step.
  - destruct r2, r1; step.
Qed.

Lemma step_updateValueIfDirty schedule fuel :
  forall key, respects R (updateValueIfDirty hash hashPath schedule fuel key).
Proof.
  induction fuel as [|fuel IH]; intros key; simpl; [step|].
  apply (respects_bind R R_trans); [apply step_get|intros node].
  intros t r t' H. cbv beta in H.
  destruct (Key_Len key =? height t)%nat; [revert H; step|].
  match type of H with (if negb ?b then _ else _) = _ => destruct b end;
    simpl in H; [|revert H; step].
  revert H. apply (respects_bind R R_trans).
  - destruct (Key_Len key <=? concurrencyMaxDepth)%nat;
      [apply step_concurrent|apply step_serial]; auto.
  - intros [l r0]. simpl. repeat step.
Qed.

End Steps.

(** ** The root key and its slot in the storage *)

Lemma rootStep_refl t : rootStep t t.
Proof. split; [reflexivity|right; split; reflexivity]. Qed.

Lemma rootStep_trans t1 t2 t3 : rootStep t1 t2 -> rootStep t2 t3 -> rootStep t1 t3.
Proof.
  intros [Hs1 Hd1] [Hs2 Hd2]. split; [congruence|].
  destruct Hd2 as [Hd2|[Hk2 Hf2]]; [left; exact Hd2|].
  destruct Hd1 as [Hd1|[Hk1 Hf1]]; [left; congruence|right; split; congruence].
Qed.

Lemma rootStep_reads t t' : readsOnly t t' -> rootStep t t'.
Proof.
  intros H. apply readsOnly_fields in H as (_ & Hk & _ & _ & Hf & _ & Hs & _).
  split; [exact Hs|right; split; assumption].
Qed.

Lemma rootStep_put k n : respects rootStep (storagePut k n).
Proof.
  intros t r t' H. rewrite storagePut_eq in H.
  destruct (Storage_fault (storage t)); inversion H; subst;
    (split; [reflexivity|right; split; reflexivity]).
Qed.

Lemma rootStep_delete k : respects rootStep (storageDelete k).
Proof.
  intros t r t' H. rewrite storageDelete_eq in H.
  destruct (Storage_fault (storage t)); inversion H; subst;
    (split; [reflexivity|right; split; reflexivity]).
Qed.

Lemma rootStep_appendDirty k : respects rootStep (appendDirty k).
Proof. intros t r t' [= <- <-]. split; [reflexivity|right; split; reflexivity]. Qed.

Lemma rootStep_setRootKey k : respects rootStep (setRootKey k).
Proof. intros t r t' [= <- <-]. split; [reflexivity|left; reflexivity]. Qed.

Lemma rootStep_slotSynced t t' : rootStep t t' -> slotSynced t -> slotSynced t'.
Proof.
  intros [Hs Hd] Hsync Hf. destruct Hd as [Hd|[Hk Hf']]; [congruence|].
  rewrite Hs, Hk. apply Hsync. congruence.
Qed.

Section Slot.
Variable hash : Felt -> Felt -> Felt.
Variable hashPath : Felt -> Key -> Felt.

(** [Put] and [PutWithProof] leave the root key to [Root]: whatever they
    return, they have not written the root-key slot of the storage, and if
    they changed the root key they marked it dirty.  [PutInner] and [Get]
    change neither the slot, the root key nor its mark. *)
Theorem Put_defers_root_key (fuel : nat) (key value : Felt) (proof : list StorageNode)
    (k : Key) (n : Node) (t : Trie) :
  (forall r t', Put hash hashPath fuel key value t = Some (r, t') -> rootStep t t') /\
  (forall r t', PutWithProof hash hashPath fuel key value proof t = Some (r, t') ->
                rootStep t t') /\
  (forall r t', PutInner k n t = Some (r, t') ->
     rootSlot (storage t') = rootSlot (storage t) /\ rootKey t' = rootKey t /\
     rootKeyIsDirty t' = rootKeyIsDirty t) /\
  (forall r t', Get key t = Some (r, t') ->
     rootSlot (storage t') = rootSlot (storage t) /\ rootKey t' = rootKey t /\
     rootKeyIsDirty t' = rootKeyIsDirty t).
Proof.
  split; [|split; [|split]].
  - intros r t'. apply (step_putCommon rootStep rootStep_refl rootStep_trans rootStep_reads
                          rootStep_put rootStep_delete rootStep_appendDirty
                          rootStep_setRootKey).
  - intros r t'. apply (step_putCommon rootStep rootStep_refl rootStep_trans rootStep_reads
                          rootStep_put rootStep_delete rootStep_appendDirty
                          rootStep_setRootKey).
  - intros r t' H. unfold PutInner in H. rewrite storagePut_eq in H.
    destruct (Storage_fault (storage t)); inversion H; subst; repeat split.
  - intros r t' H. unfold Get, try in H. rewrite storageGet_eq in H.
    assert (t' = Trie_withStorage t (Storage_log (OpGet (FeltToKey (height t) key)) (storage t)))
      as ->.
    { destruct (Storage_fault (storage t)); [inversion H; reflexivity|].
      destruct (nodes (storage t) !! FeltToKey (height t) key); inversion H; reflexivity. }
    repeat split.
Qed.

Lemma rootStep_updateValueIfDirty schedule fuel key :
  respects rootStep (updateValueIfDirty hash hashPath schedule fuel key).
Proof.
  apply step_updateValueIfDirty;
    [exact rootStep_refl|exact rootStep_trans|exact rootStep_reads|exact rootStep_put].
Qed.

(** The first step of [Root]: the root-key slot is written when the root
    key is marked dirty. *)
Lemma settle_cases t r1 t1 :
  (if rootKeyIsDirty t
   then (match rootKey t with
         | None => storageDeleteRootKey
         | Some k => storagePutRootKey k
         end >>> (fun t0 => Some (Ok tt, mkTrie (height t0) (rootKey t0) (maxKey t0)
                                          (storage t0) (dirtyNodes t0) false))) t
   else ret tt t) = Some (r1, t1) ->
  rootKey t1 = rootKey t /\
  (slotSynced t -> slotSynced t1) /\
  (r1 = Ok tt -> rootKeyIsDirty t1 = false /\
                 (slotSynced t -> rootSlot (storage t1) = rootKey t)).
Proof.
  intros H. destruct (rootKeyIsDirty t) eqn:Hf.
  - unfold bind in H.
    destruct (rootKey t) as [k|] eqn:Hk;
      unfold storagePutRootKey, storageDeleteRootKey, liftStorage,
             Storage_PutRootKey, Storage_DeleteRootKey in H;
      destruct (Storage_fault (storage t)); inversion H; subst; simpl;
      (split; [assumption|]); (split; [intros _ Hd; simpl in *; congruence|]);
      intros E; try discriminate; split; auto.
  - inversion H; subst. split; [reflexivity|]. split; [auto|].
    intros _. split; [exact Hf|]. intros Hs. apply Hs, Hf.
Qed.

Lemma Root_slot_cases (schedule : Key -> bool) (fuel : nat) (t : Trie)
    (r : res Felt) (t' : Trie) :
  Root hash hashPath schedule fuel t = Some (r, t') ->
  rootKey t' = rootKey t /\
  (slotSynced t -> slotSynced t') /\
  (forall c, r = Ok c -> slotSynced t ->
     rootKeyIsDirty t' = false /\ rootSlot (storage t') = rootKey t).
Proof.
  intros H. unfold Root in H.
  apply bind_Some in H as [(a & t1 & H1 & H2)|(e & H1 & ->)].
  - destruct a. apply settle_cases in H1 as (Hk1 & Hs1 & Hok1).
    destruct (Hok1 eq_refl) as [Hf1 Hslot1].
    destruct (rootKey t1) as [rk|] eqn:Hrk.
    + unfold withSyncedStorage, Storage_SyncedStorage in H2.
      rewrite Trie_withStorage_id in H2.
      assert (Hu : forall r2 t2,
        updateValueIfDirty hash hashPath schedule fuel rk t1 = Some (r2, t2) ->
        rootKey t2 = rootKey t1 /\ rootKeyIsDirty t2 = false /\
        rootSlot (storage t2) = rootSlot (storage t1)).
      { intros r2 t2 Hu. pose proof (rootStep_updateValueIfDirty _ _ _ _ _ _ Hu) as [Hs _].
        apply storageOnly_updateValueIfDirty in Hu. rewrite Hu at 1 2. simpl.
        split; [reflexivity|]. split; [exact Hf1|exact Hs]. }
      apply bind_Some in H2 as [(root & t2 & H3 & H4)|(e & H3 & ->)].
      * apply Hu in H3 as (Hk2 & Hf2 & Hs2).
        unfold bind, ret in H4. inversion H4; subst. simpl.
        split; [congruence|]. split.
        -- intros Hs _. simpl. rewrite Hs2, Hk2, Hrk, Hk1. apply Hslot1, Hs.
        -- intros c _ Hs. split; [exact Hf2|]. rewrite Hs2. apply Hslot1, Hs.
      * apply Hu in H3 as (Hk2 & Hf2 & Hs2).
        split; [congruence|]. split; [|discriminate].
        intros Hs _. rewrite Hs2, Hk2, Hrk, Hk1. apply Hslot1, Hs.
    + inversion H2; subst. split; [congruence|]. split; [exact Hs1|].
      intros c _ Hs. split; [exact Hf1|apply Hslot1, Hs].
  - apply settle_cases in H1 as (Hk1 & Hs1 & _).
    split; [exact Hk1|]. split; [exact Hs1|discriminate].
Qed.

(** [Root] and [Commit] write the root key to its slot.  Whatever they
    return, the root key is the one they started with and a slot that was
    in step stays in step; when they return without an error, the root key
    is not marked dirty any more and the slot holds it. *)
Theorem Root_settles_root_key (schedule : Key -> bool) (fuel : nat) (t : Trie) :
  (forall r t',
     Root hash hashPath schedule fuel t = Some (r, t') ->
     rootKey t' = rootKey t /\
     (slotSynced t -> slotSynced t') /\
     (forall c, r = Ok c -> slotSynced t ->
        rootKeyIsDirty t' = false /\ rootSlot (storage t') = rootKey t)) /\
  (forall r t',
     Commit hash hashPath schedule fuel t = Some (r, t') ->
     rootKey t' = rootKey t /\
     (slotSynced t -> slotSynced t') /\
     (r = Ok tt -> slotSynced t ->
        rootKeyIsDirty t' = false /\ rootSlot (storage t') = rootKey t)).
Proof.
  split.
  - intros r t' H. exact (Root_slot_cases schedule fuel t r t' H).
  - intros r t' H. unfold Commit in H.
    apply bind_Some in H as [(c & t1 & H1 & H2)|(e & H1 & ->)].
    + inversion H2; subst.
      destruct (Root_slot_cases schedule fuel t _ _ H1) as (Hk & Hs & Hok).
      split; [exact Hk|]. split; [exact Hs|]. intros _. apply (Hok c eq_refl).
    + destruct (Root_slot_cases schedule fuel t _ _ H1) as (Hk & Hs & _).
      split; [exact Hk|]. split; [exact Hs|discriminate].
Qed.

End Slot.

(** ** Construction, and opening a trie again *)

Lemma newTrie_run (st : Storage) (h : nat) :
  (h <= felt_Bits)%nat -> Storage_fault st = None ->
  newTrie st h =
  (Ok (mkTrie h (rootSlot st) (felt_Sub (felt_Exp 2 (Z.of_nat h)) 1)
         (Storage_log OpRootKey st) [] false),
   Storage_log OpRootKey st).
Proof.
  intros Hh Hf. unfold newTrie, Storage_RootKey.
  apply Nat.ltb_ge in Hh. rewrite Hh, Hf.
  destruct (rootSlot st); reflexivity.
Qed.

(** [newTrie] rejects a height above [felt.Bits] without touching the
    storage; otherwise it reads the root-key slot once, returns a storage
    error as it is, and takes a missing root key for an empty trie.  The
    trie it returns has no dirty nodes, a root key that is not marked dirty
    and equal to the slot. *)
Theorem newTrie_cases (st : Storage) (h : nat) :
  ((felt_Bits < h)%nat -> newTrie st h = (Err (ErrInvalidHeight h), st)) /\
  ((h <= felt_Bits)%nat ->
   forall msg, Storage_fault st = Some msg ->
   newTrie st h = (Err (ErrStorage msg), Storage_log OpRootKey st)) /\
  ((h <= felt_Bits)%nat -> Storage_fault st = None ->
   exists t,
     newTrie st h = (Ok t, Storage_log OpRootKey st) /\
     t = mkTrie h (rootSlot st) (felt_Sub (felt_Exp 2 (Z.of_nat h)) 1)
           (Storage_log OpRootKey st) [] false /\
     slotSynced t).
Proof.
  unfold newTrie, Storage_RootKey. split; [|split].
  - intros Hh. apply Nat.ltb_lt in Hh. rewrite Hh. reflexivity.
  - intros Hh msg Hf. apply Nat.ltb_ge in Hh. rewrite Hh, Hf. reflexivity.
  - intros Hh Hf. apply Nat.ltb_ge in Hh. rewrite Hh, Hf.
    destruct (rootSlot st) as [k|] eqn:Hk; eexists; (split; [reflexivity|]);
      (split; [reflexivity|]); intros _; simpl; exact Hk.
Qed.

(** The largest key is [2^height - 1] up to the height 251.  At the height
    252, the largest height that [newTrie] accepts, the subtraction is done
    in the field and wraps around: the largest key is [2^252 - P - 1], which
    is below [2^251]. *)
Theorem newTrie_maxKey (st st' : Storage) (h : nat) (t : Trie) :
  newTrie st h = (Ok t, st') ->
  ((h <= 251)%nat -> maxKey t = 2 ^ Z.of_nat h - 1) /\
  (h = 252%nat -> maxKey t = 2 ^ 252 - felt_P - 1 /\ maxKey t < 2 ^ 251).
Proof.
  unfold newTrie. destruct (felt_Bits <? h)%nat; [discriminate|].
  intros H.
  assert (Hm : maxKey t = felt_Sub (felt_Exp 2 (Z.of_nat h)) 1).
  { destruct (Storage_RootKey st) as [[k|e] s]; [|destruct e];
      inversion H; subst; reflexivity. }
  rewrite Hm. split.
  - apply maxKey_pow2.
  - intros ->. split; vm_compute; reflexivity.
Qed.

Section Reopen.
Variable hash : Felt -> Felt -> Felt.
Variable hashPath : Felt -> Key -> Felt.

(** A trie made by [newTrie] over a storage that is empty and does not fail
    is the starting point of the tries built from an empty one. *)
Lemma newTrie_built (st st' : Storage) (h : nat) (t : Trie) :
  newTrie st h = (Ok t, st') ->
  rootSlot st = None -> nodes st = ∅ -> (forall n, faults st n = None) ->
  built hash hashPath t.
Proof.
  intros H Hslot Hnodes Hnf.
  destruct (Nat.ltb_spec felt_Bits h) as [Hh|Hh].
  { unfold newTrie in H. apply Nat.ltb_lt in Hh. rewrite Hh in H. discriminate. }
  rewrite (newTrie_run st h Hh (Hnf _)) in H. inversion H; subst. rewrite Hslot.
  apply built_new; simpl; auto. split; [exact Hh|reflexivity].
Qed.

(** Opening a trie again.  After [Root] has returned on a trie built from
    an empty one whose root-key slot was in step, [newTrie] over the same
    storage gives a trie with the same root key and the same leaves, whose
    [Root] returns the same commitment and only reads. *)
Theorem Root_then_reopen (schedule : Key -> bool) (fuel : nat) (t : Trie) :
  built hash hashPath t -> slotSynced t -> (height t < fuel)%nat ->
  exists c t' t2 st2 t2',
    Root hash hashPath schedule fuel t = Some (Ok c, t') /\
    newTrie (storage t') (height t) = (Ok t2, st2) /\
    rootKey t2 = rootKey t /\ sameLeaves t t2 /\
    Root hash hashPath schedule fuel t2 = Some (Ok c, t2') /\
    readsOnly t2 t2'.
Proof.
  intros Hb Hsync Hfuel.
  destruct (built_represents hash hashPath t Hb) as (tr & Hrep & Hnf & Hcfg).
  destruct (Root_run hash hashPath schedule fuel tr t Hrep Hnf Hfuel)
    as (t' & Hr & Hrep' & Hflag' & _ & Hnf' & (Eh & Em & Ef)).
  destruct (Root_slot_cases hash hashPath schedule fuel t _ t' Hr)
    as (Hk' & _ & Hslot).
  destruct (Hslot _ eq_refl Hsync) as [_ Hs'].
  pose (t2 := mkTrie (height t) (rootSlot (storage t'))
                (felt_Sub (felt_Exp 2 (Z.of_nat (height t))) 1)
                (Storage_log OpRootKey (storage t')) [] false).
  assert (Hnew : newTrie (storage t') (height t) = (Ok t2, Storage_log OpRootKey (storage t'))).
  { apply newTrie_run; [apply Hcfg|apply noFaults_fault, Hnf']. }
  assert (Hnf2 : noFaults t2) by (intros n; apply Hnf').
  assert (Hrep2 : represents hash hashPath (trieClean hash hashPath tr) t2).
  { destruct Hrep' as (Hholds' & Hh' & _). split; [|split].
    - destruct tr as [s|]; simpl in *.
      + destruct Hholds' as (Hroot & Hnodes & Hwf).
        split; [congruence|]. split; [exact Hnodes|]. rewrite <- Eh. exact Hwf.
      + destruct Hholds' as (Hroot & Hnodes). split; [congruence|exact Hnodes].
    - simpl. rewrite <- Eh. exact Hh'.
    - destruct tr as [s|]; simpl; [apply upToDate_clean_any|exact I]. }
  assert (Hl : trieLeaves (trieClean hash hashPath tr) = trieLeaves tr).
  { destruct tr as [s|]; simpl; [apply leaves_clean|reflexivity]. }
  assert (Hroot2 : exists t2',
    Root hash hashPath schedule fuel t2 = Some (Ok (commitment hash hashPath tr), t2') /\
    readsOnly t2 t2').
  { destruct tr as [s|].
    - destruct (Root_nodirty_run hash hashPath schedule fuel _ t2 Hrep2 Hnf2)
        as (t2' & H2 & Hro & _); [simpl in Hfuel; lia|reflexivity|reflexivity|].
      exists t2'. split; [|exact Hro]. rewrite H2. simpl.
      rewrite (Node_Hash_value hashPath (tnode _)), tval_clean, tkey_clean. reflexivity.
    - exists t2. split; [|apply readsOnly_refl].
      destruct Hrep2 as ((Hroot & _) & _).
      rewrite (Root_no_rootKey hash hashPath schedule fuel t2 Hroot). reflexivity. }
  destruct Hroot2 as (t2' & H2 & Hro).
  exists (commitment hash hashPath tr), t', t2, (Storage_log OpRootKey (storage t')), t2'.
  split; [exact Hr|]. split; [exact Hnew|]. split; [exact Hs'|]. split.
  - apply (sameLeaves_trieLeaves hash hashPath tr (trieClean hash hashPath tr)); auto.
  - split; [exact H2|exact Hro].
Qed.

End Reopen.

(** ** The short paths of [Put] and [Root], on any trie state *)

Lemma logGrows_refl t : logGrows t t.
Proof. exists []. reflexivity. Qed.

Lemma logGrows_trans t1 t2 t3 : logGrows t1 t2 -> logGrows t2 t3 -> logGrows t1 t3.
Proof.
  intros [o1 H1] [o2 H2]. exists (o2 ++ o1). unfold opsSince in *.
  rewrite H2, H1, app_assoc. reflexivity.
Qed.

Lemma logGrows_reads t t' : readsOnly t t' -> logGrows t t'.
Proof. intros H. apply readsOnly_opsSince in H as (ops & _ & H). exists ops. exact H. Qed.

Lemma logGrows_put k n : respects logGrows (storagePut k n).
Proof.
  intros t r t' H. rewrite storagePut_eq in H. exists [OpPut k n].
  destruct (Storage_fault (storage t)); inversion H; subst; reflexivity.
Qed.

Section Paths.
Variable hash : Felt -> Felt -> Felt.
Variable hashPath : Felt -> Key -> Felt.

Lemma felt_Gt_false (key m : Felt) : key <= m -> felt_Gt key m = false.
Proof. intros H. unfold felt_Gt. apply Z.ltb_ge. exact H. Qed.

(** Overwriting a leaf.  [Put] and [PutWithProof] of a value that is not
    zero at a key whose leaf is stored read the leaf, put the new one and
    append its key to the dirty list; they return the old value and touch
    nothing else: no inner node, and not the root key.  This is so on any
    trie state, with any fuel. *)
Theorem Put_overwrites_leaf (fuel : nat) (t : Trie) (key value : Felt) (existing : Node)
    (proof : list StorageNode) :
  key <= maxKey t -> value <> 0 -> noFaults t ->
  nodes (storage t) !! FeltToKey (height t) key = Some existing ->
  let k := FeltToKey (height t) key in
  let t' := Trie_withDirty (Trie_put k (leafNode value) (Trie_read k t))
              (dirtyNodes t ++ [k]) in
  Put hash hashPath fuel key value t = Some (Ok (Some (Value existing)), t') /\
  PutWithProof hash hashPath fuel key value proof t = Some (Ok (Some (Value existing)), t').
Proof.
  intros Hk Hv Hnf Hleaf k t'.
  assert (H : forall p, putCommon hash hashPath fuel key value p t
                        = Some (Ok (Some (Value existing)), t')).
  { intros p. subst t' k. unfold putCommon. rewrite (felt_Gt_false _ _ Hk).
    unfold try at 1. unfold updateLeaf.
    rewrite (proj2 (felt_IsZero_false value) Hv). cbn [negb].
    unfold try. rewrite (storageGet_nf _ _ Hnf), Hleaf.
    unfold bind. rewrite (storagePut_nf _ _ _ (noFaults_read _ t Hnf)).
    reflexivity. }
  split; apply H.
Qed.

(** The first leaf.  On a trie without a root key, [Put] of a value that is
    not zero at a key without a stored leaf puts the leaf, makes its key the
    root key and marks the root key dirty; it returns zero as the old value
    and leaves the dirty list as it was. *)
Theorem Put_first_leaf (fuel : nat) (t : Trie) (key value : Felt) :
  key <= maxKey t -> value <> 0 -> noFaults t ->
  rootKey t = None ->
  nodes (storage t) !! FeltToKey (height t) key = None ->
  let k := FeltToKey (height t) key in
  Put hash hashPath fuel key value t =
  Some (Ok (Some felt_Zero),
        mkTrie (height t) (Some k) (maxKey t)
          (storage (Trie_put k (leafNode value) (Trie_read k t)))
          (dirtyNodes t) true).
Proof.
  intros Hk Hv Hnf Hroot Hleaf k. subst k.
  unfold Put, putCommon. rewrite (felt_Gt_false _ _ Hk).
  unfold try at 1. unfold updateLeaf.
  rewrite (proj2 (felt_IsZero_false value) Hv). cbn [negb].
  unfold try. rewrite (storageGet_nf _ _ Hnf), Hleaf.
  cbn [ret]. unfold bind at 1.
  rewrite nodesFromRoot_empty by exact Hroot.
  cbn [length Nat.eqb]. unfold handleEmptyTrie.
  rewrite (proj2 (felt_IsZero_false value) Hv).
  unfold bind. rewrite (storagePut_nf _ _ _ (noFaults_read _ t Hnf)).
  reflexivity.
Qed.

Lemma Root_cached_run (schedule : Key -> bool) (fuel : nat) (t : Trie) (rk : Key) (n : Node) :
  rootKey t = Some rk -> rootKeyIsDirty t = false ->
  Storage_fault (storage t) = None -> nodes (storage t) !! rk = Some n ->
  (length rk = height t \/
   (Left n = NilKey /\ Right n = NilKey) \/
   (Left n <> NilKey /\ Right n <> NilKey /\ dirtyBelow (dirtyNodes t) rk = false)) ->
  Root hash hashPath schedule (S fuel) t =
  Some (Ok (Node_Hash hashPath n (path rk None)), Trie_withDirty (Trie_read rk t) []).
Proof.
  intros Hroot Hflag Hfault Hn Hcase.
  unfold Root. unfold bind at 1. rewrite Hflag. unfold ret at 1. rewrite Hroot.
  unfold withSyncedStorage, Storage_SyncedStorage. rewrite Trie_withStorage_id.
  unfold bind at 1. cbn [updateValueIfDirty]. unfold bind at 1.
  rewrite storageGet_eq, Hfault, Hn. cbn [height Trie_withStorage].
  unfold Key_Len.
  destruct (Nat.eqb_spec (length rk) (height t)) as [E|E]; [reflexivity|].
  destruct Hcase as [Hlen|[[Hl Hr]|(Hl & Hr & Hd)]]; [contradiction| |].
  - rewrite (proj2 (Key_Equal_true _ _) Hl), (proj2 (Key_Equal_true _ _) Hr).
    reflexivity.
  - rewrite (proj2 (Key_Equal_false _ _) Hl), (proj2 (Key_Equal_false _ _) Hr).
    cbn [dirtyNodes Trie_withStorage andb orb]. rewrite Hd. reflexivity.
Qed.

(** The cached commitment.  When the root key is settled and the root node
    is a leaf at full depth, or has no children, or has two children and
    no dirty key below it, [Root] reads the root node and nothing else: it
    returns the hash of the stored node without looking at any other node,
    and empties the dirty list.  A second [Root] does the same and returns
    the same commitment.  This is so on any trie state. *)
Theorem Root_cached (schedule1 schedule2 : Key -> bool) (fuel : nat) (t : Trie)
    (rk : Key) (n : Node) :
  rootKey t = Some rk -> rootKeyIsDirty t = false ->
  noFaults t -> nodes (storage t) !! rk = Some n ->
  (length rk = height t \/
   (Left n = NilKey /\ Right n = NilKey) \/
   (Left n <> NilKey /\ Right n <> NilKey /\ dirtyBelow (dirtyNodes t) rk = false)) ->
  let c := Node_Hash hashPath n (path rk None) in
  let t1 := Trie_withDirty (Trie_read rk t) [] in
  Root hash hashPath schedule1 (S fuel) t = Some (Ok c, t1) /\
  Root hash hashPath schedule2 (S fuel) t1 = Some (Ok c, Trie_read rk t1) /\
  readsOnly t (Trie_read rk t) /\ readsOnly t1 (Trie_read rk t1).
Proof.
  intros Hroot Hflag Hnf Hn Hcase c t1.
  split; [apply Root_cached_run; auto using noFaults_fault|].
  split; [|split; apply readsOnly_get].
  assert (Hnf1 : noFaults t1) by (intros i; apply Hnf).
  assert (Hcase1 : length rk = height t1 \/
            (Left n = NilKey /\ Right n = NilKey) \/
            (Left n <> NilKey /\ Right n <> NilKey /\
             dirtyBelow (dirtyNodes t1) rk = false)).
  { destruct Hcase as [H|[H|(Hl & Hr & _)]]; [left; exact H|right; left; exact H|].
    right; right. split; [exact Hl|]. split; [exact Hr|]. apply dirtyBelow_nil. }
  rewrite (Root_cached_run schedule2 fuel t1 rk n Hroot Hflag (noFaults_fault _ Hnf1)
             Hn Hcase1).
  reflexivity.
Qed.

Lemma logGrows_updateValueIfDirty schedule fuel key :
  respects logGrows (updateValueIfDirty hash hashPath schedule fuel key).
Proof.
  apply step_updateValueIfDirty;
    [exact logGrows_refl|exact logGrows_trans|exact logGrows_reads|exact logGrows_put].
Qed.

Lemma settle_log t r1 t1 :
  (if rootKeyIsDirty t
   then (match rootKey t with
         | None => storageDeleteRootKey
         | Some k => storagePutRootKey k
         end >>> (fun t0 => Some (Ok tt, mkTrie (height t0) (rootKey t0) (maxKey t0)
                                          (storage t0) (dirtyNodes t0) false))) t
   else ret tt t) = Some (r1, t1) ->
  logGrows t t1 /\ nodes (storage t1) = nodes (storage t) /\
  height t1 = height t /\ rootKey t1 = rootKey t.
Proof.
  intros H. destruct (rootKeyIsDirty t).
  - unfold bind in H.
    destruct (rootKey t) as [k|] eqn:Hk;
      unfold storagePutRootKey, storageDeleteRootKey, liftStorage,
             Storage_PutRootKey, Storage_DeleteRootKey in H;
      destruct (Storage_fault (storage t)); inversion H; subst; simpl;
      (split; [eexists [_]; reflexivity|auto]).
  - inversion H; subst. split; [apply logGrows_refl|auto].
Qed.

(** A proof node at the root is recomputed by every [Root].  When the root
    node has exactly one NIL child (and is not at full depth), every [Root]
    that returns a commitment has put the root node again, with a value
    recomputed from the stored hash of the NIL side, whatever the dirty
    list held: its last storage operation is that write. *)
Lemma Root_rewrites_proof_root (schedule : Key -> bool) (fuel : nat) (t : Trie)
    (rk : Key) (n : Node) (c : Felt) (t' : Trie) :
  rootKey t = Some rk -> nodes (storage t) !! rk = Some n ->
  length rk <> height t ->
  (Left n = NilKey /\ Right n <> NilKey) \/ (Left n <> NilKey /\ Right n = NilKey) ->
  Root hash hashPath schedule fuel t = Some (Ok c, t') ->
  exists v ops,
    opsSince t t' (OpPut rk (Node_setValue n v) :: ops) /\
    nodes (storage t') !! rk = Some (Node_setValue n v) /\
    c = Node_Hash hashPath (Node_setValue n v) (path rk None) /\
    ~ readsOnly t t'.
Proof.
  intros Hroot Hn Hlen Hnil H. unfold Root in H.
  apply bind_Some in H as [(a & t1 & H1 & H2)|(e & _ & Hbad)]; [|discriminate].
  apply settle_log in H1 as (Hlog1 & Hn1 & Hh1 & Hk1).
  rewrite Hk1, Hroot in H2.
  unfold withSyncedStorage, Storage_SyncedStorage in H2.
  rewrite Trie_withStorage_id in H2.
  apply bind_Some in H2 as [(root & t2 & H3 & H4)|(e & _ & Hbad)]; [|discriminate].
  unfold bind, ret in H4. inversion H4; subst c t'. clear H4.
  destruct fuel as [|fuel]; [discriminate|]. cbn [updateValueIfDirty] in H3.
  apply bind_Some in H3 as [(node & t3 & Hget & H3)|(e & _ & Hbad)]; [|discriminate].
  pose proof (storageGet_readsOnly _ _ _ _ Hget) as Hro3.
  apply storageGet_Ok in Hget as (Hnode & _ & Et3).
  rewrite Hn1, Hn in Hnode. injection Hnode as <-.
  assert (Hh3 : height t3 = height t) by (rewrite Et3; exact Hh1).
  rewrite Hh3 in H3. unfold Key_Len in H3.
  destruct (Nat.eqb_spec (length rk) (height t)) as [E|_]; [contradiction|].
  assert (Hupd :
    (if Key_Equal (Left n) NilKey && Key_Equal (Right n) NilKey then false
     else if Key_Equal (Left n) NilKey || Key_Equal (Right n) NilKey then true
          else dirtyBelow (dirtyNodes t3) rk) = true).
  { destruct Hnil as [[Hl Hr]|[Hl Hr]].
    - rewrite (proj2 (Key_Equal_true _ _) Hl), (proj2 (Key_Equal_false _ _) Hr). reflexivity.
    - rewrite (proj2 (Key_Equal_false _ _) Hl), (proj2 (Key_Equal_true _ _) Hr). reflexivity. }
  rewrite Hupd in H3. cbn [negb] in H3.
  apply bind_Some in H3 as [(children & t4 & Hch & H3)|(e & _ & Hbad)]; [|discriminate].
  assert (Hlog4 : logGrows t3 t4).
  { destruct (length rk <=? concurrencyMaxDepth)%nat.
    - revert Hch. apply step_concurrent;
        [exact logGrows_refl|exact logGrows_trans|apply logGrows_updateValueIfDirty].
    - revert Hch. apply step_serial;
        [exact logGrows_refl|exact logGrows_trans|apply logGrows_updateValueIfDirty]. }
  match type of H3 with
  | match ?x with _ => _ end _ = _ => destruct x as [lh|]; [|discriminate]
  end.
  match type of H3 with
  | match ?x with _ => _ end _ = _ => destruct x as [rh|]; [|discriminate]
  end.
  apply bind_Some in H3 as [(u & t5 & Hput & H3)|(e & _ & Hbad)]; [|discriminate].
  destruct u. apply storagePut_Ok in Hput as (_ & Et5).
  unfold ret in H3. inversion H3; subst root t2. clear H3.
  destruct (logGrows_trans _ _ _ Hlog1
              (logGrows_trans _ _ _ (logGrows_reads _ _ Hro3) Hlog4)) as [ops Hops].
  assert (Hsince : opsSince t (Trie_withDirty t5 [])
                     (OpPut rk (Node_setValue n (hash lh rh)) :: ops)).
  { unfold opsSince in *. rewrite Et5. simpl. rewrite Hops. reflexivity. }
  exists (hash lh rh), ops. split; [exact Hsince|]. split; [|split].
  - rewrite Et5. simpl. apply lookup_insert_eq.
  - reflexivity.
  - intros Hro. apply readsOnly_opsSince in Hro as (ops' & Hall & Hops').
    rewrite (opsSince_unique _ _ _ _ Hops' Hsince) in Hall.
    inversion Hall as [|? ? Hw _]. discriminate Hw.
Qed.

Lemma bind_ext_at {A B} (m : M A) (f g : A -> M B) t :
  (forall a t1, m t = Some (Ok a, t1) -> f a t1 = g a t1) ->
  bind m f t = bind m g t.
Proof.
  intros H. unfold bind. destruct (m t) as [[[a|e] t1]|]; auto.
Qed.

Lemma try_ext_at {A B} (m : M A) (f g : res A -> M B) t :
  (forall r t1, m t = Some (r, t1) -> f r t1 = g r t1) ->
  try m f t = try m g t.
Proof.
  intros H. unfold try. destruct (m t) as [[r t1]|]; auto.
Qed.

Lemma find_none_key (proof : list StorageNode) (k : Key) :
  Forall (fun p => sn_key p <> k) proof ->
  List.find (fun p => Key_Equal (sn_key p) k) proof = None.
Proof.
  induction 1 as [|p proof Hp _ IH]; [reflexivity|]. simpl.
  rewrite (proj2 (Key_Equal_false _ _) Hp). exact IH.
Qed.

(** Proof nodes count only where the descent ends on them.  When none of
    the proof nodes has the key of a stored node, [PutWithProof] does what
    [Put] does: the same result and the same trie state. *)
Theorem PutWithProof_without_stored_proof (fuel : nat) (t : Trie) (key value : Felt)
    (proof : list StorageNode) :
  Forall (fun p => nodes (storage t) !! sn_key p = None) proof ->
  PutWithProof hash hashPath fuel key value proof t = Put hash hashPath fuel key value t.
Proof.
  intros Hproof. unfold PutWithProof, Put, putCommon.
  destruct (felt_Gt key (maxKey t)); [reflexivity|].
  apply try_ext_at. intros r1 t1 E1.
  destruct r1 as [[old|]|e]; try reflexivity.
  apply updateLeaf_cases in E1 as [(_ & Hro1 & _)|[(e & He)|(ex & He & _)]];
    try discriminate.
  apply bind_ext_at. intros ns t2 E2.
  apply nodesFromRoot_reads in E2 as [_ Hst]. specialize (Hst ns eq_refl).
  destruct (length ns =? 0)%nat; [reflexivity|].
  apply bind_ext_at. intros sib t3 E3.
  apply fromEnd_Some in E3 as (x & Hx & _ & Hsib). injection Hx as <-.
  apply try_ext_at. intros r4 t4 _.
  destruct r4 as [[old|]|e]; try reflexivity.
  destruct (felt_IsZero value); [reflexivity|].
  rewrite find_none_key; [reflexivity|].
  assert (Hstored : is_Some (nodes (storage t) !! sn_key sib)).
  { rewrite <- (readsOnly_nodes _ _ Hro1).
    rewrite Forall_forall in Hst. eexists. apply Hst.
    eapply list_elem_of_lookup_2, Hsib. }
  eapply Forall_impl; [exact Hproof|]. intros p Hp E. simpl in Hp.
  rewrite E in Hp. destruct Hstored as [y Hy]. congruence.
Qed.

End Paths.

(** ** Proof nodes in [PutWithProof] *)

Lemma find_same_keys (k : Key) (proof proof' : list StorageNode) :
  map sn_key proof = map sn_key proof' ->
  match List.find (fun p => Key_Equal (sn_key p) k) proof,
        List.find (fun p => Key_Equal (sn_key p) k) proof' with
  | Some p, Some p' => sn_key p = k /\ sn_key p' = k
  | None, None => True
  | _, _ => False
  end.
Proof.
  revert proof'. induction proof as [|p proof IH]; intros [|p' proof'] H;
    try discriminate; simpl; [exact I|].
  injection H as Hk Hrest. rewrite <- Hk.
  destruct (Key_Equal (sn_key p) k) eqn:E.
  - apply Key_Equal_true in E. split; congruence.
  - apply IH, Hrest.
Qed.

Section ProofNodes.
Variable hash : Felt -> Felt -> Felt.
Variable hashPath : Felt -> Key -> Felt.

(** With a proof node in the place of the sibling, only the key of that
    node and the storage count. *)
Lemma insertOrUpdateValue_proof_key nodeKey node ns ns' sibling sibling' :
  sn_key sibling = sn_key sibling' ->
  insertOrUpdateValue hash hashPath nodeKey node ns sibling true =
  insertOrUpdateValue hash hashPath nodeKey node ns' sibling' true.
Proof. intros E. unfold insertOrUpdateValue. rewrite E. reflexivity. Qed.

(** [PutWithProof] looks at the keys of the proof nodes only.  Two proof
    lists with the same keys in the same order give the same result and
    the same trie state, whatever the proof nodes hold: the parent that a
    proof node stands for is read from the storage. *)
Theorem PutWithProof_uses_proof_keys_only (fuel : nat) (t : Trie) (key value : Felt)
    (proof proof' : list StorageNode) :
  map sn_key proof = map sn_key proof' ->
  PutWithProof hash hashPath fuel key value proof t =
  PutWithProof hash hashPath fuel key value proof' t.
Proof.
  intros Hkeys. unfold PutWithProof, putCommon.
  destruct (felt_Gt key (maxKey t)); [reflexivity|].
  apply try_ext_at. intros r1 t1 _.
  destruct r1 as [[old|]|e]; try reflexivity.
  apply bind_ext_at. intros ns t2 _.
  destruct (length ns =? 0)%nat; [reflexivity|].
  apply bind_ext_at. intros sib t3 _.
  apply try_ext_at. intros r4 t4 _.
  destruct r4 as [[old|]|e]; try reflexivity.
  destruct (felt_IsZero value); [reflexivity|].
  pose proof (find_same_keys (sn_key sib) proof proof' Hkeys) as Hfind.
  destruct (List.find _ proof) as [p|], (List.find _ proof') as [p'|];
    try contradiction; [|reflexivity].
  destruct Hfind as [Hp Hp'].
  rewrite (insertOrUpdateValue_proof_key _ _ ns ns p p'); [reflexivity|congruence].
Qed.

Lemma keepsRoot_put k n t r t' :
  storagePut k n t = Some (r, t') ->
  rootKey t' = rootKey t /\ rootKeyIsDirty t' = rootKeyIsDirty t /\
  dirtyNodes t' = dirtyNodes t.
Proof.
  rewrite storagePut_eq. destruct (Storage_fault (storage t));
    intros H; inversion H; subst; repeat split.
Qed.

Lemma keepsRoot_get k t r t' :
  storageGet k t = Some (r, t') ->
  rootKey t' = rootKey t /\ rootKeyIsDirty t' = rootKeyIsDirty t /\
  dirtyNodes t' = dirtyNodes t /\ nodes (storage t') = nodes (storage t).
Proof.
  intros H. apply storageGet_state in H as ->. repeat split.
Qed.

(** Linking a leaf below a proof node.  With a proof node in the place of
    the sibling, [insertOrUpdateValue] never touches the root key; when it
    returns without an error, the node at the common key was read from the
    storage and put back with the leaf's key and hash on the side that the
    key selects, the common key is the new last entry of the dirty list,
    and the leaf is stored. *)
Theorem insertOrUpdateValue_proof_parent (nodeKey : Key) (node : Node)
    (ns : list StorageNode) (sibling : StorageNode) (t : Trie) (r : res unit) (t' : Trie) :
  insertOrUpdateValue hash hashPath nodeKey node ns sibling true t = Some (r, t') ->
  let commonKey := fst (findCommonKey nodeKey (sn_key sibling)) in
  let bit := Key_IsBitSet nodeKey (u8_sub (u8_sub (Key_Len nodeKey) (Key_Len commonKey)) 1) in
  rootKey t' = rootKey t /\ rootKeyIsDirty t' = rootKeyIsDirty t /\
  (r = Ok tt ->
   exists parent,
     nodes (storage t) !! commonKey = Some parent /\
     nodes (storage t') !! nodeKey = Some node /\
     dirtyNodes t' = dirtyNodes t ++ [commonKey] /\
     (commonKey <> nodeKey ->
      nodes (storage t') !! commonKey =
        Some (if bit
              then Node_setRightHash (Node_setRight parent nodeKey)
                     (Some (Node_Hash hashPath node nodeKey))
              else Node_setLeftHash (Node_setLeft parent nodeKey)
                     (Some (Node_Hash hashPath node nodeKey))))).
Proof.
  intros H commonKey bit. unfold insertOrUpdateValue, GetNodeFromKey in H.
  fold commonKey in H. fold bit in H.
  apply bind_Some in H as [(u & t3 & Hinner & Hleaf)|(e & Hinner & ->)].
  - apply bind_Some in Hinner as [(parent & t1 & Hget & H2)|(e & _ & Hbad)];
      [|discriminate].
    apply bind_Some in H2 as [(u2 & t2 & Hput & Happ)|(e & _ & Hbad)]; [|discriminate].
    destruct (keepsRoot_get _ _ _ _ Hget) as (Hk1 & Hf1 & Hd1 & Hn1).
    apply storageGet_Ok in Hget as (Hparent & _ & _).
    destruct (keepsRoot_put _ _ _ _ _ Hput) as (Hk2 & Hf2 & Hd2).
    destruct u2. pose proof (storagePut_stored _ _ _ _ Hput) as Hst2.
    unfold appendDirty in Happ. inversion Happ; subst t3. clear Happ.
    destruct (keepsRoot_put _ _ _ _ _ Hleaf) as (Hk3 & Hf3 & Hd3). simpl in *.
    split; [congruence|]. split; [congruence|].
    intros ->. exists parent. split; [exact Hparent|].
    pose proof (storagePut_stored _ _ _ _ Hleaf) as Hst3.
    split; [exact Hst3|]. split; [congruence|].
    intros Hne. apply storagePut_Ok in Hleaf as (_ & ->). simpl.
    rewrite lookup_insert_ne by congruence. exact Hst2.
  - split; [|split; [|discriminate]].
    + apply bind_Some in Hinner as [(parent & t1 & Hget & H2)|(e' & Hget & _)].
      * destruct (keepsRoot_get _ _ _ _ Hget) as (Hk1 & _).
        apply bind_Some in H2 as [(u2 & t2 & Hput & Happ)|(e' & Hput & _)].
        -- inversion Happ.
        -- destruct (keepsRoot_put _ _ _ _ _ Hput) as (Hk2 & _). congruence.
      * destruct (keepsRoot_get _ _ _ _ Hget) as (Hk1 & _). exact Hk1.
    + apply bind_Some in Hinner as [(parent & t1 & Hget & H2)|(e' & Hget & _)].
      * destruct (keepsRoot_get _ _ _ _ Hget) as (_ & Hf1 & _).
        apply bind_Some in H2 as [(u2 & t2 & Hput & Happ)|(e' & Hput & _)].
        -- inversion Happ.
        -- destruct (keepsRoot_put _ _ _ _ _ Hput) as (_ & Hf2 & _). congruence.
      * destruct (keepsRoot_get _ _ _ _ Hget) as (_ & Hf1 & _). exact Hf1.
Qed.

End ProofNodes.

(** ** The descent from the root, on any trie state *)

Lemma nodesFromRoot_loop_descent fuel key :
  forall cur acc t l t',
    nodesFromRoot_loop fuel key (Some cur) acc t = Some (Ok l, t') ->
    exists ext, l = acc ++ ext /\
      (ext = [] /\ acc <> [] \/
       ext <> [] /\ descentFrom key cur ext /\ (acc <> [] -> cur <> NilKey)).
Proof.
  induction fuel as [|fuel IH]; intros cur acc t l t' H; simpl in H; [discriminate|].
  destruct ((0 <? length acc)%nat && (Key_Len cur =? 0)%nat) eqn:Hstop.
  { inversion H; subst. exists []. rewrite app_nil_r. split; [reflexivity|].
    left. split; [reflexivity|]. apply andb_true_iff in Hstop as [Hl _].
    apply Nat.ltb_lt in Hl. destruct l; [simpl in Hl; lia|discriminate]. }
  assert (Hcur : acc <> [] -> cur <> NilKey).
  { intros Hacc ->. apply andb_false_iff in Hstop as [Hl|Hl].
    - apply Nat.ltb_ge in Hl. destruct acc; [congruence|simpl in Hl; lia].
    - discriminate. }
  apply bind_Some in H as [(node & t1 & H1 & H2)|(e & _ & Hbad)]; [|discriminate].
  destruct ((Key_Len key <=? Key_Len cur)%nat || negb (isSubset key cur)) eqn:Hend.
  { inversion H2; subst. exists [mkStorageNode cur node]. split; [reflexivity|].
    right. split; [discriminate|]. split; [simpl; auto|exact Hcur]. }
  apply orb_false_iff in Hend as [Hlen Hsub].
  apply Nat.leb_gt in Hlen. apply negb_false_iff in Hsub.
  set (next := if Key_IsBitSet key (u8_sub (u8_sub (Key_Len key) (Key_Len cur)) 1)
               then Right node else Left node).
  assert (Hrec : nodesFromRoot_loop fuel key (Some next)
                   (acc ++ [mkStorageNode cur node]) t1 = Some (Ok l, t')).
  { subst next. destruct (Key_IsBitSet key _); exact H2. }
  apply IH in Hrec as (ext & -> & Hext).
  exists (mkStorageNode cur node :: ext). rewrite <- app_assoc. split; [reflexivity|].
  right. split; [discriminate|]. split; [|exact Hcur].
  destruct Hext as [[-> _]|(Hne & Hd & Hnil)]; [simpl; auto|].
  destruct ext as [|b ext]; [congruence|].
  simpl. split; [reflexivity|]. destruct Hd as [Hb Hrest].
  split; [exact Hsub|]. split; [exact Hlen|]. split; [exact Hb|]. split.
  - rewrite Hb. apply Hnil. destruct acc; discriminate.
  - simpl. split; [reflexivity|]. rewrite Hb. exact Hrest.
Qed.

(** The descent only reads.  Whatever [nodesFromRoot] returns, it has only
    read from the storage.  The list it returns is empty exactly when the
    trie has no root key; otherwise it is a descent from the root key
    towards the key, and every node in it is the one stored at its key. *)
Theorem nodesFromRoot_descent (fuel : nat) (key : Key) (t : Trie)
    (r : res (list StorageNode)) (t' : Trie) :
  nodesFromRoot fuel key t = Some (r, t') ->
  readsOnly t t' /\
  forall ns, r = Ok ns ->
    Forall (stored t) ns /\
    (ns = [] <-> rootKey t = None) /\
    forall rk, rootKey t = Some rk -> descentFrom key rk ns.
Proof.
  intros H. pose proof (nodesFromRoot_reads _ _ _ _ _ H) as [Hro Hst].
  split; [exact Hro|]. intros ns ->. split; [apply Hst; reflexivity|].
  unfold nodesFromRoot in H. destruct (rootKey t) as [rk|] eqn:Hrk.
  - apply nodesFromRoot_loop_descent in H as (ext & -> & Hext). simpl.
    destruct Hext as [[_ Hbad]|(Hne & Hd & _)]; [congruence|].
    split; [split; [intros; congruence|discriminate]|].
    intros rk' [= <-]. exact Hd.
  - destruct fuel; simpl in H; inversion H; subst.
    all: split; [split; reflexivity|discriminate].
Qed.

(** ** Relative paths *)

(** A key is its parent's key, the bit that selects the child, and the
    relative path: for a parent key that is a proper prefix of the key (of
    at most 255 bits), [path] is what follows the selecting bit.  Without a
    parent, [path] is the key itself. *)
Theorem path_splits (key parent : Key) :
  parent `prefix_of` key -> (length parent < length key <= 255)%nat ->
  (exists b, key = parent ++ b :: path key (Some parent)) /\
  length (path key (Some parent)) = (length key - length parent - 1)%nat /\
  path key None = key.
Proof.
  intros [rest ->] Hlen. rewrite length_app in Hlen.
  destruct rest as [|b rest]; [simpl in Hlen; lia|].
  assert (E : path (parent ++ b :: rest) (Some parent) = rest).
  { unfold path, Key_Len, Key_Truncate. rewrite length_app in *. simpl in *.
    rewrite (u8_sub_small (length parent + S (length rest)) (length parent)) by lia.
    rewrite u8_sub_small by lia.
    destruct (Nat.leb_spec (length parent + S (length rest) - length parent - 1)
                (length parent + S (length rest))) as [_|Hbad]; [|lia].
    replace (length parent + S (length rest)
             - (length parent + S (length rest) - length parent - 1))%nat
      with (length parent + 1)%nat by lia.
    change (parent ++ b :: rest) with (parent ++ [b] ++ rest). rewrite app_assoc.
    apply drop_app_length'. rewrite length_app. reflexivity. }
  split; [exists b; rewrite E; reflexivity|].
  split; [|reflexivity]. rewrite E, length_app. simpl. lia.
Qed.

(** ** [PutInner] and the dirty list *)

Section Inner.
Variable hash : Felt -> Felt -> Felt.
Variable hashPath : Felt -> Key -> Felt.

(** [PutInner] goes past the dirty list.  After [Root] has returned on a
    trie built from an empty one, [PutInner] at any key but the root key
    stores its node without marking anything dirty, and the next [Root]
    still returns the commitment from before. *)
Theorem PutInner_bypasses_dirty (schedule : Key -> bool) (fuel : nat) (t : Trie)
    (k : Key) (n : Node) :
  built hash hashPath t -> (height t < fuel)%nat -> rootKey t <> Some k ->
  exists c t1 t2 t3,
    Root hash hashPath schedule fuel t = Some (Ok c, t1) /\
    PutInner k n t1 = Some (Ok tt, t2) /\
    nodes (storage t2) !! k = Some n /\
    dirtyNodes t2 = dirtyNodes t1 /\
    Root hash hashPath schedule fuel t2 = Some (Ok c, t3).
Proof.
  intros Hb Hfuel Hk.
  destruct (built_represents hash hashPath t Hb) as (tr & Hrep & Hnf & Hcfg).
  destruct (Root_run hash hashPath schedule fuel tr t Hrep Hnf Hfuel)
    as (t1 & Hr & Hrep1 & Hflag1 & Hdirty1 & Hnf1 & (Eh & _)).
  pose proof (storagePut_nf k n t1 Hnf1) as Hput.
  assert (Hnf2 : noFaults (Trie_put k n t1)) by (apply noFaults_put, Hnf1).
  destruct Hrep as (Hholds & _). destruct Hrep1 as (Hholds1 & _).
  destruct tr as [s|].
  - destruct Hholds as (Hroot & _ & _).
    destruct Hholds1 as (Hroot1 & Hnodes1 & Hwf1). simpl in *.
    rewrite tkey_clean in Hroot1.
    assert (Hne : k <> tkey s) by congruence.
    destruct fuel as [|fuel]; [lia|].
    eexists _, t1, (Trie_put k n t1), _.
    split; [exact Hr|]. split; [exact Hput|].
    split; [simpl; apply lookup_insert_eq|]. split; [reflexivity|].
    rewrite (Root_cached_run hash hashPath schedule fuel (Trie_put k n t1) (tkey s)
               (tnode (clean hash hashPath s))).
    + simpl. rewrite (Node_Hash_value hashPath (tnode _)), tval_clean. reflexivity.
    + exact Hroot1.
    + exact Hflag1.
    + apply noFaults_fault, Hnf2.
    + simpl. rewrite lookup_insert_ne by exact Hne.
      rewrite Hnodes1, <- (tkey_clean hash hashPath s). apply flatten_root.
    + simpl. rewrite (Hdirty1 ltac:(discriminate)).
      destruct s as [k0 v|k0 val l r]; simpl in *.
      * left. exact Hwf1.
      * right; right. destruct Hwf1 as ([x Hx] & [y Hy] & _).
        split; [rewrite Hx; destruct k0; discriminate|].
        split; [rewrite Hy; destruct k0; discriminate|]. reflexivity.
  - destruct Hholds1 as (Hroot1 & _). simpl in *.
    exists felt_Zero, t1, (Trie_put k n t1), (Trie_put k n t1).
    split; [exact Hr|]. split; [exact Hput|].
    split; [simpl; apply lookup_insert_eq|]. split; [reflexivity|].
    rewrite (Root_no_rootKey hash hashPath schedule fuel (Trie_put k n t1) Hroot1).
    simpl. rewrite Hflag1. reflexivity.
Qed.

End Inner.

(** ** The slice helpers *)

Module utils_facts.
Import utils.

Lemma Filter_loop_spec {T} (l : list T) (f : T -> bool) (result : slice T) :
  Filter_loop l f result =
  match List.filter f l with
  | [] => result
  | _ :: _ => Some (elements result ++ List.filter f l)
  end.
Proof.
  revert result. induction l as [|e l IH]; intros result; simpl; [reflexivity|].
  rewrite IH. destruct (f e); [|reflexivity].
  unfold append. simpl. rewrite <- app_assoc. simpl.
  destruct (List.filter f l); reflexivity.
Qed.

Lemma Filter_spec {T} (s : slice T) (f : T -> bool) :
  Filter s f =
  match List.filter f (elements s) with
  | [] => None
  | _ :: _ => Some (List.filter f (elements s))
  end.
Proof. unfold Filter. rewrite Filter_loop_spec. reflexivity. Qed.

Lemma filter_nil_Forall {T} (f : T -> bool) (l : list T) :
  List.filter f l = [] <-> Forall (fun e => f e = false) l.
Proof.
  induction l as [|e l IH]; simpl; [split; constructor|].
  destruct (f e) eqn:E; split.
  - discriminate.
  - intros H. inversion H; congruence.
  - intros H. constructor; [exact E|apply IH, H].
  - intros H. inversion H; subst. apply IH. assumption.
Qed.

Lemma filter_idem {T} (f : T -> bool) (l : list T) :
  List.filter f (List.filter f l) = List.filter f l.
Proof.
  induction l as [|e l IH]; simpl; [reflexivity|].
  destruct (f e) eqn:E; simpl; [rewrite E, IH|rewrite IH]; reflexivity.
Qed.

Lemma IndexFunc_from_bounds {T} (l : list T) (p : T -> bool) (i : Z) :
  0 <= i ->
  (IndexFunc_from l p i = -1 /\ Forall (fun e => p e = false) l) \/
  (i <= IndexFunc_from l p i < i + Z.of_nat (length l) /\
   exists e, l !! Z.to_nat (IndexFunc_from l p i - i) = Some e /\ p e = true /\
             Forall (fun e => p e = false) (take (Z.to_nat (IndexFunc_from l p i - i)) l)).
Proof.
  revert i. induction l as [|e l IH]; intros i Hi; simpl.
  - left. split; [reflexivity|constructor].
  - destruct (p e) eqn:Hp.
    + right. split; [lia|]. exists e. rewrite Z.sub_diag. simpl. auto.
    + destruct (IH (i + 1) ltac:(lia)) as [[E Hall]|[Hb (x & Hx & Hpx & Hall)]].
      * left. split; [exact E|constructor; assumption].
      * right. split; [lia|]. exists x.
        replace (Z.to_nat (IndexFunc_from l p (i + 1) - i))
          with (S (Z.to_nat (IndexFunc_from l p (i + 1) - (i + 1)))) by lia.
        simpl. split; [exact Hx|]. split; [exact Hpx|]. constructor; assumption.
Qed.

(** [Map] keeps nil apart from empty, keeps the length, maps element by
    element, and a [Map] of a [Map] is the [Map] of the composition. *)
Theorem Map_elementwise {T1 T2 T3} (s : slice T1) (f : T1 -> T2) (g : T2 -> T3) :
  (Map s f = None <-> s = None) /\
  length (elements (Map s f)) = length (elements s) /\
  (forall i, elements (Map s f) !! i = f <$> elements s !! i) /\
  Map (Map s f) g = Map s (fun e => g (f e)).
Proof.
  destruct s as [l|]; simpl.
  - split; [split; discriminate|]. split; [apply length_map|].
    split; [intros i; apply list_lookup_fmap|].
    rewrite map_map. reflexivity.
  - repeat split; reflexivity.
Qed.

(** [Filter] keeps, in their order, exactly the elements that satisfy the
    predicate.  Its result is the nil slice whenever nothing is kept, also
    for an input that is empty but not nil.  Filtering again changes
    nothing, and every element of the result passes [All]. *)
Theorem Filter_keeps_matching {T} (s : slice T) (f : T -> bool) :
  elements (Filter s f) = List.filter f (elements s) /\
  (Filter s f = None <-> Forall (fun e => f e = false) (elements s)) /\
  Filter (Filter s f) f = Filter s f /\
  All (Filter s f) f = true.
Proof.
  assert (He : elements (Filter s f) = List.filter f (elements s)).
  { rewrite Filter_spec. destruct (List.filter f (elements s)); reflexivity. }
  split; [exact He|]. split; [|split].
  - rewrite Filter_spec, <- filter_nil_Forall.
    destruct (List.filter f (elements s)); split; intros H; try discriminate; reflexivity.
  - rewrite (Filter_spec (Filter s f)), He, filter_idem. symmetry. apply Filter_spec.
  - unfold All, IndexFunc. rewrite He.
    destruct (IndexFunc_from_bounds (List.filter f (elements s))
                (fun e => negb (f e)) 0 ltac:(lia)) as [[E _]|[_ (e & He' & Hp & _)]].
    + rewrite E. reflexivity.
    + exfalso. apply list_elem_of_lookup_2 in He'.
      apply list_elem_of_In, filter_In in He' as [_ Hf]. rewrite Hf in Hp. discriminate.
Qed.

Lemma filter_all_Forall {T} (f : T -> bool) (l : list T) :
  List.filter f l = l <-> Forall (fun e => f e = true) l.
Proof.
  induction l as [|e l IH]; simpl; [split; constructor|].
  destruct (f e) eqn:E; split.
  - intros [= H]. constructor; [exact E|apply IH, H].
  - intros H. inversion H; subst. f_equal. apply IH. assumption.
  - intros H. exfalso.
    assert (Hlen : (length (List.filter f l) <= length l)%nat) by apply filter_length_le.
    rewrite H in Hlen. simpl in Hlen. lia.
  - intros H. inversion H; congruence.
Qed.

(** [All] holds exactly when every element satisfies the predicate, so it
    holds for the nil slice and for the empty one, and exactly when
    [Filter] keeps every element.  [AnyOf] holds exactly when the element
    is among the values. *)
Theorem All_AnyOf_decide {T} `{EqDecision T} (s : slice T) (f : T -> bool)
    (e : T) (values : list T) :
  (All s f = true <-> Forall (fun x => f x = true) (elements s)) /\
  (All s f = true <-> elements (Filter s f) = elements s) /\
  (AnyOf e values = true <-> e ∈ values).
Proof.
  assert (HAll : All s f = true <-> Forall (fun x => f x = true) (elements s)).
  { unfold All, IndexFunc.
    destruct (IndexFunc_from_bounds (elements s) (fun x => negb (f x)) 0 ltac:(lia))
      as [[E Hall]|[Hb (x & Hx & Hp & _)]].
    - rewrite E. split; [intros _|reflexivity].
      eapply Forall_impl; [exact Hall|]. intros y Hy. simpl in Hy.
      destruct (f y); [reflexivity|discriminate].
    - split.
      + intros H. apply Z.eqb_eq in H. lia.
      + intros H. exfalso. rewrite Forall_forall in H.
        apply list_elem_of_lookup_2 in Hx. rewrite (H _ Hx) in Hp. discriminate. }
  split; [exact HAll|]. split.
  - rewrite HAll, Filter_spec, <- filter_all_Forall.
    destruct (List.filter f (elements s)) eqn:E; simpl; split; congruence.
  - unfold AnyOf. rewrite existsb_exists. split.
    + intros (x & Hin & Hx). apply bool_decide_eq_true in Hx as ->.
      apply list_elem_of_In, Hin.
    + intros Hin. exists e. split; [apply list_elem_of_In, Hin|].
      apply bool_decide_eq_true. reflexivity.
Qed.

End utils_facts.

(** ** Temporary tries *)

Section Temp.
Variable hash : Felt -> Felt -> Felt.
Variable hashPath : Felt -> Key -> Felt.

(** [RunOnTempTrie] does not run [do] for a height above [felt.Bits] and
    returns the height error; otherwise [do] runs on an empty trie, which
    is the starting point of the tries built from an empty one: no root
    key, no nodes, no dirty nodes, the root-key slot in step.  A [do] that
    puts a value that is not zero at a key within range and reads it back
    finds the value. *)
Theorem RunOnTempTrie_cases (h : nat) (do : M unit) :
  ((felt_Bits < h)%nat -> RunOnTempTrie h do = Some (Err (ErrInvalidHeight h))) /\
  ((h <= felt_Bits)%nat ->
   exists t0,
     built hash hashPath t0 /\ height t0 = h /\ rootKey t0 = None /\
     nodes (storage t0) = ∅ /\ dirtyNodes t0 = [] /\ slotSynced t0 /\
     RunOnTempTrie h do = (match do t0 with Some (r, _) => Some r | None => None end) /\
     forall fuel key value,
       (h < fuel)%nat -> key <= maxKey t0 -> value <> 0 ->
       exists old t1 t2,
         Put hash hashPath fuel key value t0 = Some (Ok old, t1) /\
         Get key t1 = Some (Ok value, t2)).
Proof.
  split.
  - intros Hh. unfold RunOnTempTrie, newTrie. apply Nat.ltb_lt in Hh. rewrite Hh.
    reflexivity.
  - intros Hh.
    pose proof (newTrie_run newMemStorage h Hh eq_refl) as Hnew.
    set (t0 := mkTrie h (rootSlot newMemStorage)
                 (felt_Sub (felt_Exp 2 (Z.of_nat h)) 1)
                 (Storage_log OpRootKey newMemStorage) [] false) in *.
    assert (Hb : built hash hashPath t0).
    { eapply newTrie_built; [exact Hnew|reflexivity|reflexivity|reflexivity]. }
    exists t0. split; [exact Hb|]. split; [reflexivity|]. split; [reflexivity|].
    split; [reflexivity|]. split; [reflexivity|]. split; [intros _; reflexivity|].
    split; [unfold RunOnTempTrie; rewrite Hnew; reflexivity|].
    intros fuel key value Hfuel Hkey Hv.
    destruct (built_represents hash hashPath t0 Hb) as (tr & Hrep & Hnf & _).
    destruct (Put_nonzero_run hash hashPath fuel tr t0 key value Hrep Hnf Hfuel Hkey Hv)
      as (t1 & Hput & Hrep1 & Hnf1 & (Eh & _)).
    eexists _, t1, _. split; [exact Hput|].
    rewrite (Get_represents hash hashPath _ t1 key Hrep1 Hnf1).
    rewrite Eh, (trieLeaves_trieInsert hash hashPath tr t0 _ _ Hrep (FeltToKey_length _ _)).
    rewrite lookup_insert_eq. reflexivity.
Qed.

End Temp.

(** ** Deletion, on any trie state *)

Lemma deleteLast_any (ns : list StorageNode) lst t :
  noFaults t -> last ns = Some lst ->
  exists t',
    deleteLast ns t = Some (Ok tt, t') /\
    nodes (storage t') = deletedStorage ns (nodes (storage t)) /\
    rootKey t' = match parentOf ns, grandParentOf ns with
                 | None, _ => None
                 | Some parent, None => Some (siblingOf parent (sn_key lst))
                 | Some _, Some _ => rootKey t
                 end /\
    dirtyNodes t' = match parentOf ns, grandParentOf ns with
                    | Some parent, Some _ => dirtyNodes t ++ [siblingOf parent (sn_key lst)]
                    | _, _ => dirtyNodes t
                    end /\
    noFaults t' /\ height t' = height t.
Proof.
  intros Hnf Hlast. unfold deleteLast.
  erewrite bind_ok by (apply fromEnd_last; exact Hlast).
  unfold bind at 1. rewrite storageDelete_nf by exact Hnf.
  destruct (list_shape ns) as [->|[(x & ->)|[(x & y & ->)|(l' & x & y & z & ->)]]].
  - discriminate.
  - injection Hlast as <-. simpl. unfold setRootKey, deletedStorage. simpl.
    eexists. split; [reflexivity|]. repeat split. intros n. apply Hnf.
  - injection Hlast as <-. cbn [length Nat.eqb].
    erewrite bind_ok by reflexivity. unfold bind.
    rewrite storageDelete_nf by (apply noFaults_delete, Hnf).
    unfold setRootKey, deletedStorage, siblingOf. simpl.
    eexists. split; [reflexivity|]. repeat split. intros n. apply Hnf.
  - rewrite last_snoc3 in Hlast. injection Hlast as ->.
    rewrite length_app. change (length [x; y; lst]) with 3%nat.
    replace (length l' + 3 =? 1)%nat with false by (symmetry; apply Nat.eqb_neq; lia).
    replace (length l' + 3 =? 2)%nat with false by (symmetry; apply Nat.eqb_neq; lia).
    erewrite bind_ok by (apply fromEnd_parent; apply parentOf_snoc3).
    unfold bind at 1. rewrite storageDelete_nf by (apply noFaults_delete, Hnf).
    erewrite bind_ok by apply fromEnd_3. unfold bind.
    rewrite storagePut_nf by (apply noFaults_delete, noFaults_delete, Hnf).
    unfold appendDirty, deletedStorage, siblingOf, relinked.
    rewrite last_snoc3, parentOf_snoc3, grandParentOf_snoc.
    eexists. split; [reflexivity|]. cbn.
    split; [reflexivity|]. split; [reflexivity|]. split; [reflexivity|].
    split; [intros n; apply Hnf|reflexivity].
Qed.

Lemma descentFrom_cons2 key cur (x y : StorageNode) rest :
  descentFrom key cur (x :: y :: rest) ->
  sn_key x = cur /\ (Key_Len cur < Key_Len key)%nat /\
  descentFrom key (sn_key y) (y :: rest).
Proof. intros (Hx & _ & Hl & _ & _ & H). split; [exact Hx|]. split; [exact Hl|exact H]. Qed.

(** In a descent, a node that has a successor has a key shorter than the
    key that the descent heads for. *)
Lemma descentFrom_inner key cur (l1 : list StorageNode) a b l2 :
  descentFrom key cur (l1 ++ a :: b :: l2) -> (Key_Len (sn_key a) < Key_Len key)%nat.
Proof.
  revert cur. induction l1 as [|x l1 IH]; intros cur H.
  - apply descentFrom_cons2 in H as (Ha & Hlen & _). rewrite Ha. exact Hlen.
  - change ((x :: l1) ++ a :: b :: l2) with (x :: (l1 ++ a :: b :: l2)) in H.
    destruct (l1 ++ a :: b :: l2) as [|y rest] eqn:E.
    { destruct l1; discriminate. }
    apply descentFrom_cons2 in H as (_ & _ & H).
    eapply IH, H.
Qed.

Lemma descentFrom_link key cur (l1 : list StorageNode) a b l2 :
  descentFrom key cur (l1 ++ a :: b :: l2) ->
  sn_key b =
    (if Key_IsBitSet key (u8_sub (u8_sub (Key_Len key) (Key_Len (sn_key a))) 1)
     then Right (sn_node a) else Left (sn_node a)).
Proof.
  revert cur. induction l1 as [|x l1 IH]; intros cur H.
  - simpl in H. destruct H as (Ha & _ & _ & Hb & _). rewrite Ha. exact Hb.
  - change ((x :: l1) ++ a :: b :: l2) with (x :: (l1 ++ a :: b :: l2)) in H.
    destruct (l1 ++ a :: b :: l2) as [|y rest] eqn:E.
    { destruct l1; discriminate. }
    apply descentFrom_cons2 in H as (_ & _ & H).
    eapply IH, H.
Qed.

Section Deletion.
Variable hash : Felt -> Felt -> Felt.
Variable hashPath : Felt -> Key -> Felt.

(** The descent that [nodesFromRoot] returns, when it is not empty. *)
Lemma nodesFromRoot_descentFrom fuel key t ns t1 :
  nodesFromRoot fuel key t = Some (Ok ns, t1) -> ns <> [] ->
  exists rk, rootKey t = Some rk /\ descentFrom key rk ns.
Proof.
  intros H Hne. unfold nodesFromRoot in H. destruct (rootKey t) as [rk|].
  - apply nodesFromRoot_loop_descent in H as (ext & -> & Hext). simpl in *.
    destruct Hext as [[-> _]|(_ & Hd & _)]; [congruence|]. eauto.
  - destruct fuel; simpl in H; inversion H; subst; congruence.
Qed.

(** [Put] of zero where the descent ends at the leaf of the key, on any
    trie state over a storage that does not fail. *)
Lemma Put_zero_descent (fuel : nat) (t : Trie) (key : Felt) ns t1 leaf :
  key <= maxKey t -> noFaults t ->
  nodesFromRoot fuel (FeltToKey (height t) key) t = Some (Ok ns, t1) ->
  last ns = Some (mkStorageNode (FeltToKey (height t) key) leaf) ->
  exists t',
    nodes (storage t) !! FeltToKey (height t) key = Some leaf /\
    Put hash hashPath fuel key 0 t = Some (Ok (Some (Value leaf)), t') /\
    (exists t'', Get key t' = Some (Ok felt_Zero, t'')) /\
    nodes (storage t') !! FeltToKey (height t) key = None /\
    nodes (storage t') = deletedStorage ns (nodes (storage t)) /\
    match parentOf ns with
    | None => rootKey t' = None
    | Some parent =>
        let siblingKey := siblingOf parent (FeltToKey (height t) key) in
        nodes (storage t') !! sn_key parent = None /\
        match grandParentOf ns with
        | None => rootKey t' = Some siblingKey
        | Some grandParent =>
            rootKey t' = rootKey t /\
            nodes (storage t') !! sn_key grandParent
              = Some (relinked grandParent (sn_key parent) siblingKey) /\
            dirtyNodes t' = dirtyNodes t ++ [siblingKey]
        end
    end.
Proof.
  intros Hkey Hnf Hdesc Hlast.
  set (nodeKey := FeltToKey (height t) key) in *.
  set (lst := mkStorageNode nodeKey leaf) in *.
  pose proof (nodesFromRoot_reads _ _ _ _ _ Hdesc) as [Hro Hst].
  specialize (Hst ns eq_refl).
  assert (Hne : ns <> []) by (intros ->; discriminate).
  destruct (nodesFromRoot_descentFrom _ _ _ _ _ Hdesc Hne) as (rk & Hrk & Hd).
  assert (Hleaf : nodes (storage t) !! nodeKey = Some leaf).
  { rewrite Forall_forall in Hst. apply (Hst lst). apply last_elem, Hlast. }
  pose proof (readsOnly_fields _ _ Hro) as (Eh & Ek & _ & Ed & _ & En & _ & _).
  assert (Hnf1 : noFaults t1) by (eapply noFaults_readsOnly; eauto).
  destruct (deleteLast_any ns lst t1 Hnf1 Hlast)
    as (t2 & Hdel & Hn2 & Hk2 & Hd2 & Hnf2 & Eh2).
  rewrite En in Hn2. rewrite Ek in Hk2. rewrite Ed in Hd2.
  assert (Hput : Put hash hashPath fuel key 0 t = Some (Ok (Some (Value leaf)), t2)).
  { unfold Put, putCommon. rewrite (felt_Gt_false _ _ Hkey).
    unfold try at 1. unfold updateLeaf. change (felt_IsZero 0) with true.
    cbn [negb ret]. fold nodeKey.
    rewrite (bind_ok _ _ _ _ _ Hdesc).
    destruct ns as [|n0 ns']; [congruence|]. cbn [length Nat.eqb].
    rewrite (bind_ok _ _ _ _ _ (fromEnd_last _ _ t1 Hlast)).
    unfold try, deleteExistingKey. cbn [sn_key lst].
    rewrite (proj2 (Key_Equal_true nodeKey nodeKey) eq_refl).
    unfold bind at 1. rewrite Hdel. reflexivity. }
  assert (Hgone : nodes (storage t2) !! nodeKey = None /\
                  forall parent, parentOf ns = Some parent ->
                                 nodes (storage t2) !! sn_key parent = None).
  { rewrite Hn2. unfold deletedStorage. rewrite Hlast. cbn [sn_key lst].
    destruct (list_shape ns) as [->|[(x & ->)|[(x & y & ->)|(l' & x & y & z & ->)]]].
    - discriminate.
    - simpl. split; [apply lookup_delete_eq|discriminate].
    - simpl. split.
      + rewrite lookup_delete. case_decide; [reflexivity|apply lookup_delete_eq].
      + intros parent [= <-]. apply lookup_delete_eq.
    - rewrite last_snoc3 in Hlast. injection Hlast as ->.
      rewrite parentOf_snoc3, grandParentOf_snoc.
      pose proof (descentFrom_inner _ _ l' x y [lst] Hd) as Hlx.
      pose proof (descentFrom_inner nodeKey rk (l' ++ [x]) y lst []) as Hly.
      rewrite <- app_assoc in Hly. specialize (Hly Hd).
      pose proof (descentFrom_link _ _ l' x y [lst] Hd) as Hxy.
      pose proof (descentFrom_link nodeKey rk (l' ++ [x]) y lst []) as Hyl.
      rewrite <- app_assoc in Hyl. specialize (Hyl Hd). cbn [sn_key lst] in Hyl.
      assert (Hx : sn_key x <> nodeKey) by (intros E; rewrite E in Hlx; lia).
      assert (Hxy' : sn_key x <> sn_key y).
      { intros E. rewrite Forall_forall in Hst.
        assert (Hsx : stored t x) by (apply Hst, elem_of_app; right; apply list_elem_of_here).
        assert (Hsy : stored t y).
        { apply Hst, elem_of_app. right. apply list_elem_of_further, list_elem_of_here. }
        unfold stored in Hsx, Hsy. rewrite E, Hsy in Hsx. injection Hsx as Enode.
        assert (Ebad : nodeKey = sn_key y).
        { rewrite Enode, <- E in Hyl. rewrite <- Hxy in Hyl. exact Hyl. }
        rewrite <- Ebad in Hly. lia. }
      split.
      + rewrite lookup_insert_ne by exact Hx.
        rewrite lookup_delete. case_decide; [reflexivity|apply lookup_delete_eq].
      + intros parent [= <-]. rewrite lookup_insert_ne by exact Hxy'.
        apply lookup_delete_eq. }
  destruct Hgone as [Hgone Hpar].
  exists t2. split; [exact Hleaf|]. split; [exact Hput|]. split; [|split; [exact Hgone|]].
  { exists (Trie_read (FeltToKey (height t2) key) t2).
    unfold Get, try. rewrite (storageGet_nf _ _ Hnf2), Eh2, Eh. fold nodeKey.
    rewrite Hgone. reflexivity. }
  split; [exact Hn2|].
  destruct (parentOf ns) as [parent|] eqn:Hp; [|exact Hk2].
  cbn zeta. split; [apply Hpar; reflexivity|].
  destruct (grandParentOf ns) as [gp|] eqn:Hg; [|exact Hk2].
  split; [exact Hk2|]. split; [|exact Hd2].
  rewrite Hn2. unfold deletedStorage. rewrite Hlast, Hp, Hg. apply lookup_insert_eq.
Qed.

(** C4: [Put] of zero at a key that has a leaf.  On any trie state over a
    storage that does not fail, when the descent [ns] from the root ends at
    the leaf of the key: the call returns the old value of the leaf;
    afterwards [Get] of the key returns zero and the storage holds no node
    at the full-depth key; when the leaf was the sole node of the descent
    the root key is cleared; otherwise the parent of the leaf is removed
    too, and its other child becomes the root when the descent had length
    two, or is linked into the grandparent in place of the parent (and
    marked dirty) when it was longer.  On every trie built from the empty
    trie, the descent does end at every stored leaf, and the sibling stays
    stored as it was. *)
Theorem Put_zero_deletes (fuel : nat) (t : Trie) (key : Felt) :
  key <= maxKey t ->
  (forall ns t1 leaf,
     noFaults t ->
     nodesFromRoot fuel (FeltToKey (height t) key) t = Some (Ok ns, t1) ->
     last ns = Some (mkStorageNode (FeltToKey (height t) key) leaf) ->
     exists t',
       nodes (storage t) !! FeltToKey (height t) key = Some leaf /\
       Put hash hashPath fuel key 0 t = Some (Ok (Some (Value leaf)), t') /\
       (exists t'', Get key t' = Some (Ok felt_Zero, t'')) /\
       nodes (storage t') !! FeltToKey (height t) key = None /\
       nodes (storage t') = deletedStorage ns (nodes (storage t)) /\
       match parentOf ns with
       | None => rootKey t' = None
       | Some parent =>
           let siblingKey := siblingOf parent (FeltToKey (height t) key) in
           nodes (storage t') !! sn_key parent = None /\
           match grandParentOf ns with
           | None => rootKey t' = Some siblingKey
           | Some grandParent =>
               rootKey t' = rootKey t /\
               nodes (storage t') !! sn_key grandParent
                 = Some (relinked grandParent (sn_key parent) siblingKey) /\
               dirtyNodes t' = dirtyNodes t ++ [siblingKey]
           end
       end) /\
  (forall leaf,
     built hash hashPath t -> (height t < fuel)%nat ->
     nodes (storage t) !! FeltToKey (height t) key = Some leaf ->
     exists ns t1 t',
       nodesFromRoot fuel (FeltToKey (height t) key) t = Some (Ok ns, t1) /\
       last ns = Some (mkStorageNode (FeltToKey (height t) key) leaf) /\
       Put hash hashPath fuel key 0 t = Some (Ok (Some (Value leaf)), t') /\
       (exists t'', Get key t' = Some (Ok felt_Zero, t'')) /\
       nodes (storage t') !! FeltToKey (height t) key = None /\
       match parentOf ns with
       | None => rootKey t' = None
       | Some parent =>
           let siblingKey :=
             if Key_Equal (Left (sn_node parent)) (FeltToKey (height t) key)
             then Right (sn_node parent) else Left (sn_node parent) in
           nodes (storage t') !! sn_key parent = None /\
           is_Some (nodes (storage t) !! siblingKey) /\
           nodes (storage t') !! siblingKey = nodes (storage t) !! siblingKey /\
           match grandParentOf ns with
           | None => rootKey t' = Some siblingKey
           | Some grandParent =>
               rootKey t' = rootKey t /\
               nodes (storage t') !! sn_key grandParent
               = Some (if Key_Equal (Left (sn_node grandParent)) (sn_key parent)
                       then Node_setLeft (sn_node grandParent) siblingKey
                       else Node_setRight (sn_node grandParent) siblingKey)
           end
       end).
Proof.
  intros Hkey. split.
  - intros ns t1 leaf Hnf Hdesc Hlast.
    exact (Put_zero_descent fuel t key ns t1 leaf Hkey Hnf Hdesc Hlast).
  - intros leaf Hb Hfuel Hleaf.
    exact (Put_zero_deletes_built hash hashPath fuel t key leaf Hb Hfuel Hkey Hleaf).
Qed.

End Deletion.

(** C4 as the claim has it, for every trie with a leaf at the full-depth
    key, does not hold: in [InnerExample.trie] the leaf of the key 1 is
    stored but the trie has no root key, so [Put] of zero finds no descent,
    returns nil and leaves the leaf, and [Get] still returns 10. *)
Lemma Put_zero_deletes_counterexample :
  1 <= maxKey InnerExample.trie /\
  nodes (storage InnerExample.trie) !! FeltToKey (height InnerExample.trie) 1
    = Some (leafNode 10) /\
  Put Example.hash Example.hashPath Example.fuel 1 0 InnerExample.trie
    = Some (Ok None, InnerExample.trie1) /\
  nodes (storage InnerExample.trie1) !! FeltToKey (height InnerExample.trie) 1
    = Some (leafNode 10) /\
  exists t'', Get 1 InnerExample.trie1 = Some (Ok 10, t'').
Proof.
  split; [vm_compute; discriminate|]. split; [vm_compute; reflexivity|].
  split; [vm_compute; reflexivity|]. split; [vm_compute; reflexivity|].
  eexists. vm_compute. reflexivity.
Qed.

(** C4 at the trie with the keys 1, 5 and 7, the key 5 deleted, and at
    [ProofExample.trie], whose root is a proof node: deleting the leaf of
    the key 1 makes the NIL child of the root the root key. *)
Lemma Put_zero_deletes_witness :
  (exists t' t'',
     Put Example.hash Example.hashPath Example.fuel 5 0 Example.trie3
       = Some (Ok (Some 50), t') /\
     Get 5 t' = Some (Ok 0, t'') /\
     nodes (storage t') !! FeltToKey 4 5 = None) /\
  (exists t',
     Put Example.hash Example.hashPath Example.fuel 1 0 ProofExample.trie
       = Some (Ok (Some 10), t') /\
     rootKey t' = Some NilKey).
Proof.
  split.
  - destruct (proj2 (Put_zero_deletes Example.hash Example.hashPath Example.fuel
                       Example.trie3 5 ltac:(vm_compute; discriminate))
                (leafNode 50))
      as (ns & t1 & t' & _ & _ & Hput & (t'' & Hget) & Habs & _).
    + exact built_trie3.
    + vm_compute; lia.
    + vm_compute; reflexivity.
    + exists t', t''. split; [exact Hput|]. split; [exact Hget|exact Habs].
  - pose (r := nodesFromRoot Example.fuel (FeltToKey (height ProofExample.trie) 1)
                 ProofExample.trie).
    assert (E : r = Some (Ok [mkStorageNode ProofExample.rootKey ProofExample.proofNode;
                             mkStorageNode (FeltToKey (height ProofExample.trie) 1)
                               (leafNode 10)],
                          Example.state r ProofExample.trie))
      by (vm_compute; reflexivity).
    destruct (proj1 (Put_zero_deletes Example.hash Example.hashPath Example.fuel
                       ProofExample.trie 1 ltac:(vm_compute; discriminate))
                _ _ (leafNode 10) ltac:(intros n; vm_compute; reflexivity) E eq_refl)
      as (t' & _ & Hput & _ & _ & _ & Hshape).
    exists t'. split; [exact Hput|]. vm_compute in Hshape. apply Hshape.
Defined.

(** ** Two [Root] calls in a row, on any trie state *)

Section Twice.
Variable hash : Felt -> Felt -> Felt.
Variable hashPath : Felt -> Key -> Felt.

Lemma Node_setValue_twice n v1 v2 :
  Node_setValue (Node_setValue n v1) v2 = Node_setValue n v2.
Proof. reflexivity. Qed.

Lemma Node_setValue_same n : Node_setValue n (Value n) = n.
Proof. destruct n; reflexivity. Qed.

(** What a recomputation that returns a node leaves at its key: the node it
    returns, which is the node that was there up to its value. *)
Lemma updateValueIfDirty_stored schedule fuel (k : Key) t n t' :
  updateValueIfDirty hash hashPath schedule fuel k t = Some (Ok n, t') ->
  exists n0 v,
    nodes (storage t) !! k = Some n0 /\
    nodes (storage t') !! k = Some n /\
    n = Node_setValue n0 v.
Proof.
  intros H. destruct fuel as [|fuel]; [discriminate|]. cbn [updateValueIfDirty] in H.
  apply bind_Some in H as [(node & t3 & Hget & H)|(e & _ & Hbad)]; [|discriminate].
  apply storageGet_Ok in Hget as (Hnode & _ & Et3).
  assert (Hn3 : nodes (storage t3) !! k = Some node) by (rewrite Et3; exact Hnode).
  cbv beta in H.
  destruct (Key_Len k =? height t3)%nat.
  { inversion H; subst n t'. exists node, (Value node).
    split; [exact Hnode|]. split; [exact Hn3|]. symmetry. apply Node_setValue_same. }
  match type of H with (if negb ?b then _ else _) = _ => destruct b end;
    cbn [negb] in H.
  2:{ inversion H; subst n t'. exists node, (Value node).
      split; [exact Hnode|]. split; [exact Hn3|]. symmetry. apply Node_setValue_same. }
  apply bind_Some in H as [(children & t4 & _ & H)|(e & _ & Hbad)]; [|discriminate].
  match type of H with
  | match ?x with _ => _ end _ = _ => destruct x as [lh|]; [|discriminate]
  end.
  match type of H with
  | match ?x with _ => _ end _ = _ => destruct x as [rh|]; [|discriminate]
  end.
  apply bind_Some in H as [(u & t5 & Hput & H)|(e & _ & Hbad)]; [|discriminate].
  destruct u. apply storagePut_stored in Hput.
  unfold ret in H. inversion H; subst n t'.
  exists node, (hash lh rh). split; [exact Hnode|]. split; [exact Hput|reflexivity].
Qed.

(** The state in which the second of two [Root] calls starts. *)
Lemma Root_leaves_root schedule fuel t c t1 rk :
  Root hash hashPath schedule fuel t = Some (Ok c, t1) -> rootKey t = Some rk ->
  exists n0 v,
    nodes (storage t) !! rk = Some n0 /\
    nodes (storage t1) !! rk = Some (Node_setValue n0 v) /\
    c = Node_Hash hashPath (Node_setValue n0 v) (path rk None) /\
    rootKey t1 = Some rk /\ rootKeyIsDirty t1 = false /\ dirtyNodes t1 = [] /\
    height t1 = height t /\ (0 < fuel)%nat.
Proof.
  intros H Hrk. unfold Root in H.
  apply bind_Some in H as [(a & t0 & H1 & H2)|(e & _ & Hbad)]; [|discriminate].
  destruct a. pose proof (settle_log _ _ _ H1) as (_ & Hn0 & Hh0 & Hk0).
  apply settle_cases in H1 as (_ & _ & Hok). destruct (Hok eq_refl) as [Hf0 _].
  rewrite Hk0, Hrk in H2.
  unfold withSyncedStorage, Storage_SyncedStorage in H2.
  rewrite Trie_withStorage_id in H2.
  apply bind_Some in H2 as [(root & t2 & H3 & H4)|(e & _ & Hbad)]; [|discriminate].
  unfold bind, ret in H4. inversion H4; subst c t1. clear H4.
  pose proof (storageOnly_updateValueIfDirty _ _ _ _ _ _ _ _ H3) as Et2.
  assert (Hfuel : (0 < fuel)%nat) by (destruct fuel; [discriminate|lia]).
  apply updateValueIfDirty_stored in H3 as (n0 & v & Hn & Hroot & ->).
  rewrite Hn0 in Hn.
  exists n0, v. split; [exact Hn|]. split; [exact Hroot|]. split; [reflexivity|].
  rewrite Et2. simpl. rewrite Hk0, Hf0, Hh0. auto.
Qed.


End Twice.


